(** * Catalog index, resolver and portfolio aggregation of the otaku agent

    A shallow embedding of
      - [plugins/plugin-defillama/src/services/defillama.service.ts]
        (the TTL-cached protocol index and its tiered resolver), and
      - the wallet-information action ([getTokenInfo], [fetchChainBalances],
        [cdpWalletInfo.handler]),
    followed by the properties that the specification states about them.

    Conventions of the embedding.
      - A JavaScript string is a [string]: each [ascii] is one code unit in
        the range 0..255 (the Latin-1 part of UTF-16).  [trim] and
        [toLowerCase] are the built-ins restricted to that range.
      - A JavaScript number is a [JsNumber]: NaN, the two infinities, or a
        rational.  [Number] rounds what it reads to the binary64 format
        ([binary64]); the two zeros of the format are one, as nothing in
        the program tells them apart.  Amounts, prices and USD values,
        which the code never lets become NaN or infinite, are plain
        rationals ([Q]) on which the arithmetic is exact, and integers
        such as millisecond clocks are [Z].
      - [async] code that reads the clock, the network or the service fields
        is written in a state-and-exception monad ([M]); [try]/[catch] is
        [try_catch].  One caller runs at a time: interleavings of concurrent
        callers are outside the model.
      - The outside world (HTTP responses, contract reads, [Math.random]) is
        an oracle given with the initial state. *)

From Stdlib Require Import List Bool Arith ZArith QArith Qround Qabs Lia.
From Stdlib Require Import Ascii String DecimalString DecimalPos.
From Stdlib Require Import Permutation Sorted.
Import ListNotations.

Set Implicit Arguments.
Close Scope Q_scope.

(* ================================================================== *)
(** * Part I. Definitions                                              *)
(* ================================================================== *)

(* ------------------------------------------------------------------ *)
(** ** JavaScript strings                                              *)
(* ------------------------------------------------------------------ *)

Module JsString.

Local Open Scope string_scope.
Local Open Scope bool_scope.
Local Open Scope nat_scope.

(** White space and line terminators below code unit 256: TAB, LF, VT, FF,
    CR, SPACE and NO-BREAK SPACE. *)
Definition isWhiteSpace (c : ascii) : bool :=
  let n := nat_of_ascii c in
  ((9 <=? n) && (n <=? 13)) || (n =? 32) || (n =? 160).

(** [String.prototype.toLowerCase] on one code unit: A..Z and the accented
    capitals U+00C0..U+00DE (without the multiplication sign U+00D7). *)
Definition lowerChar (c : ascii) : ascii :=
  let n := nat_of_ascii c in
  if ((65 <=? n) && (n <=? 90))
     || ((192 <=? n) && (n <=? 222) && negb (n =? 215))
  then ascii_of_nat (n + 32) else c.

(** [String.prototype.toUpperCase] on one code unit: a..z and the accented
    small letters U+00E0..U+00FE (without the division sign U+00F7).  The
    three code units whose capital is not one code unit below 256 (U+00B5,
    U+00DF with capital "SS", U+00FF) are left as they are; the texts
    that the properties below put in capitals are chain tags and token
    symbols of the examples, which hold none of them. *)
Definition upperChar (c : ascii) : ascii :=
  let n := nat_of_ascii c in
  if ((97 <=? n) && (n <=? 122))
     || ((224 <=? n) && (n <=? 254) && negb (n =? 247))
  then ascii_of_nat (n - 32) else c.

Fixpoint toLowerCase (s : string) : string :=
  match s with
  | EmptyString => EmptyString
  | String c s' => String (lowerChar c) (toLowerCase s')
  end.

Fixpoint toUpperCase (s : string) : string :=
  match s with
  | EmptyString => EmptyString
  | String c s' => String (upperChar c) (toUpperCase s')
  end.

Fixpoint trimStart (s : string) : string :=
  match s with
  | EmptyString => EmptyString
  | String c s' => if isWhiteSpace c then trimStart s' else s
  end.

Fixpoint trimEnd (s : string) : string :=
  match s with
  | EmptyString => EmptyString
  | String c s' =>
      match trimEnd s' with
      | EmptyString => if isWhiteSpace c then EmptyString
                       else String c EmptyString
      | r => String c r
      end
  end.

Definition trim (s : string) : string := trimEnd (trimStart s).

(** [s.startsWith(p)] *)
Definition startsWith (s p : string) : bool := String.prefix p s.

(** Truthiness of a string value: every string but the empty one. *)
Definition truthy (s : string) : bool := negb (String.eqb s "").

(** [x || d] when [x] is a string, [null] or [undefined]. *)
Definition orElse (x : option string) (d : string) : string :=
  match x with
  | Some s => if truthy s then s else d
  | None => d
  end.

(** All code units of [s] are white space. *)
Fixpoint allWhiteSpace (s : string) : bool :=
  match s with
  | EmptyString => true
  | String c s' => isWhiteSpace c && allWhiteSpace s'
  end.

End JsString.

Import JsString.

(* ------------------------------------------------------------------ *)
(** ** The state-and-exception monad of the asynchronous code           *)
(* ------------------------------------------------------------------ *)

(** A thrown value; the code only ever reads its [message]. *)
Record JsError := mkError { message : string }.

Inductive Completion (A : Type) : Type :=
| Normal (a : A)
| Throw (e : JsError).

Arguments Normal {A} a.
Arguments Throw {A} e.

Definition M (S A : Type) : Type := S -> Completion A * S.

Definition ret {S A} (a : A) : M S A := fun s => (Normal a, s).

Definition bind {S A B} (m : M S A) (k : A -> M S B) : M S B :=
  fun s => match m s with
           | (Normal a, s') => k a s'
           | (Throw e, s') => (Throw e, s')
           end.

Definition throw {S A} (e : JsError) : M S A := fun s => (Throw e, s).

(** [try { m } catch (e) { h e }] *)
Definition try_catch {S A} (m : M S A) (h : JsError -> M S A) : M S A :=
  fun s => match m s with
           | (Normal a, s') => (Normal a, s')
           | (Throw e, s') => h e s'
           end.

Definition get {S} : M S S := fun s => (Normal s, s).
Definition modify {S} (f : S -> S) : M S unit := fun s => (Normal tt, f s).

Declare Scope js_scope.
Delimit Scope js_scope with js.
Notation "x <- m ;; k" := (bind m (fun x => k))
  (at level 61, m at next level, right associativity) : js_scope.
Notation "m ;;; k" := (bind m (fun _ => k))
  (at level 61, right associativity) : js_scope.

(** A computation over a trace that only ever appends to it: its
    completion and the events it adds do not depend on the trace it
    starts from. *)
Definition appends {E A : Type} (m : M (list E) A)
  (c : Completion A) (es : list E) : Prop :=
  forall t, m t = (c, (t ++ es)%list).

Definition uniform {E A : Type} (m : M (list E) A) : Prop :=
  exists c es, appends m c es.

(** A computation that completes normally from every state. *)
Definition total {S A : Type} (m : M S A) : Prop :=
  forall s, exists a s', m s = (Normal a, s').

(* ------------------------------------------------------------------ *)
(** ** JavaScript numbers and the conversions [Number] and [BigInt]     *)
(* ------------------------------------------------------------------ *)

Module JsNum.

Local Open Scope string_scope.
Local Open Scope bool_scope.
Local Open Scope Z_scope.

Inductive JsNumber : Type :=
| NaN
| PosInf
| NegInf
| Fin (q : Q).

Definition isNaN (x : JsNumber) : bool :=
  match x with NaN => true | _ => false end.

(** [x >= y]; every comparison with NaN is false. *)
Definition geb (x y : JsNumber) : bool :=
  match x, y with
  | NaN, _ | _, NaN => false
  | PosInf, _ => true
  | _, NegInf => true
  | NegInf, _ => false
  | _, PosInf => false
  | Fin a, Fin b => Qle_bool b a
  end.

(** [x > y] *)
Definition gtb (x y : JsNumber) : bool :=
  match x, y with
  | NaN, _ | _, NaN => false
  | PosInf, PosInf => false
  | PosInf, _ => true
  | NegInf, _ => false
  | Fin _, NegInf => true
  | Fin _, PosInf => false
  | Fin a, Fin b => negb (Qle_bool a b)
  end.

Definition ofZ (z : Z) : JsNumber := Fin (inject_Z z).

(** Value of a digit in the given radix. *)
Definition digitValue (radix : Z) (c : ascii) : option Z :=
  let n := Z.of_nat (nat_of_ascii c) in
  let v := if (48 <=? n) && (n <=? 57) then n - 48
           else if (97 <=? n) && (n <=? 102) then n - 87
           else if (65 <=? n) && (n <=? 70) then n - 55
           else radix in
  if (v <? radix) then Some v else None.

(** The longest prefix of digits, read in [radix] (most significant first),
    with the number of digits read and the rest of the text. *)
Fixpoint readDigits (radix : Z) (s : string) (acc : Z) (count : nat)
  : Z * nat * string :=
  match s with
  | EmptyString => (acc, count, s)
  | String c s' =>
      match digitValue radix c with
      | Some v => readDigits radix s' (acc * radix + v) (S count)
      | None => (acc, count, s)
      end
  end.

(** A text made of one or more digits in [radix] and nothing else. *)
Definition allDigits (radix : Z) (s : string) : option Z :=
  match readDigits radix s 0 0 with
  | (v, S _, EmptyString) => Some v
  | _ => None
  end.

(** [0x..], [0o..], [0b..] (prefix letter in either case), unsigned. *)
Definition nonDecimalIntegerLiteral (s : string) : option Z :=
  match s with
  | String "0" (String c r) =>
      if (c =? "x")%char || (c =? "X")%char then allDigits 16 r
      else if (c =? "o")%char || (c =? "O")%char then allDigits 8 r
      else if (c =? "b")%char || (c =? "B")%char then allDigits 2 r
      else None
  | _ => None
  end.

(** An optional sign: its value and the text after it. *)
Definition readSign (s : string) : Z * string :=
  match s with
  | String "+" r => (1, r)
  | String "-" r => ((-1), r)
  | _ => (1, s)
  end.

(** The exponent part that may follow a mantissa: nothing, or [e] or [E],
    an optional sign and one or more digits, up to the end of the text. *)
Definition exponentPart (s : string) : option Z :=
  match s with
  | EmptyString => Some 0
  | String c r =>
      if (c =? "e")%char || (c =? "E")%char then
        let (sg, r') := readSign r in
        match allDigits 10 r' with
        | Some v => Some (sg * v)
        | None => None
        end
      else None
  end.

(** [StrUnsignedDecimalLiteral] other than [Infinity]: digits, an optional
    fraction and an optional exponent, with a digit in the integer part or
    in the fraction. *)
Definition unsignedDecimalLiteral (s : string) : option Q :=
  match readDigits 10 s 0 0 with
  | (ip, ni, rest) =>
      let '(fp, nf, rest') :=
        match rest with
        | String "." r => readDigits 10 r 0 0
        | _ => (0, 0%nat, rest)
        end in
      if (ni + nf =? 0)%nat then None
      else
        match exponentPart rest' with
        | Some e =>
            Some ((inject_Z ip + inject_Z fp / inject_Z (10 ^ Z.of_nat nf))
                  * Qpower (inject_Z 10) e)%Q
        | None => None
        end
  end.

(** The integer nearest to [q], and the even one of the two when [q] is
    half way between them. *)
Definition roundHalfEven (q : Q) : Z :=
  let f := Qfloor q in
  match Qcompare (q - inject_Z f) (1 # 2) with
  | Lt => f
  | Gt => f + 1
  | Eq => if Z.even f then f else f + 1
  end.

(** [q * 2^e], for an exponent of either sign. *)
Definition scale (q : Q) (e : Z) : Q :=
  (q * inject_Z (2 ^ Z.max e 0) / inject_Z (2 ^ Z.max (- e) 0))%Q.

(** For [a > 0], the [k] with [2^k <= a < 2^(k+1)]: the difference of the
    binary lengths of numerator and denominator, or one less. *)
Definition floorLog2 (a : Q) : Z :=
  let k := Z.log2 (Qnum a) - Z.log2 (Zpos (Qden a)) in
  if Qle_bool 1 (scale a (- k)) then k else k - 1.

(** The Number value for a real [x]: the value of the binary64 format that
    is nearest to [x], the one with the even mantissa when [x] is half way
    between two, and an infinity when that value is 2^1024 or more in
    magnitude.  The format has a mantissa of 53 bits and no exponent of the
    last bit below -1074.  Its two zeros are one here. *)
Definition binary64 (x : Q) : JsNumber :=
  let x := Qred x in
  let a := Qabs x in
  if Qeq_bool a 0 then Fin 0
  else
    let e := Z.max (floorLog2 a - 52) (-1074) in
    let m := roundHalfEven (scale a (- e)) in
    let v := scale (inject_Z m) e in
    if Qle_bool (inject_Z (2 ^ 1024)) v
    then (if Qle_bool 0 x then PosInf else NegInf)
    else Fin (Qred (if Qle_bool 0 x then v else - v)).

Arguments binary64 x : simpl never.

(** [StringToNumber] on the trimmed text: the mathematical value of the
    literal, rounded. *)
Definition strNumericLiteral (s : string) : JsNumber :=
  match nonDecimalIntegerLiteral s with
  | Some v => binary64 (inject_Z v)
  | None =>
      let (sg, r) := readSign s in
      if (r =? "Infinity")%string then (if (sg <? 0) then NegInf else PosInf)
      else match unsignedDecimalLiteral r with
           | Some q => binary64 (inject_Z sg * q)
           | None => NaN
           end
  end.

(** [Number(s)] for a string [s]. *)
Definition Number (s : string) : JsNumber :=
  let t := trim s in
  if (t =? "")%string then ofZ 0 else strNumericLiteral t.

(** [BigInt(s)] for a string [s]: [None] stands for the SyntaxError. *)
Definition StringToBigInt (s : string) : option Z :=
  let t := trim s in
  if (t =? "")%string then Some 0
  else match nonDecimalIntegerLiteral t with
       | Some v => Some v
       | None =>
           let (sg, r) := readSign t in
           match allDigits 10 r with
           | Some v => Some (sg * v)
           | None => None
           end
       end.

(** Decimal text of an integer, as in a template literal. *)
Definition ZToString (z : Z) : string :=
  DecimalString.NilZero.string_of_int (Z.to_int z).

End JsNum.

Import JsNum.

(* ------------------------------------------------------------------ *)
(** ** The protocol index: records and views                            *)
(* ------------------------------------------------------------------ *)

(** [DefiLlamaProtocol]: a catalog record as the remote endpoint delivers
    it.  The TypeScript type names [id], [name] and [symbol] and leaves the
    rest to an index signature; the fields below are the ones the service
    reads.  [None] is [null] or [undefined].  [name] is optional as well:
    the resolver guards every read of it with [|| ""]. *)
Module Protocol.
Record t : Type := mk {
  id : string;
  name : option string;
  symbol : option string;
  slug : option string;
  url : option string;
  logo : option string;
  category : option string;
  chains : option (list string);     (* [None]: not an array *)
  address : option string;
  gecko_id : option string;
  cmcId : option string;
  twitter : option string;
  tvl : option Q;
  change_1h : option Q;
  change_1d : option Q;
  change_7d : option Q;
  chainTvls : option (list (string * Q))
}.
End Protocol.

(** The object built by [shapeProtocol]. *)
Module Shaped.
Record t : Type := mk {
  id : string;
  slug : option string;
  name : option string;
  symbol : option string;
  url : option string;
  logo : option string;
  category : option string;
  chains : list string;
  address : option string;
  gecko_id : option string;
  cmcId : option string;
  twitter : option string;
  tvl : option Q;
  tvl_change_1h : option Q;
  tvl_change_1d : option Q;
  tvl_change_7d : option Q;
  chainTvls : option (list (string * Q))
}.
End Shaped.

(** [Array.from(new Set(xs))]: the first occurrence of each value, in
    order. *)
Fixpoint fromSet (seen xs : list string) : list string :=
  match xs with
  | [] => []
  | x :: xs' =>
      if existsb (String.eqb x) seen then fromSet seen xs'
      else x :: fromSet (x :: seen) xs'
  end.

Definition shapeProtocol (p : Protocol.t) : Shaped.t :=
  let chains := match Protocol.chains p with
                | Some l => fromSet [] l
                | None => []
                end in
  {| Shaped.id := Protocol.id p;
     Shaped.slug := Protocol.slug p;
     Shaped.name := Protocol.name p;
     Shaped.symbol := Protocol.symbol p;
     Shaped.url := Protocol.url p;
     Shaped.logo := Protocol.logo p;
     Shaped.category := Protocol.category p;
     Shaped.chains := chains;
     Shaped.address := Protocol.address p;
     Shaped.gecko_id := Protocol.gecko_id p;
     Shaped.cmcId := Protocol.cmcId p;
     Shaped.twitter := Protocol.twitter p;
     Shaped.tvl := Protocol.tvl p;
     Shaped.tvl_change_1h := Protocol.change_1h p;
     Shaped.tvl_change_1d := Protocol.change_1d p;
     Shaped.tvl_change_7d := Protocol.change_7d p;
     Shaped.chainTvls := Protocol.chainTvls p |}.

(** One element of the array returned by [getProtocolsByNames]. *)
Record ResolutionResult : Type := mkResult {
  id : string;
  success : bool;
  data : option Shaped.t;
  error : option string
}.

(* ------------------------------------------------------------------ *)
(** ** The resolver: the body of the loop of [getProtocolsByNames]      *)
(* ------------------------------------------------------------------ *)

Module Resolver.

Local Open Scope string_scope.
Local Open Scope bool_scope.

(** [for (const p of cache) { if (test p) { picked = p; break; } }] *)
Fixpoint scan (test : Protocol.t -> bool) (cache : list Protocol.t)
  : option Protocol.t :=
  match cache with
  | [] => None
  | p :: rest => if test p then Some p else scan test rest
  end.

(** [if (!picked) { <loop> }] *)
Definition unlessPicked (picked : option Protocol.t)
  (loop : option Protocol.t) : option Protocol.t :=
  match picked with
  | Some p => Some p
  | None => loop
  end.

(** The conditions of the five loops (lines 53 to 57). *)
Definition nameIs (qLower : string) (p : Protocol.t) : bool :=
  let n := toLowerCase (orElse (Protocol.name p) "") in
  n =? qLower.

Definition symbolIs (qLower : string) (p : Protocol.t) : bool :=
  let s := toLowerCase (orElse (Protocol.symbol p) "") in
  truthy s && (s =? qLower).

(** [(p as any).slug ? String(slug).toLowerCase() : ""] *)
Definition slugLower (p : Protocol.t) : string :=
  match Protocol.slug p with
  | Some s => if truthy s then toLowerCase s else ""
  | None => ""
  end.

Definition slugIs (qLower : string) (p : Protocol.t) : bool :=
  let slug := slugLower p in
  truthy slug && (slug =? qLower).

Definition nameStarts (qLower : string) (p : Protocol.t) : bool :=
  let n := toLowerCase (orElse (Protocol.name p) "") in
  startsWith n qLower.

Definition slugStarts (qLower : string) (p : Protocol.t) : bool :=
  let slug := slugLower p in
  startsWith slug qLower.

(** Lines 51 to 57: the value of [picked] after the five passes. *)
Definition pick (cache : list Protocol.t) (qLower : string)
  : option Protocol.t :=
  let picked := scan (nameIs qLower) cache in
  let picked := unlessPicked picked (scan (symbolIs qLower) cache) in
  let picked := unlessPicked picked (scan (slugIs qLower) cache) in
  let picked := unlessPicked picked (scan (nameStarts qLower) cache) in
  let picked := unlessPicked picked (scan (slugStarts qLower) cache) in
  picked.

(** One iteration of the loop over the inputs (lines 43 to 63): the
    element pushed on [results] for the input [raw]. *)
Definition resolveOne (cache : list Protocol.t) (raw : string)
  : ResolutionResult :=
  let q := trim (orElse (Some raw) "") in
  if negb (truthy q) then
    {| id := q; success := false; data := None;
       error := Some "Empty protocol name" |}
  else
    let qLower := toLowerCase q in
    match pick cache qLower with
    | Some picked =>
        {| id := q; success := true; data := Some (shapeProtocol picked);
           error := None |}
    | None =>
        {| id := q; success := false; data := None;
           error := Some ("No protocol match for: " ++ q) |}
    end.

(** The loop itself: [results] starts empty and every iteration pushes
    one element at its end. *)
Definition resolveAll (cache : list Protocol.t) (inputs : list string)
  : list ResolutionResult :=
  fold_left (fun results raw => (results ++ [resolveOne cache raw])%list)
            inputs [].

End Resolver.

(* ------------------------------------------------------------------ *)
(** ** [DefiLlamaService]: the cached index and its refresh             *)
(* ------------------------------------------------------------------ *)

Module DefiLlama.

Local Open Scope string_scope.
Local Open Scope bool_scope.
Local Open Scope Z_scope.
Local Open Scope js_scope.

(** What [res.json()] gives for the body of a response. *)
Inductive Body : Type :=
| BodyInvalid (msg : string)            (* [res.json()] rejects *)
| BodyArray (list : list Protocol.t)
| BodyOther.                            (* valid JSON, not an array *)

Record Response : Type := mkResponse {
  ok : bool;
  status : Z;
  statusText : string;
  body : Body
}.

(** How one call of [fetch] settles.  A request still pending when the
    15 s timer fires is aborted, which rejects the promise as well. *)
Inductive FetchOutcome : Type :=
| Rejects (msg : string)
| Responds (res : Response).

(** The outside world: the [n]-th call of [fetch] settles as [net n] after
    [elapsed n] milliseconds, and the [n]-th call of [Math.random] gives
    [random n]. *)
Record Env : Type := mkEnv {
  net : nat -> FetchOutcome;
  elapsed : nat -> Z;
  random : nat -> Q
}.

(** The four messages that [loadIndex] logs, with the values they
    interpolate. *)
Inductive LogEntry : Type :=
| DebugLoading (attempt maxAttempts : Z) (url : string)
| InfoLoaded (count : nat) (ttlMs : JsNumber)
| ErrorFailed (maxAttempts : Z) (msg : string)
| WarnRetry (attempt : Z) (msg : string) (backoff : Z).

(** The fields of the service object, the clock, and what has been drawn
    from the outside world so far. *)
Record World : Type := mkWorld {
  cache : list Protocol.t;
  cacheTimestampMs : Z;
  ttlMs : JsNumber;
  clock : Z;
  fetched : nat;
  drawn : nat;
  logs : list LogEntry
}.

Definition setCache (l : list Protocol.t) : M World unit :=
  modify (fun w => mkWorld l (cacheTimestampMs w) (ttlMs w) (clock w)
                           (fetched w) (drawn w) (logs w)).

Definition setCacheTimestampMs (t : Z) : M World unit :=
  modify (fun w => mkWorld (cache w) t (ttlMs w) (clock w)
                           (fetched w) (drawn w) (logs w)).

Definition setTtlMs (t : JsNumber) : M World unit :=
  modify (fun w => mkWorld (cache w) (cacheTimestampMs w) t (clock w)
                           (fetched w) (drawn w) (logs w)).

Definition log (e : LogEntry) : M World unit :=
  modify (fun w => mkWorld (cache w) (cacheTimestampMs w) (ttlMs w) (clock w)
                           (fetched w) (drawn w) (logs w ++ [e])).

(** [Date.now()] *)
Definition DateNow : M World Z := fun w => (Normal (clock w), w).

(** [await new Promise((r) => setTimeout(r, ms))] *)
Definition sleep (ms : Z) : M World unit :=
  modify (fun w => mkWorld (cache w) (cacheTimestampMs w) (ttlMs w)
                           (clock w + ms) (fetched w) (drawn w) (logs w)).

(** [Math.random()] *)
Definition MathRandom (env : Env) : M World Q :=
  fun w => (Normal (random env (drawn w)),
            mkWorld (cache w) (cacheTimestampMs w) (ttlMs w) (clock w)
                    (fetched w) (S (drawn w)) (logs w)).

(** [await fetch(url, ...)] *)
Definition fetch (env : Env) (url : string) : M World Response :=
  fun w =>
    let n := fetched w in
    let w' := mkWorld (cache w) (cacheTimestampMs w) (ttlMs w)
                      (clock w + elapsed env n) (S n) (drawn w) (logs w) in
    match net env n with
    | Rejects msg => (Throw (mkError msg), w')
    | Responds res => (Normal res, w')
    end.

(** [(await res.json()) as DefiLlamaProtocol[]], then
    [Array.isArray(list) ? list : []] *)
Definition json (res : Response) : M World (list Protocol.t) :=
  match body res with
  | BodyInvalid msg => throw (mkError msg)
  | BodyArray l => ret l
  | BodyOther => ret []
  end.

Definition url : string := "https://api.llama.fi/protocols".
Definition maxAttempts : Z := 5.
Definition baseDelayMs : Z := 500.
Definition defaultTtlMs : JsNumber := ofZ 300000.

(** How an iteration of the retry loop ends. *)
Inductive Control : Type := Continue | Break | Return.

(** One iteration of the [for] loop of [loadIndex] (lines 81 to 101). *)
Definition attemptOnce (env : Env) (attempt : Z) : M World Control :=
  try_catch
    (log (DebugLoading attempt maxAttempts url) ;;;
     res <- fetch env url ;;
     (if negb (ok res)
      then throw (mkError ("Failed " ++ ZToString (status res) ++ " "
                                     ++ statusText res))
      else ret tt) ;;;
     list <- json res ;;
     setCache list ;;;
     now <- DateNow ;;
     setCacheTimestampMs now ;;;
     w <- get ;;
     log (InfoLoaded (List.length (cache w)) (ttlMs w)) ;;;
     ret Return)
    (fun e =>
       let isLast := attempt =? maxAttempts in
       let msg := message e in
       if isLast then
         log (ErrorFailed maxAttempts msg) ;;; ret Break
       else
         r <- MathRandom env ;;
         let backoff := baseDelayMs * 2 ^ (attempt - 1)
                        + Qfloor (r * inject_Z 200)%Q in
         log (WarnRetry attempt msg backoff) ;;;
         sleep backoff ;;;
         ret Continue).

(** The values of [attempt] for which the loop condition
    [attempt <= maxAttempts] holds, in order. *)
Definition attempts : list Z :=
  List.map Z.of_nat (List.seq 1 (Z.to_nat maxAttempts)).

Fixpoint retryLoop (env : Env) (todo : list Z) : M World unit :=
  match todo with
  | [] => ret tt
  | attempt :: rest =>
      c <- attemptOnce env attempt ;;
      match c with
      | Continue => retryLoop env rest
      | Break | Return => ret tt
      end
  end.

Definition loadIndex (env : Env) : M World unit := retryLoop env attempts.

(** The condition of [ensureFresh] (line 71). *)
Definition stale (now : Z) (w : World) : bool :=
  (List.length (cache w) =? 0)%nat
  || gtb (ofZ (now - cacheTimestampMs w)) (ttlMs w).

Definition ensureFresh (env : Env) : M World unit :=
  now <- DateNow ;;
  w <- get ;;
  if stale now w then loadIndex env else ret tt.

(** The service object as the constructor leaves it, at clock [t0]. *)
Definition constructed (t0 : Z) : World :=
  mkWorld [] 0 defaultTtlMs t0 0%nat 0%nat [].

(** [initialize]: [ttlSetting] is the value of the setting
    DEFILLAMA_PROTOCOLS_TTL_MS, [None] when it is not set. *)
Definition applyTtlSetting (ttlSetting : option string) : M World unit :=
  match ttlSetting with
  | Some s =>
      if truthy s then
        let parsed := Number s in
        if negb (isNaN parsed) && geb parsed (ofZ 0)
        then setTtlMs parsed else ret tt
      else ret tt
  | None => ret tt
  end.

Definition initialize (env : Env) (ttlSetting : option string)
  : M World unit :=
  applyTtlSetting ttlSetting ;;;
  loadIndex env.

(** [getProtocolsByNames]; [names] is an array, so [inputs] is [names]. *)
Definition getProtocolsByNames (env : Env) (names : list string)
  : M World (list ResolutionResult) :=
  ensureFresh env ;;;
  w <- get ;;
  let inputs := names in
  ret (Resolver.resolveAll (cache w) inputs).

End DefiLlama.

(* ------------------------------------------------------------------ *)
(** ** The wallet flow: chains, token balances, the outside world       *)
(* ------------------------------------------------------------------ *)

Inductive ChainNetwork : Type := base | ethereum | polygon.

Definition ChainNetwork_eqb (a b : ChainNetwork) : bool :=
  match a, b with
  | base, base | ethereum, ethereum | polygon, polygon => true
  | _, _ => false
  end.

(** The chain as the string it is in the source. *)
Definition chainTag (c : ChainNetwork) : string :=
  match c with
  | base => "base"
  | ethereum => "ethereum"
  | polygon => "polygon"
  end.

Module NativeToken.
Record t : Type := mk {
  symbol : string;
  name : string;
  coingeckoId : string
}.
End NativeToken.

Module ChainConfig.
Record t : Type := mk {
  name : string;
  rpcUrl : string;
  nativeToken : NativeToken.t;
  coingeckoPlatform : string
}.
End ChainConfig.

Definition CHAIN_CONFIGS (c : ChainNetwork) : ChainConfig.t :=
  match c with
  | base =>
      ChainConfig.mk "Base" "BASE_RPC_URL"
        (NativeToken.mk "ETH" "Ethereum" "ethereum") "base"
  | ethereum =>
      ChainConfig.mk "Ethereum" "ETHEREUM_RPC_URL"
        (NativeToken.mk "ETH" "Ethereum" "ethereum") "ethereum"
  | polygon =>
      ChainConfig.mk "Polygon" "POLYGON_RPC_URL"
        (NativeToken.mk "MATIC" "Polygon" "matic-network") "polygon-pos"
  end.

Module TokenBalance.
Record t : Type := mk {
  symbol : string;
  name : string;
  balance : string;
  usdValue : Q;
  contractAddress : option string;
  chain : ChainNetwork;
  decimals : Z
}.
End TokenBalance.

(** The object returned by [getTokenInfo]. *)
Module TokenInfo.
Record t : Type := mk {
  symbol : string;
  name : string;
  decimals : Z;
  price : Q
}.
End TokenInfo.

Module Outside.

(** A promise that has settled. *)
Inductive Settled (A : Type) : Type :=
| Fulfilled (a : A)
| Rejected (msg : string).
Arguments Fulfilled {A} a.
Arguments Rejected {A} msg.

(** An HTTP response; [body] is what [response.json()] settles to. *)
Record Response (B : Type) : Type := mkResponse {
  ok : bool;
  status : Z;
  body : Settled B
}.

(** Body of [alchemy_getTokenBalances]: whether [error] is set, and
    [result.tokenBalances] as (contractAddress, tokenBalance) pairs; a
    [tokenBalance] that is [null] is [None]. *)
Record TokensJson : Type := mkTokensJson {
  hasError : bool;
  tokenBalances : option (list (string * option string))
}.

(** Body of [eth_getBalance]: [result]. *)
Record NativeJson : Type := mkNativeJson {
  result : option string
}.

(** Body of the contract lookup of the pricing API: [symbol], [name],
    [detail_platforms[platform].decimal_place] and
    [market_data.current_price.usd]. *)
Record CoinJson : Type := mkCoinJson {
  coinSymbol : option string;
  coinName : option string;
  decimal_place : option Z;
  usd : option Q
}.

(** Everything the wallet flow reads from outside the process.  A request
    is answered the same way each time it is made during one call of the
    handler, so the chains do not influence one another. *)
Record Env : Type := mkEnv {
  processEnv : string -> option string;
  (* POST rpcUrl, method alchemy_getTokenBalances, params [address] *)
  getTokenBalances : string -> string -> Settled (Response TokensJson);
  (* POST rpcUrl, method eth_getBalance, params [address, 'latest'] *)
  getBalance : string -> string -> Settled (Response NativeJson);
  (* GET simple/price?ids=<id>: [body[id]?.usd] *)
  simplePrice : string -> Settled (Response (option Q));
  (* GET coins/<platform>/contract/<address>; a request that outlives the
     10 s timer is aborted and counts as rejected *)
  coinByContract : string -> string -> Settled (Response CoinJson);
  (* readContract for symbol, name and decimals *)
  readSymbol : ChainNetwork -> string -> Settled string;
  readName : ChainNetwork -> string -> Settled string;
  readDecimals : ChainNetwork -> string -> Settled Z
}.

(** What one call of the handler does that can be seen from outside:
    requests, in order, and log lines. *)
Inductive Event : Type :=
| ReqTokenBalances (rpcUrl address : string)
| ReqBalance (rpcUrl address : string)
| ReqSimplePrice (coingeckoId : string)
| ReqCoinByContract (platform contractAddress : string)
| ReqReadContract (chain : ChainNetwork) (contractAddress : string)
| LogWarn (msg : string)
| LogError (msg : string).

Definition Trace : Type := list Event.

End Outside.

(* ------------------------------------------------------------------ *)
(** ** The wallet flow: [getTokenInfo], [fetchChainBalances], handler   *)
(* ------------------------------------------------------------------ *)

Module Wallet.

Import Outside.

Local Open Scope string_scope.
Local Open Scope bool_scope.
Local Open Scope js_scope.

Definition emit (e : Event) : M Trace unit :=
  modify (fun t => (t ++ [e])%list).

(** [await p] for a promise of the outside world. *)
Definition await {A} (p : Settled A) : M Trace A :=
  match p with
  | Fulfilled a => ret a
  | Rejected msg => throw (mkError msg)
  end.

(** Truthiness of a value that is a string, [null] or [undefined]. *)
Definition truthyOpt (x : option string) : bool :=
  match x with
  | Some s => truthy s
  | None => false
  end.

(** [x || d] for numbers: zero and a missing value give [d]. *)
Definition numberOr (x : option Q) (d : Q) : Q :=
  match x with
  | Some q => if Qeq_bool q 0 then d else q
  | None => d
  end.

Definition integerOr (x : option Z) (d : Z) : Z :=
  match x with
  | Some z => if (z =? 0)%Z then d else z
  | None => d
  end.

(** [BigInt(x)]: a SyntaxError for a text that is not an integer literal,
    a TypeError for [null]. *)
Definition BigInt (x : option string) : M Trace Z :=
  match x with
  | Some s =>
      match StringToBigInt s with
      | Some z => ret z
      | None => throw (mkError ("Cannot convert " ++ s ++ " to a BigInt"))
      end
  | None => throw (mkError "Cannot convert null to a BigInt")
  end.

(** [Number(formatUnits(value, decimals))], for [decimals >= 0]: the
    amount [value / 10^decimals], as the exact rational; the code has
    the binary64 number next to it. *)
Definition unitsAmount (value decimals : Z) : Q :=
  (inject_Z value / inject_Z (10 ^ decimals))%Q.

Fixpoint zeros (n : nat) : string :=
  match n with
  | O => ""
  | S n' => String "0" (zeros n')
  end.

(** [x.toFixed(digits)], below 10^21: round half up in magnitude.  The
    argument is the exact amount, where the code has a binary64 number
    and rounds that number's own value; the two texts can differ in the
    last digit when the amount is within a rounding error of a tie. *)
Definition toFixed (digits : nat) (x : Q) : string :=
  let negative := negb (Qle_bool 0 x) in
  let scaled := (Qabs x * inject_Z (10 ^ Z.of_nat digits) + (1 # 2))%Q in
  let n := ZToString (Qfloor scaled) in
  let m := zeros (S digits - String.length n) ++ n in
  let k := (String.length m - digits)%nat in
  (if negative then "-" else "")
  ++ substring 0 k m
  ++ (if (digits =? 0)%nat then "" else "." ++ substring k digits m).

(** Lines 377 to 460. *)
Definition getTokenInfo (env : Env) (contractAddress : string)
  (chain : ChainNetwork) : M Trace (option TokenInfo.t) :=
  let apiKey := processEnv env "COINGECKO_API_KEY" in
  (* Try CoinGecko first if API key is available; [Some info] stands for
     [return info] *)
  returned <-
    (if truthyOpt apiKey then
       try_catch
         (let platform := ChainConfig.coingeckoPlatform (CHAIN_CONFIGS chain) in
          emit (ReqCoinByContract platform contractAddress) ;;;
          response <- await (coinByContract env platform contractAddress) ;;
          if ok response then
            data <- await (body response) ;;
            ret (Some (TokenInfo.mk
                         (toUpperCase (orElse (coinSymbol data) ""))
                         (orElse (coinName data) "Unknown Token")
                         (integerOr (decimal_place data) 18)
                         (numberOr (usd data) 0)))
          else ret None)
         (fun err =>
            emit (LogWarn ("CoinGecko error for " ++ contractAddress ++ ": "
                           ++ message err)) ;;;
            ret None)
     else ret None) ;;
  match returned with
  | Some info => ret (Some info)
  | None =>
      (* Fallback: on-chain metadata.  [Promise.all] of the three reads
         rejects when one of them does; the message kept here is that of
         the first in the array, and the code only logs it. *)
      try_catch
        (emit (ReqReadContract chain contractAddress) ;;;
         symbol <- await (readSymbol env chain contractAddress) ;;
         name <- await (readName env chain contractAddress) ;;
         decimals <- await (readDecimals env chain contractAddress) ;;
         ret (Some (TokenInfo.mk
                      (toUpperCase (orElse (Some symbol) "UNKNOWN"))
                      (orElse (Some name) "Unknown Token")
                      (integerOr (Some decimals) 18)
                      0)))
        (fun err =>
           emit (LogWarn ("Failed to fetch on-chain metadata for "
                          ++ contractAddress ++ ": " ++ message err)) ;;;
           ret None)
  end.

(** One iteration of the loop over the ERC20 tokens (lines 548 to 571):
    [balances] before the iteration, [balances] after it. *)
Definition processToken (env : Env) (chain : ChainNetwork)
  (balances : list TokenBalance.t) (entry : string * option string)
  : M Trace (list TokenBalance.t) :=
  let (contractAddress, tokenBalance) := entry in
  try_catch
    (value <- BigInt tokenBalance ;;
     if (value =? 0)%Z then ret balances            (* continue *)
     else
       info <- getTokenInfo env contractAddress chain ;;
       match info with
       | Some info =>
           value <- BigInt tokenBalance ;;
           let amount := unitsAmount value (TokenInfo.decimals info) in
           let usdValue := (amount * TokenInfo.price info)%Q in
           ret (balances ++
                [TokenBalance.mk (TokenInfo.symbol info) (TokenInfo.name info)
                   (toFixed 6 amount) usdValue (Some contractAddress) chain
                   (TokenInfo.decimals info)])%list
       | None => ret balances
       end)
    (fun err =>
       emit (LogWarn ("Skipping token " ++ contractAddress ++ " on "
                      ++ chainTag chain ++ ":")) ;;;
       ret balances).

Fixpoint processTokens (env : Env) (chain : ChainNetwork)
  (balances : list TokenBalance.t) (entries : list (string * option string))
  : M Trace (list TokenBalance.t) :=
  match entries with
  | [] => ret balances
  | entry :: rest =>
      balances' <- processToken env chain balances entry ;;
      processTokens env chain balances' rest
  end.

(** Lines 516 to 545: the native balance, when it is positive. *)
Definition nativeEntry (env : Env) (chain : ChainNetwork)
  (nativeBalance : Z) : M Trace (list TokenBalance.t) :=
  let chainConfig := CHAIN_CONFIGS chain in
  let native := ChainConfig.nativeToken chainConfig in
  if (nativeBalance >? 0)%Z then
    let amount := unitsAmount nativeBalance 18 in
    price <-
      try_catch
        (emit (ReqSimplePrice (NativeToken.coingeckoId native)) ;;;
         priceResponse <- await (simplePrice env (NativeToken.coingeckoId native)) ;;
         priceData <- await (body priceResponse) ;;
         ret (numberOr priceData 0))
        (fun err =>
           emit (LogError ("Failed to fetch " ++ NativeToken.symbol native
                           ++ " price: " ++ message err)) ;;;
           ret 0%Q) ;;
    ret [TokenBalance.mk (NativeToken.symbol native) (NativeToken.name native)
           (toFixed 6 amount) (amount * price)%Q None chain 18]
  else ret [].

(** Lines 463 to 578. *)
Definition fetchChainBalances (env : Env) (address : string)
  (chain : ChainNetwork) : M Trace (list TokenBalance.t) :=
  let chainConfig := CHAIN_CONFIGS chain in
  let rpcUrlKey := ChainConfig.rpcUrl chainConfig in
  let rpcUrl := processEnv env rpcUrlKey in
  if negb (truthyOpt rpcUrl) then
    emit (LogWarn (ChainConfig.rpcUrl chainConfig ++ " not configured, skipping "
                   ++ chainTag chain)) ;;;
    ret []
  else
    let rpcUrl := orElse rpcUrl "" in
    try_catch
      (emit (ReqTokenBalances rpcUrl address) ;;;
       tokensResponse <- await (getTokenBalances env rpcUrl address) ;;
       if negb (ok tokensResponse) then
         emit (LogWarn (chainTag chain ++ " chain returned "
                        ++ ZToString (status tokensResponse))) ;;;
         ret []
       else
         tokensJson <- await (body tokensResponse) ;;
         if hasError tokensJson then
           emit (LogWarn (chainTag chain ++ " RPC error:")) ;;;
           ret []
         else
           let tokenBalances :=
             match tokenBalances tokensJson with
             | Some l => l
             | None => []
             end in
           emit (ReqBalance rpcUrl address) ;;;
           nativeResponse <- await (getBalance env rpcUrl address) ;;
           nativeJson <- await (body nativeResponse) ;;
           nativeBalance <- BigInt (Some (orElse (result nativeJson) "0")) ;;
           balances <- nativeEntry env chain nativeBalance ;;
           balances <- processTokens env chain balances tokenBalances ;;
           ret balances)
      (fun err =>
         emit (LogError ("Failed to fetch balances for " ++ chainTag chain
                         ++ ":")) ;;;
         ret []).

End Wallet.

(* ------------------------------------------------------------------ *)
(** ** The handler of [cdpWalletInfo]                                   *)
(* ------------------------------------------------------------------ *)

Module Portfolio.

Import Outside.

Local Open Scope string_scope.
Local Open Scope bool_scope.
Local Open Scope js_scope.

(** [Array.prototype.sort(compare)].  The language fixes the result for a
    consistent comparator: the elements in an order in which [compare]
    is never positive from left to right, elements that [compare] equal
    keeping their relative order.  It is computed here by insertion from
    the right: [x], which stood before every element of [sorted], moves
    behind the elements that [compare] puts before it. *)
Section Sort.
Context {A : Type} (compare : A -> A -> Q).

Fixpoint insert (x : A) (sorted : list A) : list A :=
  match sorted with
  | [] => [x]
  | y :: rest =>
      if Qle_bool (compare x y) 0 then x :: sorted
      else y :: insert x rest
  end.

Definition sort (l : list A) : list A := fold_right insert [] l.
End Sort.

(** [(a, b) => b.usdValue - a.usdValue] *)
Definition byUsdValueDescending (a b : TokenBalance.t) : Q :=
  (TokenBalance.usdValue b - TokenBalance.usdValue a)%Q.

(** [byChain]: an object used as a map from chain to tokens.  Its keys are
    strings that are not array indices, so [Object.entries] lists them in
    the order of their creation; the embedding is an association list in
    that order. *)
Definition ByChain : Type := list (ChainNetwork * list TokenBalance.t).

Fixpoint hasKey (k : ChainNetwork) (m : ByChain) : bool :=
  match m with
  | [] => false
  | (k', _) :: m' => ChainNetwork_eqb k k' || hasKey k m'
  end.

(** [byChain[k].push(token)] for a key that exists *)
Fixpoint pushAt (k : ChainNetwork) (token : TokenBalance.t) (m : ByChain)
  : ByChain :=
  match m with
  | [] => []
  | (k', l) :: m' =>
      if ChainNetwork_eqb k k' then (k', (l ++ [token])%list) :: m'
      else (k', l) :: pushAt k token m'
  end.

(** The body of [allBalances.forEach] (lines 655 to 658). *)
Definition groupStep (byChain : ByChain) (token : TokenBalance.t) : ByChain :=
  let k := TokenBalance.chain token in
  let byChain := if negb (hasKey k byChain)
                 then (byChain ++ [(k, [])])%list else byChain in
  pushAt k token byChain.

Definition groupByChain (allBalances : list TokenBalance.t) : ByChain :=
  fold_left groupStep allBalances [].

(** An element of [data.tokens]. *)
Module TokenView.
Record t : Type := mk {
  symbol : string;
  name : string;
  balance : string;
  usdValue : Q;
  chain : ChainNetwork;
  contractAddress : option string
}.
End TokenView.

Definition viewOf (token : TokenBalance.t) : TokenView.t :=
  TokenView.mk (TokenBalance.symbol token) (TokenBalance.name token)
    (TokenBalance.balance token) (TokenBalance.usdValue token)
    (TokenBalance.chain token) (TokenBalance.contractAddress token).

(** [data] of the result: the portfolio, or the fallback of the [catch]. *)
Record PortfolioData : Type := mkData {
  actionName : string;
  address : string;
  totalBalance : Q;
  totalBalanceUsd : string;
  tokenCount : nat;
  tokens : list TokenView.t
}.

Inductive Data : Type :=
| Snapshot (d : PortfolioData)
| Fallback (address : string) (error : string).

(** [text] by its parts: the shortened address and the total are in the
    heading; below it either the sentence "No tokens found in your
    wallet." or one section per entry of [byChain]. *)
Inductive TextBody : Type :=
| NoTokensFound
| Assets (count : nat) (sections : list (string * list TokenBalance.t)).

Inductive Text : Type :=
| PortfolioText (address : string) (totalBalance : string) (body : TextBody)
| FallbackText (address : string).

Record ActionResult : Type := mkActionResult {
  text : Text;
  success : bool;
  data : Data
}.

Definition chains : list ChainNetwork := [base; ethereum; polygon].

(** [Promise.all(chains.map(chain => fetchChainBalances(address, chain)))]:
    the results in the order of [chains]; it rejects when one of them
    does.  The tasks run one after the other here; as the outside world
    answers by request, the order in which they run only shows in the
    order of the events of the trace. *)
Fixpoint PromiseAll {A} (tasks : list (M Trace A)) : M Trace (list A) :=
  match tasks with
  | [] => ret []
  | task :: rest =>
      a <- task ;;
      l <- PromiseAll rest ;;
      ret (a :: l)
  end.

(** Lines 644 to 700, from the per-chain arrays to the result. *)
Definition summarize (address : string)
  (allBalancesArrays : list (list TokenBalance.t)) : ActionResult :=
  let allBalances := List.concat allBalancesArrays in
  let totalUsdValue :=
    fold_left (fun sum token => (sum + TokenBalance.usdValue token)%Q)
              allBalances 0%Q in
  let allBalances := sort byUsdValueDescending allBalances in
  let byChain := groupByChain allBalances in
  let body :=
    if (List.length allBalances =? 0)%nat then NoTokensFound
    else Assets (List.length allBalances)
           (List.map (fun e => (toUpperCase (chainTag (fst e)), snd e))
                     byChain) in
  let data :=
    {| actionName := "WALLET_INFO";
       address := address;
       totalBalance := totalUsdValue;
       totalBalanceUsd := "$" ++ Wallet.toFixed 2 totalUsdValue;
       tokenCount := List.length allBalances;
       tokens := List.map viewOf allBalances |} in
  {| text := PortfolioText address ("$" ++ Wallet.toFixed 2 totalUsdValue) body;
     success := true;
     data := Snapshot data |}.

(** The handler once the wallet address is known (lines 635 to 716).  The
    progress callback belongs to the caller and is not part of the
    embedding. *)
Definition handler (env : Env) (address : string) : M Trace ActionResult :=
  try_catch
    (allBalancesArrays <-
       PromiseAll (List.map (fun chain => Wallet.fetchChainBalances env address chain)
                            chains) ;;
     ret (summarize address allBalancesArrays))
    (fun error =>
       let errorMessage := message error in
       Wallet.emit (LogError "Error fetching wallet info:") ;;;
       ret {| text := FallbackText address;
              success := false;
              data := Fallback address errorMessage |}).

End Portfolio.

(* ------------------------------------------------------------------ *)
(** ** The worlds that one attempt of [loadIndex] can lead to           *)
(* ------------------------------------------------------------------ *)

Module Steps.

Import DefiLlama.
Local Open Scope Z_scope.

(** The world after a failed attempt that is not the last one ... *)
Definition afterRetry (env : Env) (attempt : Z) (msg : string) (w : World)
  : World :=
  let backoff := baseDelayMs * 2 ^ (attempt - 1)
                 + Qfloor (random env (drawn w) * inject_Z 200)%Q in
  mkWorld (cache w) (cacheTimestampMs w) (ttlMs w)
          (clock w + elapsed env (fetched w) + backoff)
          (S (fetched w)) (S (drawn w))
          (logs w ++ [DebugLoading attempt maxAttempts url;
                      WarnRetry attempt msg backoff]).

(** ... after the last attempt, failed ... *)
Definition afterGivingUp (env : Env) (msg : string) (w : World) : World :=
  mkWorld (cache w) (cacheTimestampMs w) (ttlMs w)
          (clock w + elapsed env (fetched w))
          (S (fetched w)) (drawn w)
          (logs w ++ [DebugLoading maxAttempts maxAttempts url;
                      ErrorFailed maxAttempts msg]).

(** ... and after an attempt that delivers the list [l]. *)
Definition afterLoad (env : Env) (attempt : Z) (l : list Protocol.t)
  (w : World) : World :=
  mkWorld l (clock w + elapsed env (fetched w)) (ttlMs w)
          (clock w + elapsed env (fetched w))
          (S (fetched w)) (drawn w)
          (logs w ++ [DebugLoading attempt maxAttempts url;
                      InfoLoaded (List.length l) (ttlMs w)]).

(** The message of the error that a failing attempt throws. *)
Definition failureMessage (o : FetchOutcome) : string :=
  match o with
  | Rejects msg => msg
  | Responds res =>
      if ok res then
        match body res with
        | BodyInvalid msg => msg
        | _ => ""
        end
      else ("Failed " ++ ZToString (status res) ++ " " ++ statusText res)%string
  end.

(** The list that a successful attempt stores. *)
Definition delivered (o : FetchOutcome) : list Protocol.t :=
  match o with
  | Responds res =>
      match body res with
      | BodyArray l => l
      | _ => []
      end
  | Rejects _ => []
  end.

End Steps.

(* ------------------------------------------------------------------ *)
(** ** Vocabulary of the specification                                  *)
(* ------------------------------------------------------------------ *)

(** The definitions of this section follow the words of the specification,
    not the code; the theorems of Part II relate the two. *)
Module Spec.

Local Open Scope string_scope.
Local Open Scope bool_scope.

(** The five tiers of section 4.2, in their order of priority. *)
Inductive Tier : Type :=
| ExactName | ExactSymbol | ExactSlug | NamePrefix | SlugPrefix.

Definition tierOrder : list Tier :=
  [ExactName; ExactSymbol; ExactSlug; NamePrefix; SlugPrefix].

(** Two texts are the same but for the case of their letters. *)
Definition sameIgnoringCase (a b : string) : bool :=
  toLowerCase a =? toLowerCase b.

(** [q] is a prefix of [s], but for the case of the letters. *)
Definition prefixIgnoringCase (q s : string) : bool :=
  String.prefix (toLowerCase q) (toLowerCase s).

(** A field that is absent matches nothing. *)
Definition fieldMatches (test : string -> bool) (field : option string)
  : bool :=
  match field with
  | Some s => test s
  | None => false
  end.

(** The record [p] matches the query [q] in tier [t]. *)
Definition tierMatch (t : Tier) (q : string) (p : Protocol.t) : bool :=
  match t with
  | ExactName => fieldMatches (sameIgnoringCase q) (Protocol.name p)
  | ExactSymbol => fieldMatches (sameIgnoringCase q) (Protocol.symbol p)
  | ExactSlug => fieldMatches (sameIgnoringCase q) (Protocol.slug p)
  | NamePrefix => fieldMatches (prefixIgnoringCase q) (Protocol.name p)
  | SlugPrefix => fieldMatches (prefixIgnoringCase q) (Protocol.slug p)
  end.

(** [p] is the first record of [generation], in its order, that passes
    [test]. *)
Definition firstIn (test : Protocol.t -> bool)
  (generation : list Protocol.t) (p : Protocol.t) : Prop :=
  exists before after,
    generation = (before ++ p :: after)%list
    /\ test p = true
    /\ forall x, In x before -> test x = false.

(** No record of [generation] passes [test]. *)
Definition noneIn (test : Protocol.t -> bool)
  (generation : list Protocol.t) : Prop :=
  forall x, In x generation -> test x = false.

(** "The first tier yielding any match wins; within a tier, the first
    record in generation order wins": [p] answers the query [q]. *)
Definition wins (q : string) (generation : list Protocol.t)
  (p : Protocol.t) : Prop :=
  exists earlier t later,
    tierOrder = (earlier ++ t :: later)%list
    /\ (forall t', In t' earlier -> noneIn (tierMatch t' q) generation)
    /\ firstIn (tierMatch t q) generation p.

(** No tier yields a match. *)
Definition noMatch (q : string) (generation : list Protocol.t) : Prop :=
  forall t, In t tierOrder -> noneIn (tierMatch t q) generation.

(** The same rule as a function: the tiers are tried in order, and each
    tier takes the first record of the generation that matches. *)
Fixpoint firstTier (tiers : list Tier) (q : string)
  (generation : list Protocol.t) : option Protocol.t :=
  match tiers with
  | [] => None
  | t :: later =>
      match List.find (tierMatch t q) generation with
      | Some p => Some p
      | None => firstTier later q generation
      end
  end.

(** A query that is blank: empty, or white space only. *)
Definition blank (raw : string) : bool := allWhiteSpace raw.

(** The pricing credential is configured. *)
Definition credentialsConfigured (env : Outside.Env) : bool :=
  Wallet.truthyOpt (Outside.processEnv env "COINGECKO_API_KEY").

(** What the pricing API says about a contract: symbol, name, decimals
    and price when the request succeeds with a body that can be read,
    nothing otherwise. *)
Definition pricingAnswer (env : Outside.Env) (chain : ChainNetwork)
  (contractAddress : string) : option TokenInfo.t :=
  match Outside.coinByContract env
          (ChainConfig.coingeckoPlatform (CHAIN_CONFIGS chain))
          contractAddress with
  | Outside.Fulfilled response =>
      if Outside.ok response then
        match Outside.body response with
        | Outside.Fulfilled data =>
            Some (TokenInfo.mk
                    (toUpperCase (orElse (Outside.coinSymbol data) ""))
                    (orElse (Outside.coinName data) "Unknown Token")
                    (Wallet.integerOr (Outside.decimal_place data) 18)
                    (Wallet.numberOr (Outside.usd data) 0))
        | Outside.Rejected _ => None
        end
      else None
  | Outside.Rejected _ => None
  end.

(** What the contract itself says: symbol, name and decimals when the
    three reads succeed, with the price zero; nothing otherwise. *)
Definition onchainAnswer (env : Outside.Env) (chain : ChainNetwork)
  (contractAddress : string) : option TokenInfo.t :=
  match Outside.readSymbol env chain contractAddress,
        Outside.readName env chain contractAddress,
        Outside.readDecimals env chain contractAddress with
  | Outside.Fulfilled symbol, Outside.Fulfilled name,
    Outside.Fulfilled decimals =>
      Some (TokenInfo.mk (toUpperCase (orElse (Some symbol) "UNKNOWN"))
                         (orElse (Some name) "Unknown Token")
                         (Wallet.integerOr (Some decimals) 18)
                         0)
  | _, _, _ => None
  end.

(** The pricing path of section 4.4 succeeds. *)
Definition pricingSucceeds (env : Outside.Env) (chain : ChainNetwork)
  (contractAddress : string) : option TokenInfo.t :=
  if credentialsConfigured env then pricingAnswer env chain contractAddress
  else None.

(** The layered resolution of section 4.4: the pricing API first, the
    contract second. *)
Definition layeredAnswer (env : Outside.Env) (chain : ChainNetwork)
  (contractAddress : string) : option TokenInfo.t :=
  match pricingSucceeds env chain contractAddress with
  | Some info => Some info
  | None => onchainAnswer env chain contractAddress
  end.

(** The entry that a token contributes to the balances of its chain, if
    any: none for a balance that cannot be read or is zero, none when
    its resolution fails. *)
Definition tokenEntry (env : Outside.Env) (chain : ChainNetwork)
  (entry : string * option string) : option TokenBalance.t :=
  match entry with
  | (_, None) => None
  | (contractAddress, Some text) =>
      match StringToBigInt text with
      | None => None
      | Some value =>
          if (value =? 0)%Z then None
          else
            match layeredAnswer env chain contractAddress with
            | Some info =>
                let amount := Wallet.unitsAmount value (TokenInfo.decimals info) in
                Some (TokenBalance.mk (TokenInfo.symbol info)
                        (TokenInfo.name info) (Wallet.toFixed 6 amount)
                        (amount * TokenInfo.price info)%Q
                        (Some contractAddress) chain (TokenInfo.decimals info))
            | None => None
            end
      end
  end.

(** The entries of a list of tokens, in order. *)
Fixpoint tokenEntries (env : Outside.Env) (chain : ChainNetwork)
  (entries : list (string * option string)) : list TokenBalance.t :=
  match entries with
  | [] => []
  | entry :: rest =>
      match tokenEntry env chain entry with
      | Some b => b :: tokenEntries env chain rest
      | None => tokenEntries env chain rest
      end
  end.

(** The balances that [fetchChainBalances] delivers for a chain. *)
Definition balancesOf (env : Outside.Env) (address : string)
  (chain : ChainNetwork) : list TokenBalance.t :=
  match fst (Wallet.fetchChainBalances env address chain []) with
  | Normal l => l
  | Throw _ => []
  end.

(** The endpoint of a chain is configured. *)
Definition endpointOf (env : Outside.Env) (chain : ChainNetwork)
  : option string :=
  match Outside.processEnv env (ChainConfig.rpcUrl (CHAIN_CONFIGS chain)) with
  | Some u => if truthy u then Some u else None
  | None => None
  end.

(** The transport to the endpoint [u] fails for one of the two requests
    of a chain. *)
Definition transportFails (env : Outside.Env) (u address : string) : Prop :=
  (exists msg, Outside.getTokenBalances env u address = Outside.Rejected msg)
  \/ (exists msg, Outside.getBalance env u address = Outside.Rejected msg).

(** The requests among the events of a trace, in order. *)
Definition isRequest (e : Outside.Event) : bool :=
  match e with
  | Outside.LogWarn _ | Outside.LogError _ => false
  | _ => true
  end.

Definition requestsIn (t : Outside.Trace) : list Outside.Event :=
  List.filter isRequest t.

(** Sum of the USD values of a list of tokens. *)
Fixpoint sumUsd (l : list TokenBalance.t) : Q :=
  match l with
  | [] => 0%Q
  | t :: l' => (TokenBalance.usdValue t + sumUsd l')%Q
  end.

(** [a] may stand before [b] in a list in descending order of value. *)
Definition descending (a b : TokenBalance.t) : Prop :=
  (TokenBalance.usdValue b <= TokenBalance.usdValue a)%Q.

(** The tokens of a list whose value is [v], in the order of the list:
    the ties at [v]. *)
Definition tiesAt (v : Q) (l : list TokenBalance.t) : list TokenBalance.t :=
  List.filter (fun t => Qeq_bool (TokenBalance.usdValue t) v) l.

(** The chains of a list in the order in which they are first seen. *)
Fixpoint firstSeen (l : list ChainNetwork) : list ChainNetwork :=
  match l with
  | [] => []
  | c :: l' =>
      c :: List.filter (fun c' => negb (ChainNetwork_eqb c c')) (firstSeen l')
  end.

(** The tokens of a chain, in the order of the list. *)
Definition onChain (c : ChainNetwork) (l : list TokenBalance.t)
  : list TokenBalance.t :=
  List.filter (fun t => ChainNetwork_eqb c (TokenBalance.chain t)) l.

(** Grouping by chain, chains in first-seen order. *)
Definition grouped (l : list TokenBalance.t) : Portfolio.ByChain :=
  List.map (fun c => (c, onChain c l))
           (firstSeen (List.map TokenBalance.chain l)).

(** A record that has a name and nothing else, as in section 8. *)
Definition named (n : string) : Protocol.t :=
  Protocol.mk "" (Some n) None None None None None None None None None None
              None None None None None.

(** An attempt to fetch the catalog fails: the transport rejects (which
    includes the timeout), the response is not a success, or its body
    cannot be parsed. *)
Definition attemptFails (o : DefiLlama.FetchOutcome) : bool :=
  match o with
  | DefiLlama.Rejects _ => true
  | DefiLlama.Responds res =>
      negb (DefiLlama.ok res)
      || match DefiLlama.body res with
         | DefiLlama.BodyInvalid _ => true
         | _ => false
         end
  end.

(** A log entry that opens a refresh attempt sequence: the announcement of
    attempt number one. *)
Definition opensRefresh (e : DefiLlama.LogEntry) : bool :=
  match e with
  | DefiLlama.DebugLoading attempt _ _ => (attempt =? 1)%Z
  | _ => false
  end.

(** How many refresh attempt sequences a log records. *)
Definition refreshesStarted (logs : list DefiLlama.LogEntry) : nat :=
  List.length (List.filter opensRefresh logs).

(** The age of the generation exceeds the TTL. *)
Definition ageExceedsTtl (now : Z) (w : DefiLlama.World) : Prop :=
  match DefiLlama.ttlMs w with
  | Fin ttl => (ttl < inject_Z (now - DefiLlama.cacheTimestampMs w))%Q
  | NegInf => True
  | PosInf | NaN => False
  end.

(** A number of milliseconds that is a non-negative integer. *)
Definition nonNegativeInteger (x : JsNumber) : bool :=
  match x with
  | Fin q => Qle_bool 0 q && Qeq_bool q (inject_Z (Qfloor q))
  | _ => false
  end.

End Spec.

(* ------------------------------------------------------------------ *)
(** ** Concrete worlds, for the examples of the specification           *)
(* ------------------------------------------------------------------ *)

Module Examples.

Local Open Scope string_scope.

(** A network on which every call of [fetch] is rejected. *)
Definition offline : DefiLlama.Env :=
  DefiLlama.mkEnv (fun _ => DefiLlama.Rejects "fetch failed")
                  (fun _ => 30%Z) (fun _ => (1 # 2)%Q).

(** The two records of section 8, in their order. *)
Definition aaveRecords : list Protocol.t :=
  [Spec.named "Aave"; Spec.named "Aave V2"].

(** A service that loaded [aaveRecords] at time 1000, read at time 2000
    with the default TTL. *)
Definition aaveWorld : DefiLlama.World :=
  DefiLlama.mkWorld aaveRecords 1000 DefiLlama.defaultTtlMs 2000 1 0 [].

(** The same service, read after the TTL has run out. *)
Definition aaveWorldLater : DefiLlama.World :=
  DefiLlama.mkWorld aaveRecords 1000 DefiLlama.defaultTtlMs 400000 1 0 [].

(** A wallet seen from three chains.  Base is configured and answers: no
    native balance and one token, 100 units of a coin with six decimals
    that the pricing API prices at one dollar.  Ethereum is configured
    and its transport fails.  Polygon has no endpoint configured. *)
Definition partialOutside : Outside.Env :=
  Outside.mkEnv
    (fun key =>
       if key =? "BASE_RPC_URL" then Some "https://base.example"
       else if key =? "ETHEREUM_RPC_URL" then Some "https://eth.example"
       else if key =? "COINGECKO_API_KEY" then Some "secret"
       else None)
    (fun rpcUrl _ =>
       if rpcUrl =? "https://base.example" then
         Outside.Fulfilled
           (Outside.mkResponse true 200
              (Outside.Fulfilled
                 (Outside.mkTokensJson false
                    (Some [("0x833589fcd6edb6e08f4c7c32d4f71b54bda02913",
                            Some "0x5f5e100")]))))
       else Outside.Rejected "connect ECONNREFUSED")
    (fun _ _ =>
       Outside.Fulfilled
         (Outside.mkResponse true 200
            (Outside.Fulfilled (Outside.mkNativeJson (Some "0x0")))))
    (fun _ => Outside.Rejected "fetch failed")
    (fun _ _ =>
       Outside.Fulfilled
         (Outside.mkResponse true 200
            (Outside.Fulfilled
               (Outside.mkCoinJson (Some "usdc") (Some "USD Coin")
                                   (Some 6%Z) (Some 1%Q)))))
    (fun _ _ => Outside.Rejected "execution reverted")
    (fun _ _ => Outside.Rejected "execution reverted")
    (fun _ _ => Outside.Rejected "execution reverted").

Definition usdcAddress : string :=
  "0x833589fcd6edb6e08f4c7c32d4f71b54bda02913".

Definition unknownAddress : string :=
  "0x000000000000000000000000000000000000dead".

(** The same wallet holding two tokens on Base while the pricing API
    times out: the first token has a contract that answers nothing, the
    second one a contract that tells symbol, name and decimals. *)
Definition unknownTokenOutside : Outside.Env :=
  Outside.mkEnv
    (Outside.processEnv partialOutside)
    (fun rpcUrl _ =>
       if rpcUrl =? "https://base.example" then
         Outside.Fulfilled
           (Outside.mkResponse true 200
              (Outside.Fulfilled
                 (Outside.mkTokensJson false
                    (Some [(unknownAddress, Some "0x1");
                           (usdcAddress, Some "0x5f5e100")]))))
       else Outside.Rejected "connect ECONNREFUSED")
    (Outside.getBalance partialOutside)
    (Outside.simplePrice partialOutside)
    (fun _ _ => Outside.Rejected "This operation was aborted")
    (fun _ a => if a =? usdcAddress then Outside.Fulfilled "usdc"
                else Outside.Rejected "execution reverted")
    (fun _ a => if a =? usdcAddress then Outside.Fulfilled "USD Coin"
                else Outside.Rejected "execution reverted")
    (fun _ a => if a =? usdcAddress then Outside.Fulfilled 6%Z
                else Outside.Rejected "execution reverted").

Definition walletAddress : string :=
  "0x1234567890abcdef1234567890abcdef12345678".

(** Three tokens on two chains, two of them of equal value. *)
Definition threeTokens : list (list TokenBalance.t) :=
  [[TokenBalance.mk "ETH" "Ethereum" "0.010000" (25 # 1) None base 18;
    TokenBalance.mk "DAI" "Dai" "50.000000" (50 # 1) (Some "0xda1") base 18];
   [];
   [TokenBalance.mk "USDC" "USD Coin" "50.000000" (50 # 1) (Some "0xc01")
                    polygon 6]].

End Examples.

(* ------------------------------------------------------------------ *)
(** ** The service from its start, and what its log and cache show      *)
(* ------------------------------------------------------------------ *)

Module Lifecycle.

Import DefiLlama.
Local Open Scope Z_scope.

(** [DefiLlamaService.start] (lines 20 to 24): the constructor at clock
    [t0], then [initialize]. *)
Definition start (env : Env) (ttlSetting : option string) (t0 : Z)
  : Completion unit * World :=
  initialize env ttlSetting (constructed t0).

(** A log entry that announces a retry. *)
Definition isRetry (e : LogEntry) : bool :=
  match e with
  | WarnRetry _ _ _ => true
  | _ => false
  end.

(** How many retries a log announces. *)
Definition retriesLogged (logs : list LogEntry) : nat :=
  List.length (List.filter isRetry logs).

(** A TTL that is a number and not negative. *)
Definition ttlNonNegative (x : JsNumber) : Prop :=
  match x with
  | Fin q => (0 <= q)%Q
  | PosInf => True
  | NaN | NegInf => False
  end.

(** The least and the greatest delay before the retry that follows the
    failed attempt number [attempt]. *)
Definition leastBackoff (attempt : Z) : Z := 500 * 2 ^ (attempt - 1).
Definition greatestBackoff (attempt : Z) : Z := 500 * 2 ^ (attempt - 1) + 199.

(** A result that carries a match: the view of the record [p]. *)
Definition isMatch (r : ResolutionResult) (p : Protocol.t) : Prop :=
  success r = true /\ data r = Some (shapeProtocol p) /\ error r = None.

(** A result that carries a reason and nothing else. *)
Definition isReason (r : ResolutionResult) : Prop :=
  success r = false /\ data r = None /\ exists reason, error r = Some reason.

End Lifecycle.

(* ------------------------------------------------------------------ *)
(** ** More concrete worlds                                             *)
(* ------------------------------------------------------------------ *)

Module Scenarios.

Local Open Scope string_scope.

(** A network that rejects the first two calls of [fetch] and then
    delivers the two records of section 8. *)
Definition flaky : DefiLlama.Env :=
  DefiLlama.mkEnv
    (fun n => if (n <? 2)%nat then DefiLlama.Rejects "ETIMEDOUT"
              else DefiLlama.Responds
                     (DefiLlama.mkResponse true 200 "OK"
                        (DefiLlama.BodyArray Examples.aaveRecords)))
    (fun _ => 40%Z) (fun _ => (1 # 4)%Q).

(** A network that answers with a JSON object where the list should be. *)
Definition notAList : DefiLlama.Env :=
  DefiLlama.mkEnv
    (fun _ => DefiLlama.Responds
                (DefiLlama.mkResponse true 200 "OK" DefiLlama.BodyOther))
    (fun _ => 40%Z) (fun _ => (1 # 4)%Q).

End Scenarios.


(* ------------------------------------------------------------------ *)
(** ** The action GET_PROTOCOL_TVL, caller of [getProtocolsByNames]      *)
(* ------------------------------------------------------------------ *)

Module TvlAction.

Local Open Scope string_scope.
Local Open Scope bool_scope.
Local Open Scope js_scope.

(** [s.split(sep)] for a separator of one code unit: the pieces between
    the separators, the empty ones too; one empty piece for the empty
    text. *)
Fixpoint split (sep : ascii) (s : string) : list string :=
  match s with
  | EmptyString => [EmptyString]
  | String c s' =>
      if (c =? sep)%char then EmptyString :: split sep s'
      else match split sep s' with
           | piece :: pieces => String c piece :: pieces
           | [] => [String c EmptyString]
           end
  end.

(** [namesRaw.split(",").map((s) => s.trim()).filter(Boolean)] *)
Definition parseNames (namesRaw : string) : list string :=
  List.filter truthy (List.map trim (split "," namesRaw)).

(** What the handler needs of the runtime and of its caller:
    whether [runtime.getService] finds the service; what [parsed?.names]
    is once the state is composed, the model asked and its answer parsed,
    or the rejection of one of these awaited steps; and, when a callback
    is given, how the promise it returns settles. *)
Record Runtime : Type := mkRuntime {
  serviceAvailable : bool;
  extractedNames : Outside.Settled (option string);
  callback : option (Outside.Settled unit)
}.

(** A line given to the logger, which the handler and the service share:
    one of the lines of [loadIndex], or a line that the handler gives to
    [logger.error]. *)
Inductive LogLine : Type :=
| ByService (entry : DefiLlama.LogEntry)
| ByHandler (line : string).

(** The service, which keeps in [logs] the lines that it has given to
    the logger; the logger, with the lines of the service and of the
    handler in the order in which they were given; and the texts given
    to the callback. *)
Record State : Type := mkState {
  svc : DefiLlama.World;
  logger : list LogLine;
  delivered : list string
}.

(** [r && r.success && r.data] and [!r || !r.success], for the elements
    of the array that the service returns. *)
Definition isSuccess (r : ResolutionResult) : bool :=
  success r && match data r with Some _ => true | None => false end.

Definition isFailure (r : ResolutionResult) : bool := negb (success r).

(** [successes.map((r) => r.data)] *)
Definition dataOf (successes : list ResolutionResult)
  : list (option Shaped.t) :=
  List.map data successes.

Record ActionResult : Type := mkActionResult {
  text : string;
  success : bool;
  data : option (list ResolutionResult);
  values : option (list (option Shaped.t));
  error : option JsError
}.

(** The lines that the service has given to the logger between the
    states [w] and [w'] of a call: those that [logs] has gained. *)
Definition gained (w w' : DefiLlama.World) : list DefiLlama.LogEntry :=
  skipn (List.length (DefiLlama.logs w)) (DefiLlama.logs w').

(** A call of a method of the service; the lines that it logs reach the
    logger. *)
Definition onService {A} (m : M DefiLlama.World A) : M State A :=
  fun s => let (c, w') := m (svc s) in
           (c, mkState w'
                 (logger s ++ List.map ByService (gained (svc s) w'))%list
                 (delivered s)).

Definition logError (line : string) : M State unit :=
  modify (fun s => mkState (svc s) (logger s ++ [ByHandler line])%list
                           (delivered s)).

Definition deliver (line : string) : M State unit :=
  modify (fun s => mkState (svc s) (logger s) (delivered s ++ [line])%list).

Definition await {A} (p : Outside.Settled A) : M State A :=
  match p with
  | Outside.Fulfilled a => ret a
  | Outside.Rejected msg => throw (mkError msg)
  end.

(** [if (cond) throw new Error(msg)] *)
Definition throwIf (cond : bool) (msg : string) : M State unit :=
  if cond then throw (mkError msg) else ret tt.

(** A count in a template literal. *)
Definition count (n : nat) : string := ZToString (Z.of_nat n).

Definition messageText (successes failed : nat) : string :=
  if (0 <? failed)%nat
  then "Fetched TVL for " ++ count successes ++ " protocol(s); "
       ++ count failed ++ " not matched"
  else "Fetched TVL for " ++ count successes ++ " protocol(s)".

(** The handler of [getProtocolTvlAction]. *)
Definition handler (rt : Runtime) (env : DefiLlama.Env)
  : M State ActionResult :=
  try_catch
    (throwIf (negb (serviceAvailable rt)) "DefiLlamaService not available" ;;;
     namesOpt <- await (extractedNames rt) ;;
     let namesRaw := orElse namesOpt "" in
     throwIf (negb (truthy namesRaw))
             "No protocol names found in user message" ;;;
     let names := parseNames namesRaw in
     throwIf (List.length names =? 0)%nat
             "No valid protocol names parsed from message" ;;;
     results <- onService (DefiLlama.getProtocolsByNames env names) ;;
     throwIf (List.length results =? 0)%nat
             "No protocols matched the provided names" ;;;
     let successes := List.filter isSuccess results in
     let failed := List.filter isFailure results in
     throwIf (List.length successes =? 0)%nat
             "No protocols matched the provided names" ;;;
     let messageText :=
       messageText (List.length successes) (List.length failed) in
     match callback rt with
     | Some settles => deliver messageText ;;; await settles
     | None => ret tt
     end ;;;
     ret {| text := messageText;
            success := true;
            data := Some results;
            values := Some (dataOf successes);
            error := None |})
    (fun err =>
       let msg := message err in
       logError ("[GET_PROTOCOL_TVL] " ++ msg) ;;;
       ret {| text := "Failed: " ++ msg;
              success := false;
              data := None;
              values := None;
              error := Some err |}).

(** The result of the [catch] block for the error [err], and the state
    it leaves: one more line in the logger. *)
Definition failure (err : JsError) : ActionResult :=
  {| text := "Failed: " ++ message err;
     success := false;
     data := None;
     values := None;
     error := Some err |}.

Definition afterFailure (err : JsError) (s : State) : State :=
  mkState (svc s)
          (logger s
           ++ [ByHandler ("[GET_PROTOCOL_TVL] " ++ message err)%string])%list
          (delivered s).

(** The result of the [try] block for the array [results] of the
    service. *)
Definition report (results : list ResolutionResult) : ActionResult :=
  {| text := messageText (List.length (List.filter isSuccess results))
                         (List.length (List.filter isFailure results));
     success := true;
     data := Some results;
     values := Some (dataOf (List.filter isSuccess results));
     error := None |}.

(** A text without the separator. *)
Fixpoint free (sep : ascii) (s : string) : bool :=
  match s with
  | EmptyString => true
  | String c s' => negb (c =? sep)%char && free sep s'
  end.

(** The pieces joined again by the separator. *)
Fixpoint join (sep : ascii) (pieces : list string) : string :=
  match pieces with
  | [] => EmptyString
  | [piece] => piece
  | piece :: rest => piece ++ String sep (join sep rest)
  end.

End TvlAction.


(* ------------------------------------------------------------------ *)
(** ** What a chain holds, and what asking for it takes                 *)
(* ------------------------------------------------------------------ *)

Module Holdings.

Import Outside.
Local Open Scope string_scope.

(** A token of the list of the endpoint whose balance can be read and is
    not zero: the loop resolves these and no others. *)
Definition held (entry : string * option string) : bool :=
  match snd entry with
  | Some text =>
      match StringToBigInt text with
      | Some value => negb (value =? 0)%Z
      | None => false
      end
  | None => false
  end.

(** The requests that [getTokenInfo] makes for a contract. *)
Definition resolutionRequests (env : Env) (chain : ChainNetwork)
  (contractAddress : string) : list Event :=
  ((if Spec.credentialsConfigured env
    then [ReqCoinByContract
            (ChainConfig.coingeckoPlatform (CHAIN_CONFIGS chain))
            contractAddress]
    else [])
   ++
   (match Spec.pricingSucceeds env chain contractAddress with
    | Some _ => []
    | None => [ReqReadContract chain contractAddress]
    end))%list.

(** The price that the native token of a chain gets: that of the answer,
    and zero when there is no answer, no price in it, or a price zero. *)
Definition nativePrice (env : Env) (chain : ChainNetwork) : Q :=
  match simplePrice env
          (NativeToken.coingeckoId (ChainConfig.nativeToken (CHAIN_CONFIGS chain)))
  with
  | Fulfilled priceResponse =>
      match body priceResponse with
      | Fulfilled priceData => Wallet.numberOr priceData 0
      | Rejected _ => 0%Q
      end
  | Rejected _ => 0%Q
  end.

(** The price lookup of the native token fails. *)
Definition nativePriceFails (env : Env) (chain : ChainNetwork) : Prop :=
  (exists msg,
      simplePrice env
        (NativeToken.coingeckoId (ChainConfig.nativeToken (CHAIN_CONFIGS chain)))
      = Rejected msg)
  \/ (exists priceResponse msg,
         simplePrice env
           (NativeToken.coingeckoId
              (ChainConfig.nativeToken (CHAIN_CONFIGS chain)))
         = Fulfilled priceResponse
         /\ body priceResponse = Rejected msg).

(** The entry of the native token for a balance in wei. *)
Definition nativeHolding (env : Env) (chain : ChainNetwork)
  (nativeBalance : Z) : TokenBalance.t :=
  let native := ChainConfig.nativeToken (CHAIN_CONFIGS chain) in
  let amount := Wallet.unitsAmount nativeBalance 18 in
  TokenBalance.mk (NativeToken.symbol native) (NativeToken.name native)
    (Wallet.toFixed 6 amount) (amount * nativePrice env chain)%Q None chain 18.

Definition nativeHoldings (env : Env) (chain : ChainNetwork)
  (nativeBalance : Z) : list TokenBalance.t :=
  if (nativeBalance >? 0)%Z then [nativeHolding env chain nativeBalance]
  else [].

(** An entry that stands for a contract of the chain. *)
Definition isTokenOf (chain : ChainNetwork) (b : TokenBalance.t) : Prop :=
  TokenBalance.chain b = chain
  /\ TokenBalance.decimals b <> 0%Z
  /\ exists contractAddress,
       TokenBalance.contractAddress b = Some contractAddress.

(** The line logged for a chain without endpoint. *)
Definition skipped (chain : ChainNetwork) : Event :=
  LogWarn (ChainConfig.rpcUrl (CHAIN_CONFIGS chain)
           ++ " not configured, skipping " ++ chainTag chain).

(** The heading of the section of a chain in the text. *)
Definition sectionName (chain : ChainNetwork) : string :=
  toUpperCase (chainTag chain).

(** An outside world in which nothing is configured and nothing answers. *)
Definition unconfigured : Env :=
  mkEnv (fun _ => None)
        (fun _ _ => Rejected "unreachable")
        (fun _ _ => Rejected "unreachable")
        (fun _ => Rejected "unreachable")
        (fun _ _ => Rejected "unreachable")
        (fun _ _ => Rejected "unreachable")
        (fun _ _ => Rejected "unreachable")
        (fun _ _ => Rejected "unreachable").

(** Base answers with half an ether and two tokens, one of balance zero
    and one whose balance is not a number; the price of ether cannot be
    had. *)
Definition etherOnly : Env :=
  mkEnv (fun key => if key =? "BASE_RPC_URL" then Some "https://base.example"
                    else None)
        (fun _ _ =>
           Fulfilled
             (mkResponse true 200
                (Fulfilled
                   (mkTokensJson false
                      (Some [("0xaaa", Some "0x0"); ("0xbbb", Some "n/a")])))))
        (fun _ _ =>
           Fulfilled
             (mkResponse true 200
                (Fulfilled (mkNativeJson (Some "0x6f05b59d3b20000")))))
        (fun _ => Rejected "fetch failed")
        (fun _ _ => Rejected "unreachable")
        (fun _ _ => Rejected "unreachable")
        (fun _ _ => Rejected "unreachable")
        (fun _ _ => Rejected "unreachable").

End Holdings.

(* ------------------------------------------------------------------ *)
(** ** The chat component: its state and its handlers                   *)
(* ------------------------------------------------------------------ *)

Module Chat.

Import Outside.
Local Open Scope string_scope.
Local Open Scope bool_scope.

Record Agent : Type := mkAgent {
  agentId : string;
  agentName : string
}.

(** [interface Message].  [createdAt] is a number of milliseconds; a
    timestamp that is not a number, as [Date.parse] gives for a text that
    is no date, is outside the embedding. *)
Record Message : Type := mkMessage {
  id : string;
  content : string;
  authorId : string;
  createdAt : Q;
  isAgent : bool;
  senderName : string
}.

(** [msg.createdAt] of a message of the server, by the case that the
    code distinguishes, with the number it leads to: the time of a
    [Date], a number, what [Date.parse] makes of a string, and for
    anything else the clock as [Date.now()] reads it then. *)
Inductive CreatedAt : Type :=
| IsDate (time : Q)
| IsNumber (n : Q)
| IsString (parsed : Q)
| IsOther (now : Q).

Record ServerMessage : Type := mkServerMessage {
  msgId : string;
  msgContent : string;
  msgAuthorId : string;
  msgCreatedAt : CreatedAt;
  authorDisplayName : option string
}.

(** The payload of a socket message: [id], [content], [text], [message],
    [senderId], [createdAt] (a number, or what [Date.parse] makes of it)
    and [senderName]. *)
Record SocketData : Type := mkSocketData {
  dataId : option string;
  dataContent : option string;
  dataText : option string;
  dataMessage : option string;
  senderId : string;
  dataCreatedAt : Q;
  dataSenderName : option string
}.

(** The state of the component, and the texts handed to
    [socketManager.sendMessage], in order.  A handler reads the state of
    the last render; the embedding takes a render between any two
    events. *)
Record State : Type := mkState {
  messages : list Message;
  inputValue : string;
  isTyping : bool;
  sent : list string
}.

Definition initial : State := mkState [] "" false [].

(** Lines 73 to 82. *)
Definition timestampOf (c : CreatedAt) : Q :=
  match c with
  | IsDate time => time
  | IsNumber n => n
  | IsString parsed => parsed
  | IsOther now => now
  end.

(** Lines 72 to 92: the body of [messagesResponse.messages.map]. *)
Definition format (agent : Agent) (msg : ServerMessage) : Message :=
  {| id := msgId msg;
     content := msgContent msg;
     authorId := msgAuthorId msg;
     createdAt := timestampOf (msgCreatedAt msg);
     isAgent := msgAuthorId msg =? agentId agent;
     senderName :=
       orElse (authorDisplayName msg)
              (if msgAuthorId msg =? agentId agent then agentName agent
               else "User") |}.

(** [(a, b) => a.createdAt - b.createdAt] *)
Definition byCreatedAt (a b : Message) : Q := (createdAt a - createdAt b)%Q.

(** [loadMessages] (lines 65 to 100): the messages of the channel, as
    the server answers. *)
Definition loadMessages (agent : Agent)
  (messagesResponse : Settled (list ServerMessage)) (st : State) : State :=
  match messagesResponse with
  | Fulfilled msgs =>
      let formattedMessages := List.map (format agent) msgs in
      let sortedMessages := Portfolio.sort byCreatedAt formattedMessages in
      mkState sortedMessages (inputValue st) (isTyping st) (sent st)
  | Rejected _ => st
  end.

(** The updater given to [setMessages] (lines 122 to 130). *)
Definition addMessage (newMessage : Message) (prev : list Message)
  : list Message :=
  if existsb (fun m => id m =? id newMessage) prev then prev
  else
    let updated := (prev ++ [newMessage])%list in
    Portfolio.sort byCreatedAt updated.

(** [handleNewMessage] (lines 109 to 136); [uuid] is what
    [crypto.randomUUID()] gives if it is called. *)
Definition handleNewMessage (agent : Agent) (data : SocketData)
  (uuid : string) (st : State) : State :=
  let messageId := orElse (dataId data) uuid in
  let newMessage :=
    {| id := messageId;
       content := orElse (dataContent data)
                    (orElse (dataText data) (orElse (dataMessage data) ""));
       authorId := senderId data;
       createdAt := dataCreatedAt data;
       isAgent := senderId data =? agentId agent;
       senderName :=
         orElse (dataSenderName data)
                (if senderId data =? agentId agent then agentName agent
                 else "User") |} in
  mkState (addMessage newMessage (messages st)) (inputValue st)
          (if isAgent newMessage then false else isTyping st) (sent st).

(** [handleSubmit] (lines 152 to 173). *)
Definition handleSubmit (st : State) : State :=
  if negb (truthy (trim (inputValue st))) then st
  else mkState (messages st) "" true (sent st ++ [inputValue st])%list.

(** [handleQuickPrompt] (lines 176 to 195). *)
Definition handleQuickPrompt (message : string) (st : State) : State :=
  if isTyping st || negb (truthy (trim message)) then st
  else mkState (messages st) (inputValue st) true (sent st ++ [message])%list.

(** [setInputValue(e.target.value)] *)
Definition setInputValue (text : string) (st : State) : State :=
  mkState (messages st) text (isTyping st) (sent st).

(** What happens to the component. *)
Inductive Event : Type :=
| Loaded (messagesResponse : Settled (list ServerMessage))
| Received (data : SocketData) (uuid : string)
| Typed (text : string)
| Submitted
| QuickPrompt (message : string).

Definition step (agent : Agent) (st : State) (e : Event) : State :=
  match e with
  | Loaded messagesResponse => loadMessages agent messagesResponse st
  | Received data uuid => handleNewMessage agent data uuid st
  | Typed text => setInputValue text st
  | Submitted => handleSubmit st
  | QuickPrompt message => handleQuickPrompt message st
  end.

Definition run (agent : Agent) (events : list Event) : State :=
  fold_left (step agent) events initial.

(** [a] is not later than [b]. *)
Definition notLater (a b : Message) : Prop := (createdAt a <= createdAt b)%Q.

(** The server answers with messages whose ids differ. *)
Definition distinctIds (e : Event) : Prop :=
  match e with
  | Loaded (Fulfilled msgs) => NoDup (List.map msgId msgs)
  | _ => True
  end.

(** [QUICK_PROMPTS], the messages. *)
Definition QUICK_PROMPTS : list string :=
  ["What's the current DeFi market situation?";
   "Analyze my portfolio and suggest optimizations";
   "Should I invest in this new DeFi protocol? It's promising 300% APY.";
   "Explain stablecoin peg dynamics"].

(** An agent, and three messages that reach the component late, early
    and twice. *)
Definition otaku : Agent := mkAgent "agent-1" "Otaku".

Definition said (i : string) (who : string) (at_ : Q) : SocketData :=
  mkSocketData (Some i) (Some "gm") None None who at_ None.

(** The message that the component makes of it. *)
Definition heard (i : string) (who : string) (at_ : Q) : Message :=
  mkMessage i "gm" who at_ (who =? agentId otaku)
            (if who =? agentId otaku then agentName otaku else "User").

End Chat.

(* ------------------------------------------------------------------ *)
(** ** The action WEB_SEARCH and its service                            *)
(* ------------------------------------------------------------------ *)

Module WebSearch.

Import Outside.
Local Open Scope string_scope.
Local Open Scope bool_scope.
Local Open Scope js_scope.

Definition DEFAULT_MAX_WEB_SEARCH_CHARS : Z := 16000.

(** [data.slice(0, end)] for an integer [end]: a negative [end] counts
    from the end of the text. *)
Definition sliceTo (data : string) (end_ : Z) : string :=
  let len := Z.of_nat (String.length data) in
  let final := if (end_ <? 0)%Z then Z.max (len + end_) 0
               else Z.min end_ len in
  substring 0 (Z.to_nat final) data.

(** [MaxTokens] (lines 38 to 44). *)
Definition MaxTokens (data : string) (maxTokens : Z) : string :=
  if (Z.of_nat (String.length data) >? maxTokens)%Z
  then sliceTo data maxTokens
  else data.

Record SearchResult : Type := mkSearchResult {
  title : string;
  url : string
}.

Record SearchResponse : Type := mkSearchResponse {
  answer : option string;
  results : list SearchResult
}.

(** What [parseKeyValueXml] makes of the answer of the model: the texts
    of the elements of the response, those that are there. *)
Module Parsed.
Record t : Type := mk {
  query : option string;
  type : option string;
  limit : option string;
  includeImages : option string;
  searchDepth : option string;
  days : option string;
  includeAnswer : option string
}.
End Parsed.

(** [SearchOptions], as the handler fills them. *)
Module Options.
Record t : Type := mk {
  limit : option JsNumber;
  type : option string;
  includeImages : option bool;
  days : option JsNumber;
  searchDepth : option string;
  includeAnswer : option bool
}.
End Options.

(** The options that the service gives to the Tavily client. *)
Module Tavily.
Record t : Type := mk {
  includeAnswer : bool;
  maxResults : JsNumber;
  topic : string;
  searchDepth : string;
  includeImages : bool;
  days : JsNumber
}.
End Tavily.

(** [tavilyClient.search]: how its promise settles, and [null] for a
    response that is none. *)
Definition Client : Type :=
  string -> Tavily.t -> Settled (option SearchResponse).

(** What the handler needs of the runtime and of its caller: the service
    that [runtime.getService] finds, with its client if it has one;
    [composedState?.data?.webSearch?.query] once the state is composed,
    or the rejection of that step; what [useModel] and [parseKeyValueXml]
    make of the prompt, or the rejection of the model; and whether a
    callback is given.  The callback is an [async] function, so that
    calling it does not throw, and the handler does not await it. *)
Record Runtime : Type := mkRuntime {
  webSearchService : option (option Client);
  memQuery : Settled (option string);
  modelAnswer : Settled (option Parsed.t);
  callback : bool
}.

Inductive Event : Type :=
| AskedModel
| Searched (query : string) (options : Tavily.t)
| CalledBack (text : string)
| LogInfo (line : string)
| LogError (line : string).

Definition Trace : Type := list Event.

Definition emit (e : Event) : M Trace unit :=
  modify (fun t => (t ++ [e])%list).

Definition await {A} (p : Settled A) : M Trace A :=
  match p with
  | Fulfilled a => ret a
  | Rejected msg => throw (mkError msg)
  end.

(** [x ?? d] *)
Definition nullish {A} (x : option A) (d : A) : A :=
  match x with
  | Some a => a
  | None => d
  end.

(** Truthiness of a value that is a string or [undefined]. *)
Definition given (x : option string) : bool :=
  match x with
  | Some s => truthy s
  | None => false
  end.

(** The options that [search] gives to the client (lines 207 to 214 of
    the service). *)
Definition clientOptions (options : Options.t) : Tavily.t :=
  {| Tavily.includeAnswer := nullish (Options.includeAnswer options) true;
     Tavily.maxResults := nullish (Options.limit options) (ofZ 3);
     Tavily.topic := nullish (Options.type options) "general";
     Tavily.searchDepth := nullish (Options.searchDepth options) "basic";
     Tavily.includeImages := nullish (Options.includeImages options) false;
     Tavily.days := nullish (Options.days options) (ofZ 3) |}.

(** [WebSearchService.search]. *)
Definition search (tavilyClient : option Client) (query : string)
  (options : Options.t) : M Trace (option SearchResponse) :=
  try_catch
    (match tavilyClient with
     | None => throw (mkError "WebSearchService not initialized")
     | Some client =>
         emit (Searched query (clientOptions options)) ;;;
         response <- await (client query (clientOptions options)) ;;
         ret response
     end)
    (fun error =>
       emit (LogError ("Web search error: " ++ message error)) ;;;
       throw error).

Record ActionResult : Type := mkActionResult {
  text : string;
  success : bool;
  error : option string;
  data : option SearchResponse
}.

(** [`${index + 1}. [${result.title}](${result.url})`] *)
Definition resource (index : nat) (result : SearchResult) : string :=
  ZToString (Z.of_nat (index + 1)) ++ ". [" ++ title result ++ "]("
  ++ url result ++ ")".

(** [results.map((result, index) => ...)], from [index]. *)
Fixpoint resources (index : nat) (results : list SearchResult) : list string :=
  match results with
  | [] => []
  | result :: rest => resource index result :: resources (S index) rest
  end.

(** [lines.join("\n")] *)
Fixpoint joinLines (lines : list string) : string :=
  match lines with
  | [] => ""
  | [line] => line
  | line :: rest => line ++ String "010" (joinLines rest)
  end.

(** Lines 133 to 145. *)
Definition responseList (searchResponse : SearchResponse) : string :=
  if given (answer searchResponse) then
    orElse (answer searchResponse) ""
    ++ (if (0 <? List.length (results searchResponse))%nat
        then String "010" (String "010"
               ("For more details, you can check out these resources:"
                ++ String "010"
                     (joinLines (resources 0 (results searchResponse)))))
        else "")
  else "".

Definition emptyResult : ActionResult :=
  mkActionResult "Please specify what to search for." false
                 (Some "empty_query") None.

Definition noResult : ActionResult :=
  mkActionResult "I couldn't find relevant results for that query." false
                 None None.

Definition errorResult (errMsg : string) : ActionResult :=
  mkActionResult ("Web search failed: " ++ errMsg) false (Some errMsg) None.

Definition found (searchResponse : SearchResponse) : ActionResult :=
  mkActionResult
    (MaxTokens (responseList searchResponse) DEFAULT_MAX_WEB_SEARCH_CHARS)
    true None (Some searchResponse).

(** [if (callback) callback({ text, ... })] *)
Definition report (rt : Runtime) (text : string) : M Trace unit :=
  if callback rt then emit (CalledBack text) else ret tt.

(** Lines 116 to 121: the options, from what was parsed. *)
Definition optionsOf (parsed : option Parsed.t) : Options.t :=
  let field (f : Parsed.t -> option string) : option string :=
    match parsed with
    | Some p => f p
    | None => None
    end in
  let number (x : option string) : option JsNumber :=
    match x with
    | Some s => if truthy s then Some (Number s) else None
    | None => None
    end in
  let flag (x : option string) : option bool :=
    match x with
    | Some s => Some (toLowerCase s =? "true")
    | None => None
    end in
  {| Options.limit := number (field Parsed.limit);
     Options.type := field Parsed.type;
     Options.includeImages := flag (field Parsed.includeImages);
     Options.days := number (field Parsed.days);
     Options.searchDepth := field Parsed.searchDepth;
     Options.includeAnswer := flag (field Parsed.includeAnswer) |}.

(** The handler of [webSearch] (lines 75 to 182). *)
Definition handler (rt : Runtime) : M Trace ActionResult :=
  try_catch
    (match webSearchService rt with
     | None => throw (mkError "WebSearchService not initialized")
     | Some webSearchService =>
         memQuery <- await (memQuery rt) ;;
         let query := option_map trim memQuery in
         found_ <-
           (if negb (given query) then
              emit AskedModel ;;;
              parsed <- await (modelAnswer rt) ;;
              let query :=
                match parsed with
                | Some p => option_map trim (Parsed.query p)
                | None => None
                end in
              ret (query, parsed)
            else ret (query, None)) ;;
         let (query, parsed) := found_ : option string * option Parsed.t in
         if negb (given query) then
           report rt (text emptyResult) ;;;
           ret emptyResult
         else
           let query := orElse query "" in
           emit (LogInfo ("WEB_SEARCH query: " ++ query)) ;;;
           searchResponse <- search webSearchService query (optionsOf parsed) ;;
           match searchResponse with
           | Some searchResponse =>
               if negb (List.length (results searchResponse) =? 0)%nat then
                 let result := found searchResponse in
                 report rt (text result) ;;;
                 ret result
               else
                 report rt (text noResult) ;;;
                 ret noResult
           | None =>
               report rt (text noResult) ;;;
               ret noResult
           end
     end)
    (fun error =>
       let errMsg := message error in
       emit (LogError ("WEB_SEARCH failed: " ++ errMsg)) ;;;
       let errorResult := errorResult errMsg in
       report rt (text errorResult) ;;;
       ret errorResult).

(** The options that the client gets when nothing was parsed. *)
Definition defaults : Tavily.t :=
  Tavily.mk true (ofZ 3) "general" "basic" false (ofZ 3).

(** The events that are searches. *)
Definition isSearch (e : Event) : bool :=
  match e with
  | Searched _ _ => true
  | _ => false
  end.

Definition isAsk (e : Event) : bool :=
  match e with
  | AskedModel => true
  | _ => false
  end.

Definition isCallback (e : Event) : bool :=
  match e with
  | CalledBack _ => true
  | _ => false
  end.

(** A client that knows one page about everything and has no answer. *)
Definition terse : Client :=
  fun _ _ => Fulfilled (Some (mkSearchResponse None
                                [mkSearchResult "Home" "https://example.org"])).

(** A client that answers and knows two pages. *)
Definition helpful : Client :=
  fun _ _ =>
    Fulfilled (Some (mkSearchResponse (Some "42")
                       [mkSearchResult "Guide" "https://a.example";
                        mkSearchResult "FAQ" "https://b.example"])).

End WebSearch.

(* ------------------------------------------------------------------ *)
(** ** The chains of the server and their helpers                       *)
(* ------------------------------------------------------------------ *)

Module Chains.

Local Open Scope string_scope.
Local Open Scope bool_scope.

(** The chain objects of viem, by their names in the import. *)
Inductive Chain : Type :=
| base | mainnet | polygon | baseSepolia | sepolia | arbitrum | optimism
| scroll.

Module NativeToken.
Record t : Type := mk {
  symbol : string;
  name : string;
  coingeckoId : string;
  decimals : Z
}.
End NativeToken.

Module ChainConfig.
Record t : Type := mk {
  name : string;
  chain : Chain;
  rpcUrl : string -> string;
  explorerUrl : string;
  nativeToken : NativeToken.t;
  coingeckoPlatform : string
}.
End ChainConfig.

Definition ether : NativeToken.t :=
  NativeToken.mk "ETH" "Ethereum" "ethereum" 18.

(** [CHAIN_CONFIGS] (lines 30 to 135): the own properties of the object,
    in the order in which the literal creates them. *)
Definition CHAIN_CONFIGS : list (string * ChainConfig.t) :=
  [("base",
    ChainConfig.mk "Base" base
      (fun alchemyKey => "https://base-mainnet.g.alchemy.com/v2/" ++ alchemyKey)
      "https://basescan.org" ether "base");
   ("ethereum",
    ChainConfig.mk "Ethereum" mainnet
      (fun alchemyKey => "https://eth-mainnet.g.alchemy.com/v2/" ++ alchemyKey)
      "https://etherscan.io" ether "ethereum");
   ("polygon",
    ChainConfig.mk "Polygon" polygon
      (fun alchemyKey =>
         "https://polygon-mainnet.g.alchemy.com/v2/" ++ alchemyKey)
      "https://polygonscan.com"
      (NativeToken.mk "MATIC" "Polygon" "matic-network" 18) "polygon-pos");
   ("arbitrum",
    ChainConfig.mk "Arbitrum" arbitrum
      (fun alchemyKey => "https://arb-mainnet.g.alchemy.com/v2/" ++ alchemyKey)
      "https://arbiscan.io" ether "arbitrum-one");
   ("optimism",
    ChainConfig.mk "Optimism" optimism
      (fun alchemyKey => "https://opt-mainnet.g.alchemy.com/v2/" ++ alchemyKey)
      "https://optimistic.etherscan.io" ether "optimistic-ethereum");
   ("scroll",
    ChainConfig.mk "Scroll" scroll
      (fun alchemyKey =>
         "https://scroll-mainnet.g.alchemy.com/v2/" ++ alchemyKey)
      "https://scrollscan.com" ether "scroll");
   ("base-sepolia",
    ChainConfig.mk "Base Sepolia" baseSepolia
      (fun alchemyKey => "https://base-sepolia.g.alchemy.com/v2/" ++ alchemyKey)
      "https://sepolia.basescan.org" ether "base");
   ("ethereum-sepolia",
    ChainConfig.mk "Ethereum Sepolia" sepolia
      (fun alchemyKey => "https://eth-sepolia.g.alchemy.com/v2/" ++ alchemyKey)
      "https://sepolia.etherscan.io" ether "ethereum")].

Definition MAINNET_NETWORKS : list string :=
  ["base"; "ethereum"; "polygon"; "arbitrum"; "optimism"; "scroll"].

Definition TESTNET_NETWORKS : list string :=
  ["base-sepolia"; "ethereum-sepolia"].

(** [Object.keys(CHAIN_CONFIGS)]: none of the keys is an array index, so
    they come in the order of their creation. *)
Definition ALL_NETWORKS : list string := List.map fst CHAIN_CONFIGS.

(** The properties that an object literal inherits from
    [Object.prototype], which the program leaves as the language makes
    it.  Their values are functions, and for [__proto__] the prototype
    itself: all of them truthy, none of them with a property [chain],
    [rpcUrl], [explorerUrl], [nativeToken] or [coingeckoPlatform]. *)
Definition inheritedNames : list string :=
  ["constructor"; "__defineGetter__"; "__defineSetter__"; "hasOwnProperty";
   "__lookupGetter__"; "__lookupSetter__"; "isPrototypeOf";
   "propertyIsEnumerable"; "toString"; "valueOf"; "__proto__";
   "toLocaleString"].

(** [array.includes(x)] for strings. *)
Definition includes (l : list string) (x : string) : bool :=
  existsb (String.eqb x) l.

(** The value of [CHAIN_CONFIGS[network]]: an own property, an inherited
    one, or [undefined]. *)
Inductive Looked : Type :=
| Own (config : ChainConfig.t)
| Inherited (name : string)
| Absent.

Fixpoint own (network : string) (configs : list (string * ChainConfig.t))
  : option ChainConfig.t :=
  match configs with
  | [] => None
  | (key, config) :: rest =>
      if network =? key then Some config else own network rest
  end.

Definition lookup (network : string) : Looked :=
  match own network CHAIN_CONFIGS with
  | Some config => Own config
  | None => if includes inheritedNames network then Inherited network
            else Absent
  end.

(** [getChainConfig] (lines 155 to 157): every value found is truthy, so
    [|| null] only turns [undefined] into [null]. *)
Definition getChainConfig (network : string) : Looked := lookup network.



(** [getRpcUrl] (lines 170 to 173): calling the [rpcUrl] of a value that
    has none is a TypeError. *)
Definition getRpcUrl (network alchemyKey : string)
  : Completion (option string) :=
  match getChainConfig network with
  | Own config => Normal (Some (ChainConfig.rpcUrl config alchemyKey))
  | Inherited _ => Throw (mkError "config.rpcUrl is not a function")
  | Absent => Normal None
  end.






(** [isSupportedNetwork] (lines 218 to 220): [network in CHAIN_CONFIGS]. *)
Definition isSupportedNetwork (network : string) : bool :=
  match lookup network with
  | Own _ | Inherited _ => true
  | Absent => false
  end.

(** [isMainnet] and [isTestnet] (lines 225 to 234). *)
Definition isMainnet (network : string) : bool :=
  includes MAINNET_NETWORKS network.

Definition isTestnet (network : string) : bool :=
  includes TESTNET_NETWORKS network.

End Chains.

(* ================================================================== *)
(** * Part II. Properties                                              *)
(* ================================================================== *)

(* ------------------------------------------------------------------ *)
(** ** Strings                                                          *)
(* ------------------------------------------------------------------ *)

Section StringFacts.

Local Open Scope string_scope.

Lemma truthy_false_iff (s : string) : truthy s = false <-> s = "".
Proof.
  unfold truthy. destruct s; simpl; split; intro H;
    try reflexivity; discriminate.
Qed.

Lemma truthy_true_iff (s : string) : truthy s = true <-> s <> "".
Proof.
  unfold truthy. destruct s; simpl; split; intro H;
    try reflexivity; try discriminate; congruence.
Qed.

Lemma orElse_Some_empty (s : string) : orElse (Some s) "" = s.
Proof.
  unfold orElse. destruct (truthy s) eqn:E; [reflexivity|].
  apply truthy_false_iff in E. now subst.
Qed.

Lemma toLowerCase_empty_iff (s : string) : toLowerCase s = "" <-> s = "".
Proof. destruct s; simpl; split; intro H; try reflexivity; discriminate. Qed.







Lemma trimEnd_empty_iff (s : string) :
  trimEnd s = "" <-> allWhiteSpace s = true.
Proof.
  induction s as [|c s IH]; simpl; [tauto|].
  destruct (trimEnd s) eqn:E.
  - destruct (isWhiteSpace c); simpl.
    + split; intros _; [now apply IH | reflexivity].
    + split; intro H; discriminate.
  - split; intro H; [discriminate|].
    apply andb_true_iff in H as [_ H]. apply IH in H. discriminate.
Qed.

Lemma allWhiteSpace_trimStart (s : string) :
  allWhiteSpace (trimStart s) = allWhiteSpace s.
Proof.
  induction s as [|c s IH]; simpl; [reflexivity|].
  destruct (isWhiteSpace c) eqn:E; simpl; [exact IH | now rewrite E].
Qed.

(** [trim] returns the empty text on white space only, and only then. *)
Lemma trim_empty_iff (s : string) :
  trim s = "" <-> allWhiteSpace s = true.
Proof.
  unfold trim. rewrite trimEnd_empty_iff. now rewrite allWhiteSpace_trimStart.
Qed.

End StringFacts.

(* ------------------------------------------------------------------ *)
(** ** The resolver                                                     *)
(* ------------------------------------------------------------------ *)

Section ResolverFacts.

Import Resolver Spec.
Local Open Scope string_scope.

(** The loop that pushes one element per input is a [map]. *)
Lemma resolveAll_map (cache : list Protocol.t) (inputs : list string) :
  resolveAll cache inputs = List.map (resolveOne cache) inputs.
Proof.
  unfold resolveAll.
  enough (G : forall acc,
             fold_left (fun results raw => (results ++ [resolveOne cache raw])%list)
                       inputs acc
             = (acc ++ List.map (resolveOne cache) inputs)%list)
    by apply (G []).
  induction inputs as [|raw inputs IH]; intro acc; simpl.
  - now rewrite app_nil_r.
  - rewrite IH, <- app_assoc. reflexivity.
Qed.

Lemma scan_find (test : Protocol.t -> bool) (cache : list Protocol.t) :
  scan test cache = List.find test cache.
Proof. induction cache as [|p l IH]; simpl; [|rewrite IH]; reflexivity. Qed.

Lemma scan_ext (f g : Protocol.t -> bool) (cache : list Protocol.t) :
  (forall p, f p = g p) -> scan f cache = scan g cache.
Proof.
  intro H. induction cache as [|p l IH]; simpl; [reflexivity|].
  now rewrite H, IH.
Qed.

Lemma find_Some_firstIn (test : Protocol.t -> bool) l p :
  List.find test l = Some p <-> firstIn test l p.
Proof.
  split.
  - induction l as [|x l IH]; simpl; [discriminate|].
    destruct (test x) eqn:E; intro H.
    + injection H as <-. exists [], l. repeat split; auto. intros y [].
    + destruct (IH H) as (before & after & -> & Hp & Hb).
      exists (x :: before), after. repeat split; auto.
      intros y [<-|Hy]; auto.
  - intros (before & after & -> & Hp & Hb).
    induction before as [|x before IH]; simpl.
    + now rewrite Hp.
    + rewrite (Hb x (or_introl eq_refl)). apply IH.
      intros y Hy. apply Hb. now right.
Qed.

Lemma find_None_noneIn (test : Protocol.t -> bool) l :
  List.find test l = None <-> noneIn test l.
Proof.
  split.
  - intros H x Hx. exact (find_none _ _ H x Hx).
  - intro H. induction l as [|x l IH]; simpl; [reflexivity|].
    rewrite (H x (or_introl eq_refl)). apply IH.
    intros y Hy. apply H. now right.
Qed.

(** The function [firstTier] computes the relation [wins]. *)
Lemma firstTier_Some_iff (tiers : list Tier) q generation p :
  firstTier tiers q generation = Some p <->
  exists earlier t later,
    tiers = (earlier ++ t :: later)%list
    /\ (forall t', In t' earlier -> noneIn (tierMatch t' q) generation)
    /\ firstIn (tierMatch t q) generation p.
Proof.
  induction tiers as [|t0 tiers IH]; simpl.
  - split; [discriminate|]. intros (e & t & l & H & _). now destruct e.
  - destruct (List.find (tierMatch t0 q) generation) as [p0|] eqn:E.
    + split.
      * intro H. injection H as <-.
        exists [], t0, tiers. repeat split; [intros t' [] |].
        now apply find_Some_firstIn.
      * intros (e & t & l & H & Hnone & Hfirst).
        destruct e as [|t1 e]; simpl in H; injection H as <- Ht.
        -- apply find_Some_firstIn in Hfirst. congruence.
        -- specialize (Hnone t0 (or_introl eq_refl)).
           apply find_None_noneIn in Hnone. congruence.
    + rewrite IH. split.
      * intros (e & t & l & -> & Hnone & Hfirst).
        exists (t0 :: e), t, l. repeat split; auto.
        intros t' [<-|Ht']; [now apply find_None_noneIn | now apply Hnone].
      * intros (e & t & l & H & Hnone & Hfirst).
        destruct e as [|t1 e]; simpl in H; injection H as <- Ht.
        -- apply find_Some_firstIn in Hfirst. congruence.
        -- exists e, t, l. repeat split; auto.
           intros t' Ht'. apply Hnone. now right.
Qed.

Lemma firstTier_None_iff (tiers : list Tier) q generation :
  firstTier tiers q generation = None <->
  forall t, In t tiers -> noneIn (tierMatch t q) generation.
Proof.
  induction tiers as [|t0 tiers IH]; simpl.
  - split; [intros _ t [] | reflexivity].
  - destruct (List.find (tierMatch t0 q) generation) as [p0|] eqn:E.
    + split; [discriminate|]. intro H.
      specialize (H t0 (or_introl eq_refl)).
      apply find_None_noneIn in H. congruence.
    + rewrite IH. split.
      * intros H t [<-|Ht]; [now apply find_None_noneIn | now apply H].
      * intros H t Ht. apply H. now right.
Qed.

(** For a query that is not empty, the conditions of the five loops are
    the five tiers. *)
Lemma eqb_nonempty_guard (s qLower : string) :
  qLower <> "" -> (truthy s && (s =? qLower))%bool = (qLower =? s).
Proof.
  intro Hq. rewrite (String.eqb_sym qLower s).
  destruct (truthy s) eqn:E; simpl; [reflexivity|].
  apply truthy_false_iff in E. subst s. symmetry.
  apply String.eqb_neq. congruence.
Qed.

Lemma prefix_nonempty_of_empty (qLower : string) :
  qLower <> "" -> String.prefix qLower "" = false.
Proof. destruct qLower; [congruence | reflexivity]. Qed.

Lemma lowered_field (x : option string) (q : string) (f : string -> string -> bool) :
  (f (toLowerCase q) "" = false) ->
  f (toLowerCase q) (toLowerCase (orElse x ""))
  = fieldMatches (fun s => f (toLowerCase q) (toLowerCase s)) x.
Proof.
  intro H. destruct x as [s|]; cbn [fieldMatches]; [|exact H].
  now rewrite orElse_Some_empty.
Qed.

Lemma slugLower_orElse (p : Protocol.t) :
  slugLower p = toLowerCase (orElse (Protocol.slug p) "").
Proof.
  unfold slugLower, orElse. destruct (Protocol.slug p) as [s|]; [|reflexivity].
  destruct (truthy s); reflexivity.
Qed.

Section Tiers.
Variable q : string.
Hypothesis q_nonempty : q <> "".

Let qLower_nonempty : toLowerCase q <> "".
Proof. now rewrite toLowerCase_empty_iff. Qed.

Let eq_empty : (toLowerCase q =? "") = false.
Proof. now apply String.eqb_neq. Qed.

Lemma nameIs_tier p : nameIs (toLowerCase q) p = tierMatch ExactName q p.
Proof.
  unfold nameIs; simpl. rewrite String.eqb_sym.
  now rewrite (lowered_field _ _ String.eqb eq_empty).
Qed.

Lemma symbolIs_tier p : symbolIs (toLowerCase q) p = tierMatch ExactSymbol q p.
Proof.
  unfold symbolIs; simpl. rewrite eqb_nonempty_guard by assumption.
  now rewrite (lowered_field _ _ String.eqb eq_empty).
Qed.

Lemma slugIs_tier p : slugIs (toLowerCase q) p = tierMatch ExactSlug q p.
Proof.
  unfold slugIs; simpl. rewrite eqb_nonempty_guard by assumption.
  rewrite slugLower_orElse.
  now rewrite (lowered_field _ _ String.eqb eq_empty).
Qed.

Lemma nameStarts_tier p : nameStarts (toLowerCase q) p = tierMatch NamePrefix q p.
Proof.
  unfold nameStarts, startsWith; simpl.
  now rewrite (lowered_field _ _ String.prefix
                 (prefix_nonempty_of_empty qLower_nonempty)).
Qed.

Lemma slugStarts_tier p : slugStarts (toLowerCase q) p = tierMatch SlugPrefix q p.
Proof.
  unfold slugStarts, startsWith; simpl. rewrite slugLower_orElse.
  now rewrite (lowered_field _ _ String.prefix
                 (prefix_nonempty_of_empty qLower_nonempty)).
Qed.

(** The five passes compute [firstTier] over the five tiers. *)
Lemma pick_firstTier cache :
  pick cache (toLowerCase q) = firstTier tierOrder q cache.
Proof.
  unfold pick, tierOrder, firstTier, unlessPicked.
  rewrite (scan_ext _ _ cache nameIs_tier),
          (scan_ext _ _ cache symbolIs_tier),
          (scan_ext _ _ cache slugIs_tier),
          (scan_ext _ _ cache nameStarts_tier),
          (scan_ext _ _ cache slugStarts_tier).
  rewrite !scan_find.
  repeat match goal with
         | |- context [List.find ?f cache] => destruct (List.find f cache)
         end; reflexivity.
Qed.

Lemma pick_wins cache p :
  pick cache (toLowerCase q) = Some p <-> wins q cache p.
Proof. rewrite pick_firstTier. apply firstTier_Some_iff. Qed.

Lemma pick_noMatch cache :
  pick cache (toLowerCase q) = None <-> noMatch q cache.
Proof. rewrite pick_firstTier. apply firstTier_None_iff. Qed.
End Tiers.

(** What [resolveOne] pushes, case by case. *)
Lemma resolveOne_blank cache raw :
  trim raw = "" ->
  resolveOne cache raw = mkResult "" false None (Some "Empty protocol name").
Proof.
  intro H. unfold resolveOne. rewrite orElse_Some_empty, H. reflexivity.
Qed.

Lemma resolveOne_nonblank cache raw :
  trim raw <> "" ->
  resolveOne cache raw =
  match pick cache (toLowerCase (trim raw)) with
  | Some p => mkResult (trim raw) true (Some (shapeProtocol p)) None
  | None => mkResult (trim raw) false None
                     (Some ("No protocol match for: " ++ trim raw))
  end.
Proof.
  intro H. unfold resolveOne. rewrite orElse_Some_empty.
  apply truthy_true_iff in H. now rewrite H.
Qed.

Lemma resolveOne_id cache raw : id (resolveOne cache raw) = trim raw.
Proof.
  destruct (string_dec (trim raw) "") as [E|E].
  - rewrite (resolveOne_blank _ _ E). now rewrite E.
  - rewrite (resolveOne_nonblank _ _ E).
    now destruct (pick cache (toLowerCase (trim raw))).
Qed.

End ResolverFacts.

(* ------------------------------------------------------------------ *)
(** ** The cached index                                                 *)
(* ------------------------------------------------------------------ *)

(** Unfolds the worlds of [Steps] down to the fields of the record. *)
Ltac unfold_step :=
  unfold Steps.afterGivingUp, Steps.afterRetry, Steps.afterLoad;
  cbn [DefiLlama.logs DefiLlama.fetched DefiLlama.ttlMs DefiLlama.cache
       DefiLlama.cacheTimestampMs DefiLlama.clock DefiLlama.drawn].

Section IndexFacts.

Import DefiLlama Spec Steps.
Local Open Scope Z_scope.

Variable env : Env.

(** One attempt, in closed form. *)
Lemma attemptOnce_eq (attempt : Z) (w : World) :
  attemptOnce env attempt w =
  let o := net env (fetched w) in
  if attemptFails o then
    if attempt =? maxAttempts
    then (Normal Break, afterGivingUp env (failureMessage o) w)
    else (Normal Continue, afterRetry env attempt (failureMessage o) w)
  else (Normal Return, afterLoad env attempt (delivered o) w).
Proof.
  unfold attemptOnce, try_catch, bind, fetch, log, modify, json, throw, ret,
    setCache, setCacheTimestampMs, DateNow, get, MathRandom, sleep,
    afterGivingUp, afterRetry, afterLoad; cbn.
  destruct (net env (fetched w)) as [msg|[o s st b]]; cbn.
  - destruct (Z.eqb_spec attempt maxAttempts) as [->|_]; cbn;
      rewrite <- ?app_assoc; reflexivity.
  - destruct o; cbn.
    + destruct b; cbn.
      * destruct (Z.eqb_spec attempt maxAttempts) as [->|_]; cbn;
          rewrite <- ?app_assoc; reflexivity.
      * rewrite <- app_assoc. reflexivity.
      * rewrite <- app_assoc. reflexivity.
    + destruct (Z.eqb_spec attempt maxAttempts) as [->|_]; cbn;
        rewrite <- ?app_assoc; reflexivity.
Qed.

Lemma retryLoop_cons (attempt : Z) (rest : list Z) (w : World) :
  retryLoop env (attempt :: rest) w =
  let o := net env (fetched w) in
  if attemptFails o then
    if attempt =? maxAttempts
    then (Normal tt, afterGivingUp env (failureMessage o) w)
    else retryLoop env rest (afterRetry env attempt (failureMessage o) w)
  else (Normal tt, afterLoad env attempt (delivered o) w).
Proof.
  cbn [retryLoop]. unfold bind at 1. rewrite attemptOnce_eq. cbv zeta.
  destruct (attemptFails (net env (fetched w)));
    [destruct (attempt =? maxAttempts)|]; reflexivity.
Qed.

Lemma attempts_eq : attempts = [1; 2; 3; 4; 5].
Proof. reflexivity. Qed.

Lemma refreshesStarted_app (l l' : list LogEntry) :
  refreshesStarted (l ++ l') = (refreshesStarted l + refreshesStarted l')%nat.
Proof. unfold refreshesStarted. now rewrite filter_app, length_app. Qed.

Lemma refreshesStarted_attempt (logs0 : list LogEntry) (attempt : Z)
  (e : LogEntry) :
  opensRefresh e = false ->
  refreshesStarted (logs0 ++ [DebugLoading attempt maxAttempts url; e])
  = (refreshesStarted logs0 + (if (attempt =? 1)%Z then 1 else 0))%nat.
Proof.
  intro He. rewrite refreshesStarted_app. f_equal.
  unfold refreshesStarted. cbn [filter opensRefresh]. rewrite He.
  now destruct (attempt =? 1).
Qed.

(** The retry loop always completes normally; it leaves the TTL alone,
    calls [fetch] at least once and at most once per attempt, and opens a
    refresh in the log only if it makes attempt number one. *)
Lemma retryLoop_completes (todo : list Z) :
  forall w, exists w',
    retryLoop env todo w = (Normal tt, w')
    /\ ttlMs w' = ttlMs w
    /\ (fetched w <= fetched w' <= fetched w + List.length todo)%nat
    /\ (todo <> [] -> fetched w < fetched w')%nat
    /\ (~ In 1 todo ->
        refreshesStarted (logs w') = refreshesStarted (logs w)).
Proof.
  induction todo as [|attempt rest IH]; intro w.
  - exists w. cbn. repeat split; try lia. congruence.
  - rewrite retryLoop_cons. cbv zeta.
    destruct (attemptFails (net env (fetched w))).
    + destruct (Z.eqb_spec attempt maxAttempts) as [->|_].
      * eexists. split; [reflexivity|]. unfold_step. cbn [List.length].
        repeat split; try lia.
        intros _. rewrite refreshesStarted_attempt by reflexivity.
        change (maxAttempts =? 1) with false. cbv iota. lia.
      * destruct (IH (afterRetry env attempt
                        (failureMessage (net env (fetched w))) w))
          as (w' & E & Httl & Hf & _ & Hlog).
        exists w'. split; [exact E|]. revert Httl Hf Hlog. unfold_step.
        cbn [List.length]. intros Httl Hf Hlog.
        repeat split; try lia; try assumption.
        intro H. rewrite Hlog by (intro; apply H; now right).
        rewrite refreshesStarted_attempt by reflexivity.
        destruct (Z.eqb_spec attempt 1) as [->|_]; [|lia].
        exfalso. apply H. now left.
    + eexists. split; [reflexivity|]. unfold_step. cbn [List.length].
      repeat split; try lia.
      intro H. rewrite refreshesStarted_attempt by reflexivity.
      destruct (Z.eqb_spec attempt 1) as [->|_]; [|lia].
      exfalso. apply H. now left.
Qed.

(** [loadIndex] never throws; it opens exactly one refresh in the log and
    calls [fetch] between one and five times. *)
Lemma loadIndex_completes (w : World) :
  exists w',
    loadIndex env w = (Normal tt, w')
    /\ ttlMs w' = ttlMs w
    /\ (fetched w + 1 <= fetched w' <= fetched w + 5)%nat
    /\ refreshesStarted (logs w') = S (refreshesStarted (logs w)).
Proof.
  unfold loadIndex. rewrite attempts_eq, retryLoop_cons. cbv zeta.
  destruct (attemptFails (net env (fetched w))).
  - change (1 =? maxAttempts) with false. cbv iota.
    destruct (retryLoop_completes [2; 3; 4; 5]
                (afterRetry env 1 (failureMessage (net env (fetched w))) w))
      as (w' & E & Httl & Hf & _ & Hlog).
    exists w'. split; [exact E|]. revert Httl Hf Hlog. unfold_step.
    cbn [List.length]. intros Httl Hf Hlog.
    repeat split; try lia; auto.
    rewrite Hlog by (intros [H|[H|[H|[H|[]]]]]; discriminate H).
    rewrite refreshesStarted_attempt by reflexivity. cbn. lia.
  - eexists. split; [reflexivity|]. unfold_step. repeat split; try lia.
    rewrite refreshesStarted_attempt by reflexivity. cbn. lia.
Qed.

(** When the five attempts fail, the run of [loadIndex] is four retries
    and a last attempt. *)
Lemma loadIndex_exhausted (w : World) :
  (forall i, (i < 5)%nat -> attemptFails (net env (fetched w + i)) = true) ->
  let m i := failureMessage (net env (fetched w + i)) in
  loadIndex env w =
  (Normal tt,
   afterGivingUp env (m 4%nat)
     (afterRetry env 4 (m 3%nat)
        (afterRetry env 3 (m 2%nat)
           (afterRetry env 2 (m 1%nat)
              (afterRetry env 1 (m 0%nat) w))))).
Proof.
  intros H m. unfold loadIndex. rewrite attempts_eq.
  pose proof (H 0%nat ltac:(lia)) as H0. pose proof (H 1%nat ltac:(lia)) as H1.
  pose proof (H 2%nat ltac:(lia)) as H2. pose proof (H 3%nat ltac:(lia)) as H3.
  pose proof (H 4%nat ltac:(lia)) as H4.
  rewrite Nat.add_0_r in H0.
  replace (fetched w + 1)%nat with (S (fetched w)) in * by lia.
  replace (fetched w + 2)%nat with (S (S (fetched w))) in * by lia.
  replace (fetched w + 3)%nat with (S (S (S (fetched w)))) in * by lia.
  replace (fetched w + 4)%nat with (S (S (S (S (fetched w))))) in * by lia.
  subst m. cbv beta.
  rewrite Nat.add_0_r.
  replace (fetched w + 1)%nat with (S (fetched w)) by lia.
  replace (fetched w + 2)%nat with (S (S (fetched w))) by lia.
  replace (fetched w + 3)%nat with (S (S (S (fetched w)))) by lia.
  replace (fetched w + 4)%nat with (S (S (S (S (fetched w))))) by lia.
  rewrite retryLoop_cons; cbv zeta; rewrite H0.
  change (1 =? maxAttempts) with false; cbv iota.
  rewrite retryLoop_cons; cbv zeta; cbn [fetched afterRetry]; rewrite H1.
  change (2 =? maxAttempts) with false; cbv iota.
  rewrite retryLoop_cons; cbv zeta; cbn [fetched afterRetry]; rewrite H2.
  change (3 =? maxAttempts) with false; cbv iota.
  rewrite retryLoop_cons; cbv zeta; cbn [fetched afterRetry]; rewrite H3.
  change (4 =? maxAttempts) with false; cbv iota.
  rewrite retryLoop_cons; cbv zeta; cbn [fetched afterRetry]; rewrite H4.
  change (5 =? maxAttempts) with true; cbv iota.
  reflexivity.
Qed.

(** [ensureFresh] is [loadIndex] on a stale generation and nothing
    otherwise. *)
Lemma ensureFresh_eq (w : World) :
  ensureFresh env w =
  if stale (clock w) w then loadIndex env w else (Normal tt, w).
Proof.
  unfold ensureFresh, bind, DateNow, get. cbn.
  now destruct (stale (clock w) w).
Qed.

Lemma ensureFresh_completes (w : World) :
  exists w', ensureFresh env w = (Normal tt, w').
Proof.
  rewrite ensureFresh_eq. destruct (stale (clock w) w).
  - destruct (loadIndex_completes w) as (w' & E & _). now exists w'.
  - now exists w.
Qed.

(** [getProtocolsByNames] answers from the generation that [ensureFresh]
    leaves. *)
Lemma getProtocolsByNames_eq (names : list string) (w w' : World) :
  ensureFresh env w = (Normal tt, w') ->
  getProtocolsByNames env names w =
  (Normal (List.map (Resolver.resolveOne (cache w')) names), w').
Proof.
  intro E. unfold getProtocolsByNames, bind, get, ret. rewrite E.
  now rewrite resolveAll_map.
Qed.

End IndexFacts.

(* ------------------------------------------------------------------ *)
(** ** Claims about the resolver                                        *)
(* ------------------------------------------------------------------ *)

Section ResolverClaims.

Import DefiLlama Resolver Spec.
Local Open Scope string_scope.

Lemma blank_trim (raw : string) : blank raw = true <-> trim raw = "".
Proof. unfold blank. symmetry. apply trim_empty_iff. Qed.

Lemma nonblank_trim (raw : string) : blank raw = false <-> trim raw <> "".
Proof.
  rewrite <- blank_trim. destruct (blank raw); split; congruence.
Qed.



(** C1. For every list of queries, [getProtocolsByNames] returns one
    result per query, in the order of the queries: the result list has
    the length of the input list, and the result at each position is the
    resolution of the query at that position, whose [id] is that query
    with its surrounding white space removed. *)
Theorem one_result_per_query_in_order :
  forall (env : Env) (names : list string) (w : World),
  exists results w',
    getProtocolsByNames env names w = (Normal results, w')
    /\ List.length results = List.length names
    /\ forall i raw,
         nth_error names i = Some raw ->
         exists r,
           nth_error results i = Some r
           /\ r = resolveOne (cache w') raw
           /\ id r = trim raw.
Proof.
  intros env names w.
  destruct (ensureFresh_completes env w) as (w' & E).
  exists (List.map (resolveOne (cache w')) names), w'.
  split; [now apply getProtocolsByNames_eq|].
  split; [apply length_map|].
  intros i raw H. exists (resolveOne (cache w') raw).
  split; [now apply map_nth_error|].
  split; [reflexivity | apply resolveOne_id].
Qed.

Lemma one_result_per_query_in_order_witness :
  exists results w',
    getProtocolsByNames Examples.offline [" Aave"; "zzz"] Examples.aaveWorld
    = (Normal results, w')
    /\ List.length results = 2%nat
    /\ List.map id results = ["Aave"; "zzz"].
Proof.
  destruct (one_result_per_query_in_order
              Examples.offline [" Aave"; "zzz"] Examples.aaveWorld)
    as (results & w' & E & Hlen & Hnth).
  exists results, w'. split; [exact E|]. split; [exact Hlen|].
  destruct (Hnth 0%nat " Aave" eq_refl) as (r0 & H0 & _ & I0).
  destruct (Hnth 1%nat "zzz" eq_refl) as (r1 & H1 & _ & I1).
  destruct results as [|a [|b [|c rest]]]; try discriminate Hlen.
  cbn in H0, H1. injection H0 as ->. injection H1 as ->.
  cbn [List.map]. now rewrite I0, I1.
Defined.

(** C2. For a query that is not blank, the record that answers it is the
    one that wins under the rule of the specification: the tiers exact
    name, exact symbol, exact slug, name prefix, slug prefix are tried in
    that order without regard to case, the first tier with a match wins,
    and in it the first record in generation order.  With the records
    named "Aave" and "Aave V2" in that order, the query "Aave" is answered
    by the record "Aave", and so is the query "aa". *)
Theorem tiered_matching_first_tier_first_record :
  (forall (cache : list Protocol.t) (raw : string),
      blank raw = false ->
      (forall p, pick cache (toLowerCase (trim raw)) = Some p
                 <-> wins (trim raw) cache p)
      /\ resolveOne cache raw =
         match firstTier tierOrder (trim raw) cache with
         | Some p => mkResult (trim raw) true (Some (shapeProtocol p)) None
         | None => mkResult (trim raw) false None
                     (Some ("No protocol match for: " ++ trim raw))
         end)
  /\ (forall env : Env,
         getProtocolsByNames env ["Aave"; "aa"] Examples.aaveWorld
         = (Normal [mkResult "Aave" true
                      (Some (shapeProtocol (named "Aave"))) None;
                    mkResult "aa" true
                      (Some (shapeProtocol (named "Aave"))) None],
            Examples.aaveWorld)).
Proof.
  split.
  - intros cache raw H. apply nonblank_trim in H. split.
    + intro p. now apply pick_wins.
    + rewrite (resolveOne_nonblank _ _ H). now rewrite pick_firstTier.
  - intro env. reflexivity.
Qed.

Lemma tiered_matching_witness :
  blank " CRV " = false
  /\ resolveOne Examples.aaveRecords " CRV "
     = mkResult "CRV" false None (Some "No protocol match for: CRV").
Proof.
  split; [reflexivity|].
  destruct tiered_matching_first_tier_first_record as [H _].
  destruct (H Examples.aaveRecords " CRV " eq_refl) as [_ ->].
  reflexivity.
Defined.

(** C9. A query that is blank fails with the same result whatever the
    generation holds (the freshness check of the call is made once,
    before the loop over the queries, and does not look at them); a query that is not blank and that no tier matches
    fails with a message that names it; in both cases the queries before
    and after it in the batch get the results they get without it, and
    the call returns normally. *)
Theorem blank_and_unmatched_queries_fail_alone :
  forall (env : Env) (before : list string) (raw : string)
         (after : list string) (w : World),
  exists resultsBefore r resultsAfter w',
    getProtocolsByNames env (before ++ raw :: after)%list w
    = (Normal (resultsBefore ++ r :: resultsAfter)%list, w')
    /\ getProtocolsByNames env before w = (Normal resultsBefore, w')
    /\ getProtocolsByNames env after w = (Normal resultsAfter, w')
    /\ (blank raw = true ->
        r = mkResult "" false None (Some "Empty protocol name")
        /\ forall generation, resolveOne generation raw = r)
    /\ (blank raw = false -> noMatch (trim raw) (cache w') ->
        r = mkResult (trim raw) false None
              (Some ("No protocol match for: " ++ trim raw))).
Proof.
  intros env before raw after w.
  destruct (ensureFresh_completes env w) as (w' & E).
  exists (List.map (resolveOne (cache w')) before),
         (resolveOne (cache w') raw),
         (List.map (resolveOne (cache w')) after), w'.
  rewrite !(fun names => getProtocolsByNames_eq env names w E), map_app.
  repeat split.
  - apply resolveOne_blank. now apply blank_trim.
  - intro generation. apply blank_trim in H.
    now rewrite !(resolveOne_blank _ _ H).
  - intros Hb Hno. apply nonblank_trim in Hb.
    rewrite (resolveOne_nonblank _ _ Hb).
    apply (pick_noMatch Hb) in Hno. now rewrite Hno.
Qed.

Lemma blank_and_unmatched_queries_fail_alone_witness :
  exists w',
    getProtocolsByNames Examples.offline ["Aave"; "   "; "zzz"]
                        Examples.aaveWorld
    = (Normal [mkResult "Aave" true (Some (shapeProtocol (named "Aave"))) None;
               mkResult "" false None (Some "Empty protocol name");
               mkResult "zzz" false None (Some "No protocol match for: zzz")],
       w').
Proof.
  destruct (blank_and_unmatched_queries_fail_alone
              Examples.offline ["Aave"] "   " ["zzz"] Examples.aaveWorld)
    as (rb & r & ra & w' & E & Eb & Ea & Hblank & _).
  exists w'. cbn [app] in E. rewrite E.
  destruct (Hblank eq_refl) as [-> _].
  injection Eb as <- <-. injection Ea as <-.
  reflexivity.
Defined.



End ResolverClaims.

(* ------------------------------------------------------------------ *)
(** ** Claims about the cached index                                    *)
(* ------------------------------------------------------------------ *)

Section IndexClaims.

Import DefiLlama Spec Steps.
Local Open Scope Z_scope.

Lemma cons_snoc (A : Type) (a : A) (l init : list A) (z : A) :
  l = (init ++ [z])%list -> a :: l = ((a :: init) ++ [z])%list.
Proof. now intros ->. Qed.

Lemma gtb_age (d : Z) (w : World) :
  gtb (ofZ d) (ttlMs w) = true <->
  match ttlMs w with
  | Fin ttl => (ttl < inject_Z d)%Q
  | NegInf => True
  | PosInf | NaN => False
  end.
Proof.
  unfold ofZ. destruct (ttlMs w) as [| | |ttl]; cbn;
    try (split; [discriminate | tauto]); try tauto.
  rewrite negb_true_iff. split; intro H.
  - apply Qnot_le_lt. intro Hle. apply Qle_bool_iff in Hle. congruence.
  - destruct (Qle_bool (inject_Z d) ttl) eqn:E; [|reflexivity].
    apply Qle_bool_iff in E. exfalso. now apply (Qlt_not_le _ _ H).
Qed.

Lemma stale_iff (now : Z) (w : World) :
  stale now w = true <-> cache w = [] \/ ageExceedsTtl now w.
Proof.
  unfold stale, ageExceedsTtl. rewrite orb_true_iff, gtb_age, Nat.eqb_eq.
  rewrite length_zero_iff_nil. reflexivity.
Qed.

(** C4. When the fetch of the catalog fails on each of the five attempts
    that [loadIndex] makes, the run ends normally after exactly five
    calls of [fetch]; the cached records and their timestamp are what
    they were; the entry logged last is the error report; and the same
    holds of [ensureFresh] and of [getProtocolsByNames], which return
    normally with the generation unchanged. *)
Theorem retry_exhaustion_keeps_generation :
  forall (env : Env) (w : World),
    (forall i, (i < 5)%nat ->
               attemptFails (net env (fetched w + i)) = true) ->
    (exists w',
        loadIndex env w = (Normal tt, w')
        /\ cache w' = cache w
        /\ cacheTimestampMs w' = cacheTimestampMs w
        /\ fetched w' = (fetched w + 5)%nat
        /\ exists earlier msg,
             logs w' = (logs w ++ earlier ++ [ErrorFailed maxAttempts msg])%list)
    /\ (exists w',
           ensureFresh env w = (Normal tt, w')
           /\ cache w' = cache w
           /\ cacheTimestampMs w' = cacheTimestampMs w)
    /\ (forall names, exists w',
           getProtocolsByNames env names w
           = (Normal (List.map (Resolver.resolveOne (cache w)) names), w')
           /\ cache w' = cache w
           /\ cacheTimestampMs w' = cacheTimestampMs w).
Proof.
  intros env w H.
  pose proof (loadIndex_exhausted env w H) as E. cbv zeta in E.
  assert (L : exists w',
             loadIndex env w = (Normal tt, w')
             /\ cache w' = cache w
             /\ cacheTimestampMs w' = cacheTimestampMs w
             /\ fetched w' = (fetched w + 5)%nat
             /\ exists earlier msg,
                  logs w' = (logs w ++ earlier
                             ++ [ErrorFailed maxAttempts msg])%list).
  { eexists. split; [exact E|]. clear E H. unfold_step.
    split; [reflexivity|]. split; [reflexivity|]. split; [lia|].
    rewrite <- !app_assoc. cbn [app].
    eexists. eexists. f_equal.
    do 9 eapply cons_snoc. symmetry. apply app_nil_l. }
  assert (F : exists w',
             ensureFresh env w = (Normal tt, w')
             /\ cache w' = cache w
             /\ cacheTimestampMs w' = cacheTimestampMs w).
  { rewrite ensureFresh_eq. destruct (stale (clock w) w).
    - destruct L as (w' & EL & Hc & Ht & _). now exists w'.
    - now exists w. }
  split; [exact L|]. split; [exact F|].
  intro names. destruct F as (w' & EF & Hc & Ht).
  exists w'. rewrite (getProtocolsByNames_eq env names w EF), Hc. auto.
Qed.

Lemma retry_exhaustion_keeps_generation_witness :
  exists w',
    loadIndex Examples.offline Examples.aaveWorldLater = (Normal tt, w')
    /\ cache w' = Examples.aaveRecords
    /\ cacheTimestampMs w' = 1000.
Proof.
  destruct (retry_exhaustion_keeps_generation
              Examples.offline Examples.aaveWorldLater)
    as ((w' & E & Hc & Ht & _) & _).
  - intros i _. reflexivity.
  - exists w'. repeat split; assumption.
Defined.

(** C5. [ensureFresh] starts a refresh exactly when the cached generation
    is empty or older than the TTL, which is 300000 ms unless configured:
    on a stale generation it runs [loadIndex] once (one refresh opened in
    the log, between one and five calls of [fetch]), on a fresh one it
    changes nothing; and [getProtocolsByNames] answers from the
    generation that this one step leaves. *)
Theorem refresh_exactly_when_stale :
  forall (env : Env) (w : World),
    (stale (clock w) w = true
     <-> cache w = [] \/ ageExceedsTtl (clock w) w)
    /\ (forall t0, ttlMs (constructed t0) = ofZ 300000)
    /\ exists w',
         ensureFresh env w = (Normal tt, w')
         /\ refreshesStarted (logs w')
            = (refreshesStarted (logs w)
               + (if stale (clock w) w then 1 else 0))%nat
         /\ (stale (clock w) w = false -> w' = w)
         /\ (stale (clock w) w = true ->
             loadIndex env w = (Normal tt, w')
             /\ (fetched w + 1 <= fetched w' <= fetched w + 5)%nat)
         /\ forall names,
              getProtocolsByNames env names w
              = (Normal (List.map (Resolver.resolveOne (cache w')) names), w')
              /\ refreshesStarted (logs w')
                 = (refreshesStarted (logs w)
                    + (if stale (clock w) w then 1 else 0))%nat.
Proof.
  intros env w. split; [apply stale_iff|]. split; [reflexivity|].
  pose proof (ensureFresh_eq env w) as E.
  destruct (stale (clock w) w) eqn:S.
  - destruct (loadIndex_completes env w) as (w' & EL & _ & Hf & Hlog).
    rewrite EL in E. exists w'.
    split; [exact E|]. split; [lia|]. split; [discriminate|].
    split; [auto|]. intro names.
    split; [now apply getProtocolsByNames_eq | lia].
  - exists w. split; [exact E|]. split; [lia|]. split; [reflexivity|].
    split; [discriminate|]. intro names.
    split; [now apply getProtocolsByNames_eq | lia].
Qed.

Lemma refresh_exactly_when_stale_witness :
  stale 400000 Examples.aaveWorldLater = true
  /\ stale 2000 Examples.aaveWorld = false
  /\ ensureFresh Examples.offline Examples.aaveWorld
     = (Normal tt, Examples.aaveWorld).
Proof.
  split; [reflexivity|]. split; [reflexivity|].
  destruct (refresh_exactly_when_stale Examples.offline Examples.aaveWorld)
    as (_ & _ & w' & E & _ & Hfresh & _).
  rewrite E. now rewrite (Hfresh eq_refl).
Defined.

End IndexClaims.

(* ------------------------------------------------------------------ *)
(** ** [Number] reads back the decimal text of an integer               *)
(* ------------------------------------------------------------------ *)

(** Evaluates the value of a digit that is a literal. *)
Ltac eval_digit :=
  match goal with
  | |- context [digitValue 10 ?c] =>
      let v := eval vm_compute in (digitValue 10 c) in
      change (digitValue 10 c) with v
  end; cbv iota beta.

Section NumberFacts.

Local Open Scope Z_scope.

Local Abbreviation text := NilEmpty.string_of_uint.

Lemma readDigits_text_acc (d : Decimal.uint) :
  forall (acc : positive) (count : nat),
    readDigits 10 (text d) (Zpos acc) count
    = (Zpos (Pos.of_uint_acc d acc), (count + Decimal.nb_digits d)%nat,
       EmptyString).
Proof.
  induction d; intros acc count;
    cbn [NilEmpty.string_of_uint readDigits Pos.of_uint_acc Decimal.nb_digits];
    [now rewrite Nat.add_0_r| ..];
    eval_digit;
    match goal with
    | |- readDigits _ _ ?a _ = (Zpos (Pos.of_uint_acc _ ?b), _, _) =>
        replace a with (Zpos b) by lia
    end;
    rewrite IHd; f_equal; f_equal; lia.
Qed.

Lemma readDigits_text (d : Decimal.uint) :
  forall count : nat,
    readDigits 10 (text d) 0 count
    = (Z.of_N (Pos.of_uint d), (count + Decimal.nb_digits d)%nat,
       EmptyString).
Proof.
  induction d; intro count;
    cbn [NilEmpty.string_of_uint readDigits Pos.of_uint Decimal.nb_digits Z.of_N];
    [now rewrite Nat.add_0_r| ..];
    eval_digit.
  1: { change (0 * 10 + 0) with 0. rewrite IHd. f_equal. f_equal. lia. }
  all: match goal with
       | |- readDigits _ _ ?a _ = _ =>
           let v := eval cbv in a in change a with v
       end;
       rewrite readDigits_text_acc; f_equal; f_equal; lia.
Qed.
Lemma trim_text (d : Decimal.uint) : trim (text d) = text d.
Proof.
  unfold trim.
  assert (S : trimStart (text d) = text d) by (destruct d; reflexivity).
  rewrite S. clear S.
  induction d; cbn [NilEmpty.string_of_uint trimEnd]; [reflexivity| ..];
    rewrite IHd; now destruct (text d).
Qed.

Lemma nonDecimal_text (d : Decimal.uint) :
  nonDecimalIntegerLiteral (text d) = None.
Proof. destruct d as [|d| | | | | | | | |]; try reflexivity. now destruct d. Qed.

Lemma text_nonempty (d : Decimal.uint) :
  d <> Decimal.Nil -> text d <> EmptyString.
Proof. destruct d; cbn; congruence. Qed.

Lemma Qred_inject_Z (n : Z) : Qred (inject_Z n) = inject_Z n.
Proof.
  pose proof (Qred_correct (inject_Z n)) as E.
  pose proof (gcd_Qred (inject_Z n)) as G.
  destruct (Qred (inject_Z n)) as [a b].
  unfold Qeq, inject_Z in *. cbn [Qnum Qden] in *.
  rewrite Z.mul_1_r in E. subst a.
  rewrite Z.gcd_comm, Z.mul_comm, Z.gcd_mul_diag_l in G by lia.
  assert (B : b = 1%positive) by lia. subst b.
  now rewrite Z.mul_1_r.
Qed.

(** [binary64] does not depend on how the rational is written. *)
Lemma binary64_comp (x y : Q) : (x == y)%Q -> binary64 x = binary64 y.
Proof. intro E. unfold binary64. now rewrite (Qred_complete x y E). Qed.

Lemma roundHalfEven_integer (q : Q) (z : Z) :
  (q == inject_Z z)%Q -> roundHalfEven q = z.
Proof.
  intro E. unfold roundHalfEven.
  rewrite (Qfloor_comp _ _ E), Qfloor_Z.
  assert (L : (q - inject_Z z < 1 # 2)%Q).
  { rewrite E. setoid_replace (inject_Z z - inject_Z z)%Q with 0%Q by ring.
    reflexivity. }
  assert (C : (q - inject_Z z ?= 1 # 2)%Q = Lt) by (apply Qlt_alt; exact L).
  now rewrite C.
Qed.

Lemma pow2_pos (e : Z) : 0 <= e -> (0 < inject_Z (2 ^ e))%Q.
Proof.
  intro H. change 0%Q with (inject_Z 0). rewrite <- Zlt_Qlt.
  apply Z.pow_pos_nonneg; lia.
Qed.

(** Scaling up an integer, and scaling down one that the power divides. *)
Lemma scale_up (z e : Z) :
  0 <= e -> (scale (inject_Z z) e == inject_Z (z * 2 ^ e))%Q.
Proof.
  intro H. unfold scale.
  rewrite (Z.max_l e 0), (Z.max_r (- e) 0) by lia.
  change (inject_Z (2 ^ 0)) with 1%Q. rewrite inject_Z_mult. field.
Qed.

Lemma scale_down (z e : Z) :
  0 <= e -> (scale (inject_Z (z * 2 ^ e)) (- e) == inject_Z z)%Q.
Proof.
  intro H. unfold scale.
  rewrite (Z.max_r (- e) 0), Z.opp_involutive, (Z.max_l e 0) by lia.
  change (inject_Z (2 ^ 0)) with 1%Q. rewrite inject_Z_mult.
  pose proof (@pow2_pos e H) as P. field.
  intro Z0. rewrite Z0 in P. discriminate P.
Qed.

Lemma scale_nonneg (q : Q) (e : Z) : (0 <= q)%Q -> (0 <= scale q e)%Q.
Proof.
  intro H. unfold scale.
  apply Qle_shift_div_l; [apply pow2_pos, Z.le_max_r|].
  rewrite Qmult_0_l. apply Qmult_le_0_compat; [exact H|].
  apply Qlt_le_weak, pow2_pos, Z.le_max_r.
Qed.

(** An integer of at most 53 bits is a value of the format. *)
Lemma binary64_safe_integer (n : Z) :
  0 <= n <= 2 ^ 53 -> binary64 (inject_Z n) = ofZ n.
Proof.
  intros [H0 H1]. unfold binary64. rewrite Qred_inject_Z. cbv zeta.
  destruct (Z.eq_dec n 0) as [->|N]; [reflexivity|].
  assert (A : Qabs (inject_Z n) = inject_Z n).
  { unfold Qabs, inject_Z. now rewrite Z.abs_eq. }
  rewrite A.
  assert (Z0 : Qeq_bool (inject_Z n) 0 = false).
  { destruct (Qeq_bool (inject_Z n) 0) eqn:E; [|reflexivity].
    apply Qeq_bool_eq in E. unfold Qeq, inject_Z in E. cbn in E. lia. }
  rewrite Z0.
  assert (P : Qle_bool 0 (inject_Z n) = true).
  { apply Qle_bool_iff. change 0%Q with (inject_Z 0). now rewrite <- Zle_Qle. }
  rewrite P.
  destruct (Z.log2_spec n ltac:(lia)) as [Lo Hi].
  pose proof (Z.log2_nonneg n) as K0.
  assert (K : Z.log2 n <= 53).
  { destruct (Z.le_gt_cases (Z.log2 n) 53) as [L|L]; [exact L|].
    exfalso. assert (2 ^ 54 <= 2 ^ Z.log2 n) by (apply Z.pow_le_mono_r; lia).
    assert (2 ^ 53 < 2 ^ 54) by (apply Z.pow_lt_mono_r; lia). lia. }
  assert (F : floorLog2 (inject_Z n) = Z.log2 n).
  { unfold floorLog2. cbn [Qnum Qden inject_Z].
    change (Z.log2 1) with 0. rewrite Z.sub_0_r.
    assert (G : Qle_bool 1 (scale (inject_Z n) (- Z.log2 n)) = true).
    { apply Qle_bool_iff. unfold scale.
      rewrite (Z.max_r (- Z.log2 n) 0), Z.opp_involutive,
        (Z.max_l (Z.log2 n) 0) by lia.
      apply Qle_shift_div_l; [now apply pow2_pos|].
      change (inject_Z (2 ^ 0)) with 1%Q. rewrite Qmult_1_l, Qmult_1_r.
      now rewrite <- Zle_Qle. }
    fold (inject_Z n). now rewrite G. }
  rewrite F. rewrite Z.max_l by lia.
  assert (V : exists m,
             roundHalfEven (scale (inject_Z n) (- (Z.log2 n - 52))) = m
             /\ (scale (inject_Z m) (Z.log2 n - 52) == inject_Z n)%Q).
  { destruct (Z.le_gt_cases (Z.log2 n) 52) as [L|L].
    - exists (n * 2 ^ (52 - Z.log2 n)). split.
      + apply roundHalfEven_integer.
        replace (- (Z.log2 n - 52)) with (52 - Z.log2 n) by lia.
        apply scale_up. lia.
      + replace (Z.log2 n - 52) with (- (52 - Z.log2 n)) by lia.
        apply scale_down. lia.
    - assert (E : Z.log2 n = 53) by lia. rewrite E in *.
      assert (E' : n = 2 ^ 53) by lia. subst n.
      exists (2 ^ 52). split.
      + apply roundHalfEven_integer.
        change (2 ^ 53) with (2 ^ 52 * 2 ^ 1).
        change (- (53 - 52)) with (- (1)). now apply scale_down.
      + change (53 - 52) with 1. rewrite scale_up by lia. reflexivity. }
  destruct V as (m & -> & V).
  assert (O : Qle_bool (inject_Z (2 ^ 1024))
                       (scale (inject_Z m) (Z.log2 n - 52)) = false).
  { rewrite V.
    destruct (Qle_bool (inject_Z (2 ^ 1024)) (inject_Z n)) eqn:E;
      [|reflexivity].
    apply Qle_bool_iff in E. rewrite <- Zle_Qle in E.
    assert (2 ^ 53 < 2 ^ 1024) by (apply Z.pow_lt_mono_r; lia). lia. }
  rewrite O. unfold ofZ. f_equal.
  rewrite (Qred_complete _ _ V). apply Qred_inject_Z.
Qed.

(** What a real that is not negative becomes: infinite, or a rational
    that is not negative. *)
Lemma binary64_nonneg (x : Q) :
  (0 <= x)%Q ->
  binary64 x = PosInf \/ exists q, binary64 x = Fin q /\ (0 <= q)%Q.
Proof.
  intro H. unfold binary64.
  assert (P : Qle_bool 0 (Qred x) = true).
  { apply Qle_bool_iff. now rewrite Qred_correct. }
  rewrite P.
  destruct (Qeq_bool (Qabs (Qred x)) 0).
  - right. exists 0%Q. split; [reflexivity | discriminate].
  - cbv zeta.
    match goal with
    | |- context [Qle_bool (inject_Z (2 ^ 1024)) ?v] =>
        destruct (Qle_bool (inject_Z (2 ^ 1024)) v); [now left|];
        right; exists (Qred v); split; [reflexivity|];
        rewrite Qred_correct
    end.
    apply scale_nonneg. change 0%Q with (inject_Z 0). rewrite <- Zle_Qle.
    unfold roundHalfEven.
    match goal with
    | |- context [Qfloor ?s] =>
        assert (S0 : 0 <= Qfloor s)
          by (change 0 with (Qfloor (inject_Z 0)); apply Qfloor_resp_le;
              apply scale_nonneg, Qabs_nonneg);
        destruct (s - inject_Z (Qfloor s) ?= 1 # 2)%Q;
        [destruct (Z.even (Qfloor s))| |]; lia
    end.
Qed.

(** The decimal text of a non-negative integer, read by [Number]: the
    integer, rounded. *)
Lemma Number_ZToString (n : Z) :
  0 <= n ->
  ZToString n <> EmptyString
  /\ Number (ZToString n) = binary64 (inject_Z n).
Proof.
  intro Hn. destruct n as [|p|p]; [| |lia].
  - split; [discriminate | reflexivity].
  - assert (T : ZToString (Zpos p) = text (Pos.to_uint p)).
    { unfold ZToString. cbn [Z.to_int NilZero.string_of_int].
      unfold NilZero.string_of_uint.
      pose proof (DecimalPos.Unsigned.to_uint_nonnil p) as N.
      now destruct (Pos.to_uint p). }
    pose proof (DecimalPos.Unsigned.to_uint_nonnil p) as N.
    rewrite T. split; [now apply text_nonempty|].
    unfold Number. rewrite trim_text.
    destruct (String.eqb_spec (text (Pos.to_uint p)) EmptyString) as [E|_];
      [now apply text_nonempty in E|].
    unfold strNumericLiteral. rewrite nonDecimal_text.
    assert (Sg : readSign (text (Pos.to_uint p)) = (1, text (Pos.to_uint p)))
      by (destruct (Pos.to_uint p); reflexivity).
    rewrite Sg.
    assert (I : (text (Pos.to_uint p) =? "Infinity")%string = false)
      by (destruct (Pos.to_uint p); reflexivity).
    rewrite I. unfold unsignedDecimalLiteral.
    rewrite readDigits_text, DecimalPos.Unsigned.of_to.
    cbn [Nat.add exponentPart Z.of_N].
    destruct (Decimal.nb_digits (Pos.to_uint p)) as [|k] eqn:K.
    { destruct (Pos.to_uint p); cbn in K; congruence. }
    cbn [Nat.add Nat.eqb]. apply binary64_comp.
    cbn [Z.of_nat Z.pow Qpower]. unfold Qeq, Qmult, Qplus, Qdiv, Qinv, inject_Z.
    cbn. lia.
Qed.

(** Three texts that [Number] does not take at their face value: an
    integer of 54 bits, a number beyond the format, and a negative number
    below it. *)
Lemma Number_rounds :
  Number "9007199254740993" = ofZ 9007199254740992
  /\ Number "1e400" = PosInf
  /\ Number "-1e-400" = ofZ 0.
Proof. repeat split; vm_compute; reflexivity. Qed.

End NumberFacts.

(* ------------------------------------------------------------------ *)
(** ** Claims about the TTL setting                                     *)
(* ------------------------------------------------------------------ *)

Section TtlClaims.

Import DefiLlama Spec.
Local Open Scope string_scope.

Lemma applyTtlSetting_eq (ttlSetting : option string) (w : World) :
  applyTtlSetting ttlSetting w =
  (Normal tt,
   match ttlSetting with
   | Some s =>
       if (truthy s && negb (isNaN (Number s)) && geb (Number s) (ofZ 0))%bool
       then mkWorld (cache w) (cacheTimestampMs w) (Number s) (clock w)
                    (fetched w) (drawn w) (logs w)
       else w
   | None => w
   end).
Proof.
  unfold applyTtlSetting. destruct ttlSetting as [s|]; [|reflexivity].
  destruct (truthy s); [|reflexivity]. cbn [andb].
  now destruct (negb (isNaN (Number s)) && geb (Number s) (ofZ 0))%bool.
Qed.

Lemma geb_zero (q : Q) : geb (Fin q) (ofZ 0) = true <-> (0 <= q)%Q.
Proof. cbn. apply Qle_bool_iff. Qed.

(** [initialize] ends with the TTL that [applyTtlSetting] chose. *)
Lemma initialize_ttl (env : Env) (ttlSetting : option string) (w : World) :
  exists w',
    initialize env ttlSetting w = (Normal tt, w')
    /\ ttlMs w' = ttlMs (snd (applyTtlSetting ttlSetting w)).
Proof.
  unfold initialize, bind. rewrite applyTtlSetting_eq. cbn [snd].
  match goal with
  | |- context [loadIndex env ?x] =>
      destruct (loadIndex_completes env x) as (w' & E & Httl & _)
  end.
  exists w'. now split.
Qed.

(** C8, as the code has it. The TTL setting is applied exactly when it is
    a text that is not empty and whose conversion by [Number] is not NaN
    and is at least zero; the TTL is then the number that [Number] gives,
    integer or not, finite or not.  For the decimal text of an integer
    that is not negative this is the integer rounded to the binary64
    format: the integer itself up to 2^53.  A setting that is absent,
    empty, not numeric or negative is ignored, and the TTL stays what it
    was, which is 300000 ms after construction. *)
Theorem ttl_setting_accepts_nonnegative_numbers :
  forall (env : Env) (ttlSetting : option string) (w : World),
  exists w',
    initialize env ttlSetting w = (Normal tt, w')
    /\ (forall s, ttlSetting = Some s -> s <> "" ->
          (forall q, Number s = Fin q -> (0 <= q)%Q -> ttlMs w' = Fin q)
          /\ (Number s = PosInf -> ttlMs w' = PosInf)
          /\ (forall q, Number s = Fin q -> (q < 0)%Q -> ttlMs w' = ttlMs w)
          /\ (Number s = NaN \/ Number s = NegInf -> ttlMs w' = ttlMs w))
    /\ (ttlSetting = None \/ ttlSetting = Some "" -> ttlMs w' = ttlMs w)
    /\ (forall n, (0 <= n)%Z -> ttlSetting = Some (ZToString n) ->
          ttlMs w' = binary64 (inject_Z n)
          /\ ((n <= 2 ^ 53)%Z -> ttlMs w' = ofZ n))
    /\ (forall t0, ttlMs (constructed t0) = ofZ 300000).
Proof.
  intros env ttlSetting w.
  destruct (initialize_ttl env ttlSetting w) as (w' & E & Httl).
  exists w'. split; [exact E|]. rewrite applyTtlSetting_eq in Httl.
  cbn [snd] in Httl. split; [|split; [|split; [|reflexivity]]].
  3:{ intros n Hn ->. destruct (Number_ZToString Hn) as (Hne & Hq).
      apply truthy_true_iff in Hne. rewrite Hne, Hq in Httl.
      assert (T : ttlMs w' = binary64 (inject_Z n)).
      { destruct (@binary64_nonneg (inject_Z n)) as [P|(q & P & Hq0)].
        - change 0%Q with (inject_Z 0). now rewrite <- Zle_Qle.
        - rewrite P in *. exact Httl.
        - rewrite P in *. cbn [isNaN negb andb] in Httl.
          apply geb_zero in Hq0. now rewrite Hq0 in Httl. }
      split; [exact T|]. intro Hle. rewrite T.
      now apply binary64_safe_integer. }
  - intros s -> Hs. apply truthy_true_iff in Hs. rewrite Hs in Httl.
    cbn [andb] in Httl. repeat split.
    + intros q Hq Hle. rewrite Hq in Httl. cbn [isNaN negb andb] in Httl.
      apply geb_zero in Hle. rewrite Hle in Httl. exact Httl.
    + intro Hq. rewrite Hq in Httl. exact Httl.
    + intros q Hq Hlt. rewrite Hq in Httl. cbn [isNaN negb andb] in Httl.
      destruct (geb (Fin q) (ofZ 0)) eqn:G; [|exact Httl].
      apply geb_zero in G. exfalso. now apply (Qlt_not_le _ _ Hlt).
    + intros [Hq|Hq]; rewrite Hq in Httl; exact Httl.
  - intros [->| ->]; exact Httl.
Qed.

Lemma ttl_setting_accepts_nonnegative_numbers_witness :
  exists w',
    initialize Examples.offline (Some "60000") (constructed 0)
    = (Normal tt, w')
    /\ ttlMs w' = Number "60000"
    /\ Number "60000" = Fin (60000 # 1).
Proof.
  destruct (ttl_setting_accepts_nonnegative_numbers
              Examples.offline (Some "60000") (constructed 0))
    as (w' & E & H & _).
  exists w'. split; [exact E|].
  destruct (H "60000" eq_refl ltac:(discriminate)) as (Hfin & _).
  assert (N : Number "60000" = Fin (60000 # 1)) by (vm_compute; reflexivity).
  split; [|exact N]. rewrite N.
  apply Hfin; [exact N | discriminate].
Defined.

(** C8, as the specification has it, fails: the setting "1.5" is not an
    integer, and [initialize] takes it as the TTL in place of the
    default. *)
Lemma ttl_setting_accepts_a_fraction :
  exists w' q,
    initialize Examples.offline (Some "1.5") (constructed 0)
    = (Normal tt, w')
    /\ ttlMs w' = Fin q
    /\ (q == 3 # 2)%Q
    /\ nonNegativeInteger (ttlMs w') = false
    /\ ttlMs w' <> ttlMs (constructed 0).
Proof.
  eexists. eexists. split; [vm_compute; reflexivity|].
  split; [reflexivity|]. split; [reflexivity|].
  split; [reflexivity | discriminate].
Qed.

End TtlClaims.

(* ------------------------------------------------------------------ *)
(** ** Computations that append to a trace                              *)
(* ------------------------------------------------------------------ *)

Section Appends.

Context {E : Type}.
Local Open Scope list_scope.

Lemma appends_ret (A : Type) (a : A) :
  appends (E := E) (ret a) (Normal a) [].
Proof. intro t. unfold ret. now rewrite app_nil_r. Qed.

Lemma appends_throw (A : Type) (e : JsError) :
  appends (E := E) (A := A) (throw e) (Throw e) [].
Proof. intro t. unfold throw. now rewrite app_nil_r. Qed.

Lemma appends_bind_normal (A B : Type) (m : M (list E) A)
  (k : A -> M (list E) B) a es c es' :
  appends m (Normal a) es -> appends (k a) c es' ->
  appends (bind m k) c (es ++ es').
Proof.
  intros Hm Hk t. unfold bind. rewrite Hm, Hk. now rewrite app_assoc.
Qed.

Lemma appends_bind_throw (A B : Type) (m : M (list E) A)
  (k : A -> M (list E) B) e es :
  appends m (Throw e) es -> appends (bind m k) (Throw e) es.
Proof. intros Hm t. unfold bind. now rewrite Hm. Qed.

Lemma appends_try_normal (A : Type) (m : M (list E) A)
  (h : JsError -> M (list E) A) a es :
  appends m (Normal a) es -> appends (try_catch m h) (Normal a) es.
Proof. intros Hm t. unfold try_catch. now rewrite Hm. Qed.

Lemma appends_try_throw (A : Type) (m : M (list E) A)
  (h : JsError -> M (list E) A) e es c es' :
  appends m (Throw e) es -> appends (h e) c es' ->
  appends (try_catch m h) c (es ++ es').
Proof.
  intros Hm Hh t. unfold try_catch. rewrite Hm, Hh. now rewrite app_assoc.
Qed.

(** What a computation appends fixes its result on the empty trace. *)
Lemma appends_fst (A : Type) (m : M (list E) A) c es :
  appends m c es -> forall t, fst (m t) = c.
Proof. intros H t. now rewrite H. Qed.

End Appends.

Lemma appends_emit (e : Outside.Event) :
  appends (Wallet.emit e) (Normal tt) [e].
Proof. intro t. reflexivity. Qed.

(** Runs a computation on a trace whose outside answers are known. *)
Ltac run_trace :=
  intro;
  unfold bind, try_catch, Wallet.emit, modify, Wallet.await, ret, throw;
  cbn; rewrite <- ?app_assoc; reflexivity.

(** The same, using the equations of the context on the way. *)
Ltac run_trace_eq :=
  intro;
  unfold bind, try_catch, Wallet.emit, modify, Wallet.await, ret, throw;
  cbn;
  repeat match goal with
         | H : _ = _ |- _ => rewrite H; cbn
         end;
  unfold ret, throw; rewrite <- ?app_assoc; reflexivity.

(* ------------------------------------------------------------------ *)
(** ** The price resolver and the balances of a chain                   *)
(* ------------------------------------------------------------------ *)

Section WalletFacts.

Import Outside Wallet Spec.
Local Open Scope string_scope.

Variable env : Env.

(** The on-chain path alone. *)
Lemma fallback_appends (chain : ChainNetwork) (contractAddress : string) :
  exists logged,
    appends
      (try_catch
         (bind (emit (ReqReadContract chain contractAddress)) (fun _ =>
          bind (await (readSymbol env chain contractAddress)) (fun symbol =>
          bind (await (readName env chain contractAddress)) (fun name =>
          bind (await (readDecimals env chain contractAddress)) (fun decimals =>
          ret (Some (TokenInfo.mk
                       (toUpperCase (orElse (Some symbol) "UNKNOWN"))
                       (orElse (Some name) "Unknown Token")
                       (integerOr (Some decimals) 18) 0)))))))
         (fun err =>
            bind (emit (LogWarn ("Failed to fetch on-chain metadata for "
                                 ++ contractAddress ++ ": " ++ message err)))
                 (fun _ => ret None)))
      (Normal (onchainAnswer env chain contractAddress))
      (ReqReadContract chain contractAddress :: logged)
    /\ requestsIn logged = [].
Proof.
  unfold onchainAnswer.
  destruct (readSymbol env chain contractAddress) as [sy|m1];
    [destruct (readName env chain contractAddress) as [na|m2];
     [destruct (readDecimals env chain contractAddress) as [de|m3]|]|];
    eexists; (split; [run_trace | reflexivity]).
Qed.

(** [getTokenInfo] never throws.  Its result is the layered answer; it
    asks the pricing API exactly when the credential is configured, and
    reads the contract exactly when the pricing path gave nothing, after
    the pricing request. *)
Lemma getTokenInfo_appends (contractAddress : string) (chain : ChainNetwork) :
  exists es,
    appends (getTokenInfo env contractAddress chain)
            (Normal (layeredAnswer env chain contractAddress)) es
    /\ requestsIn es =
       ((if credentialsConfigured env
         then [ReqCoinByContract
                 (ChainConfig.coingeckoPlatform (CHAIN_CONFIGS chain))
                 contractAddress]
         else [])
        ++
        (match pricingSucceeds env chain contractAddress with
         | Some _ => []
         | None => [ReqReadContract chain contractAddress]
         end))%list.
Proof.
  destruct (fallback_appends chain contractAddress) as (logged & Hfb & Hlog).
  unfold layeredAnswer, pricingSucceeds, credentialsConfigured, getTokenInfo.
  destruct (truthyOpt (processEnv env "COINGECKO_API_KEY")).
  - unfold pricingAnswer.
    destruct (coinByContract env _ contractAddress) as [[o st b]|msg].
    + destruct o.
      * destruct b as [data|msg]; cbn [ok body].
        -- eexists. split; [run_trace | reflexivity].
        -- eexists. split.
           ++ eapply appends_bind_normal; [run_trace | exact Hfb].
           ++ unfold requestsIn in *. rewrite filter_app. cbn.
              now rewrite Hlog.
      * cbn [ok body]. eexists. split.
        -- eapply appends_bind_normal; [run_trace | exact Hfb].
        -- unfold requestsIn in *. rewrite filter_app. cbn.
           now rewrite Hlog.
    + eexists. split.
      * eapply appends_bind_normal; [run_trace | exact Hfb].
      * unfold requestsIn in *. rewrite filter_app. cbn. now rewrite Hlog.
  - eexists. split.
    + eapply appends_bind_normal; [apply appends_ret | exact Hfb].
    + unfold requestsIn in *. cbn. now rewrite Hlog.
Qed.

Lemma BigInt_appends (x : option string) :
  (exists z, x <> None /\ option_map StringToBigInt x = Some (Some z)
             /\ appends (BigInt x) (Normal z) [])
  \/ (exists e, (x = None \/ option_map StringToBigInt x = Some None)
                /\ appends (BigInt x) (Throw e) []).
Proof.
  destruct x as [s|]; cbn.
  - destruct (StringToBigInt s) as [z|].
    + left. exists z. repeat split; [discriminate | apply appends_ret].
    + right. eexists. split; [now right | apply appends_throw].
  - right. eexists. split; [now left | apply appends_throw].
Qed.

(** One token: the balances grow by the entry of the token, if it has
    one, and the iteration never throws. *)
Lemma processToken_appends (chain : ChainNetwork)
  (balances : list TokenBalance.t) (entry : string * option string) :
  exists es,
    appends (processToken env chain balances entry)
            (Normal (balances ++ match tokenEntry env chain entry with
                                 | Some b => [b]
                                 | None => []
                                 end)%list) es.
Proof.
  destruct entry as [contractAddress tokenBalance].
  unfold processToken, tokenEntry.
  destruct tokenBalance as [text|].
  - cbn [BigInt]. destruct (StringToBigInt text) as [value|].
    + destruct (value =? 0)%Z eqn:Z0.
      * eexists. rewrite app_nil_r. apply appends_try_normal.
        eapply appends_bind_normal; [apply appends_ret|].
        rewrite Z0. apply appends_ret.
      * destruct (getTokenInfo_appends contractAddress chain)
          as (es & Hinfo & _).
        eexists. apply appends_try_normal.
        eapply appends_bind_normal; [apply appends_ret|].
        rewrite Z0.
        eapply appends_bind_normal; [exact Hinfo|].
        destruct (layeredAnswer env chain contractAddress) as [info|].
        -- eapply appends_bind_normal; apply appends_ret.
        -- rewrite app_nil_r. apply appends_ret.
    + eexists. rewrite app_nil_r.
      eapply appends_try_throw.
      * eapply appends_bind_throw. apply appends_throw.
      * eapply appends_bind_normal; [apply appends_emit | apply appends_ret].
  - eexists. rewrite app_nil_r. cbn [BigInt].
    eapply appends_try_throw.
    + eapply appends_bind_throw. apply appends_throw.
    + eapply appends_bind_normal; [apply appends_emit | apply appends_ret].
Qed.

(** The loop over the tokens: every token that has an entry contributes
    it, in order, whatever happens to the others. *)
Lemma processTokens_appends (chain : ChainNetwork)
  (entries : list (string * option string)) :
  forall balances, exists es,
    appends (processTokens env chain balances entries)
            (Normal (balances ++ tokenEntries env chain entries)%list) es.
Proof.
  induction entries as [|entry rest IH]; intro balances; cbn.
  - eexists. rewrite app_nil_r. apply appends_ret.
  - destruct (processToken_appends chain balances entry) as (es1 & H1).
    destruct (tokenEntry env chain entry) as [b|].
    + destruct (IH (balances ++ [b])%list) as (es2 & H2).
      eexists. eapply appends_bind_normal; [exact H1|].
      rewrite <- app_assoc in H2. exact H2.
    + rewrite app_nil_r in H1. destruct (IH balances) as (es2 & H2).
      eexists. eapply appends_bind_normal; [exact H1 | exact H2].
Qed.

(** The native balance: no entry for a balance that is not positive, one
    entry otherwise, whatever the price lookup does. *)
Lemma nativeEntry_appends (chain : ChainNetwork) (nativeBalance : Z) :
  exists l es,
    appends (nativeEntry env chain nativeBalance) (Normal l) es
    /\ List.length l = (if (nativeBalance >? 0)%Z then 1 else 0)%nat.
Proof.
  unfold nativeEntry. destruct (nativeBalance >? 0)%Z.
  - destruct (simplePrice env
                (NativeToken.coingeckoId
                   (ChainConfig.nativeToken (CHAIN_CONFIGS chain))))
      as [[o st b]|msg].
    + destruct b as [priceData|msg].
      * eexists. eexists. split;
          [intro t; unfold bind, try_catch, emit, modify, await, ret, throw;
           cbn; rewrite <- ?app_assoc; reflexivity
          | reflexivity].
      * eexists. eexists. split;
          [intro t; unfold bind, try_catch, emit, modify, await, ret, throw;
           cbn; rewrite <- ?app_assoc; reflexivity
          | reflexivity].
    + eexists. eexists. split;
        [intro t; unfold bind, try_catch, emit, modify, await, ret, throw;
         cbn; rewrite <- ?app_assoc; reflexivity
        | reflexivity].
  - eexists. eexists. split; [apply appends_ret | reflexivity].
Qed.

Lemma endpointOf_None (chain : ChainNetwork) :
  endpointOf env chain = None <->
  truthyOpt (processEnv env (ChainConfig.rpcUrl (CHAIN_CONFIGS chain))) = false.
Proof.
  unfold endpointOf, truthyOpt.
  destruct (processEnv env _) as [u|]; [|tauto].
  destruct (truthy u); split; congruence.
Qed.

Lemma endpointOf_Some (chain : ChainNetwork) (u : string) :
  endpointOf env chain = Some u ->
  truthyOpt (processEnv env (ChainConfig.rpcUrl (CHAIN_CONFIGS chain))) = true
  /\ orElse (processEnv env (ChainConfig.rpcUrl (CHAIN_CONFIGS chain))) "" = u.
Proof.
  unfold endpointOf, truthyOpt, orElse.
  destruct (processEnv env _) as [u'|]; [|discriminate].
  destruct (truthy u'); [|discriminate]. intro H. injection H as <-. auto.
Qed.

(** A chain without endpoint delivers nothing. *)
Lemma fetchChainBalances_unconfigured (address : string) (chain : ChainNetwork) :
  endpointOf env chain = None ->
  exists es, appends (fetchChainBalances env address chain) (Normal []) es.
Proof.
  intro H. apply endpointOf_None in H. unfold fetchChainBalances.
  rewrite H. cbn [negb]. eexists.
  eapply appends_bind_normal; [apply appends_emit | apply appends_ret].
Qed.

(** A chain with an endpoint: the result of [fetchChainBalances] by the
    answers of the endpoint. *)
Lemma fetchChainBalances_configured (address : string) (chain : ChainNetwork)
  (u : string) :
  endpointOf env chain = Some u ->
  exists l es,
    appends (fetchChainBalances env address chain) (Normal l) es
    /\ (transportFails env u address -> l = [])
    /\ (forall tokensResponse tokensJson nativeResponse nativeJson nativeBalance,
          getTokenBalances env u address = Fulfilled tokensResponse ->
          ok tokensResponse = true ->
          body tokensResponse = Fulfilled tokensJson ->
          hasError tokensJson = false ->
          getBalance env u address = Fulfilled nativeResponse ->
          body nativeResponse = Fulfilled nativeJson ->
          StringToBigInt (orElse (result nativeJson) "0") = Some nativeBalance ->
          exists native,
            l = (native ++ tokenEntries env chain
                             match tokenBalances tokensJson with
                             | Some entries => entries
                             | None => []
                             end)%list
            /\ List.length native
               = (if (nativeBalance >? 0)%Z then 1 else 0)%nat).
Proof.
  intro H. apply endpointOf_Some in H as [Ht Hu].
  unfold fetchChainBalances. rewrite Ht, Hu. cbn [negb]. clear Ht Hu.
  unfold transportFails.
  destruct (getTokenBalances env u address) as [[o st b]|msg] eqn:TB.
  2:{ exists []. eexists. split; [run_trace_eq|]. split; [reflexivity|].
      intros; discriminate. }
  destruct o.
  2:{ exists []. eexists. split; [run_trace_eq|]. split; [reflexivity|].
      intros * H1 H2. injection H1 as <-. discriminate H2. }
  destruct b as [tokensJson|msg].
  2:{ exists []. eexists. split; [run_trace_eq|]. split; [reflexivity|].
      intros * H1 _ H3. injection H1 as <-. discriminate H3. }
  destruct (hasError tokensJson) eqn:HE.
  { exists []. eexists. split; [run_trace_eq|]. split; [reflexivity|].
    intros * H1 _ H3 H4. injection H1 as <-. injection H3 as <-. congruence. }
  destruct (getBalance env u address) as [[o2 st2 b2]|msg] eqn:GB.
  2:{ exists []. eexists. split; [run_trace_eq|]. split; [reflexivity|].
      intros; discriminate. }
  destruct b2 as [nativeJson|msg].
  2:{ exists []. eexists. split; [run_trace_eq|]. split; [reflexivity|].
      intros * _ _ _ _ H5 H6. injection H5 as <-. discriminate H6. }
  destruct (StringToBigInt (orElse (result nativeJson) "0"))
    as [nativeBalance|] eqn:NB.
  2:{ exists []. eexists. split; [run_trace_eq|].
      split; [reflexivity|].
      intros * _ _ _ _ H5 H6 H7. injection H5 as <-. injection H6 as <-.
      congruence. }
  destruct (nativeEntry_appends chain nativeBalance) as (native & es1 & HN & HL).
  destruct (processTokens_appends chain
              match tokenBalances tokensJson with
              | Some entries => entries
              | None => []
              end native) as (es2 & HT).
  exists (native ++ tokenEntries env chain
                      match tokenBalances tokensJson with
                      | Some entries => entries
                      | None => []
                      end)%list.
  eexists. split.
  - apply appends_try_normal.
    eapply appends_bind_normal; [apply appends_emit|].
    eapply appends_bind_normal; [apply appends_ret|]. cbn [ok negb].
    eapply appends_bind_normal; [apply appends_ret|]. rewrite HE.
    eapply appends_bind_normal; [apply appends_emit|].
    eapply appends_bind_normal; [apply appends_ret|].
    eapply appends_bind_normal; [apply appends_ret|].
    eapply appends_bind_normal.
    { cbn [BigInt body]. rewrite NB. apply appends_ret. }
    eapply appends_bind_normal; [exact HN|].
    eapply appends_bind_normal; [exact HT|].
    apply appends_ret.
  - split.
    + intros [[m F]|[m F]]; discriminate F.
    + intros * H1 _ H3 _ H5 H6 H7.
      injection H1 as <-. injection H3 as <-. injection H5 as <-.
      injection H6 as <-. replace nativeBalance0 with nativeBalance by congruence.
      exists native. now split.
Qed.

(** [fetchChainBalances] never throws, and what it delivers does not
    depend on the trace it starts from. *)
Lemma fetchChainBalances_appends (address : string) (chain : ChainNetwork) :
  exists es,
    appends (fetchChainBalances env address chain)
            (Normal (balancesOf env address chain)) es.
Proof.
  assert (G : exists l es,
             appends (fetchChainBalances env address chain) (Normal l) es).
  { destruct (endpointOf env chain) as [u|] eqn:Eu.
    - destruct (fetchChainBalances_configured address chain Eu)
        as (l & es & H & _). now exists l, es.
    - destruct (fetchChainBalances_unconfigured address chain Eu) as (es & H).
      now exists [], es. }
  destruct G as (l & es & H). exists es.
  unfold balancesOf. now rewrite (appends_fst H).
Qed.

End WalletFacts.

(* ------------------------------------------------------------------ *)
(** ** Sorting, summing and grouping the balances                       *)
(* ------------------------------------------------------------------ *)

Section SnapshotFacts.

Import Portfolio Spec.
Local Open Scope list_scope.

Local Abbreviation usd := TokenBalance.usdValue.

Lemma insert_perm (A : Type) (compare : A -> A -> Q) (x : A) (s : list A) :
  Permutation (insert compare x s) (x :: s).
Proof.
  induction s as [|y s IH]; cbn; [reflexivity|].
  destruct (Qle_bool (compare x y) 0); [reflexivity|].
  rewrite IH. apply perm_swap.
Qed.

Lemma sort_perm (A : Type) (compare : A -> A -> Q) (l : list A) :
  Permutation (sort compare l) l.
Proof.
  induction l as [|x l IH]; [reflexivity|].
  change (sort compare (x :: l)) with (insert compare x (sort compare l)).
  rewrite insert_perm. now constructor.
Qed.

Lemma byUsd_le (x y : TokenBalance.t) :
  Qle_bool (byUsdValueDescending x y) 0 = true <-> descending x y.
Proof.
  unfold byUsdValueDescending, descending. rewrite Qle_bool_iff.
  split; intro H.
  - apply Qplus_le_l with (z := (- usd x)%Q).
    setoid_replace (usd x + - usd x)%Q with 0%Q by ring. exact H.
  - apply Qplus_le_l with (z := usd x).
    setoid_replace (usd y - usd x + usd x)%Q with (usd y) by ring.
    now setoid_replace (0 + usd x)%Q with (usd x) by ring.
Qed.

Lemma byUsd_gt (x y : TokenBalance.t) :
  Qle_bool (byUsdValueDescending x y) 0 = false -> (usd x < usd y)%Q.
Proof.
  intro H. apply Qnot_le_lt. intro Hle.
  assert (D : descending x y) by exact Hle.
  apply byUsd_le in D. congruence.
Qed.

Lemma descending_trans (x y z : TokenBalance.t) :
  descending x y -> descending y z -> descending x z.
Proof. unfold descending. intros H1 H2. now apply Qle_trans with (usd y). Qed.

Lemma insert_sorted (x : TokenBalance.t) (s : list TokenBalance.t) :
  StronglySorted descending s ->
  StronglySorted descending (insert byUsdValueDescending x s).
Proof.
  induction 1 as [|y s Hs IH Hy]; cbn.
  - constructor; constructor.
  - destruct (Qle_bool (byUsdValueDescending x y) 0) eqn:C.
    + apply byUsd_le in C. constructor.
      * now constructor.
      * constructor; [exact C|].
        eapply Forall_impl; [|exact Hy].
        intros z Hz. now apply descending_trans with y.
    + constructor; [exact IH|].
      apply (Permutation_Forall (Permutation_sym (insert_perm _ x s))).
      constructor; [|exact Hy].
      apply byUsd_gt in C. now apply Qlt_le_weak.
Qed.

Lemma sort_sorted (l : list TokenBalance.t) :
  StronglySorted descending (sort byUsdValueDescending l).
Proof.
  induction l as [|x l IH]; [constructor|].
  change (sort byUsdValueDescending (x :: l))
    with (insert byUsdValueDescending x (sort byUsdValueDescending l)).
  now apply insert_sorted.
Qed.

(** Insertion moves a token only past tokens of strictly greater value,
    so the tokens of any one value keep their order. *)
Lemma insert_ties (v : Q) (x : TokenBalance.t) (s : list TokenBalance.t) :
  tiesAt v (insert byUsdValueDescending x s) = tiesAt v (x :: s).
Proof.
  induction s as [|y s IH]; cbn; [reflexivity|].
  destruct (Qle_bool (byUsdValueDescending x y) 0) eqn:C; [reflexivity|].
  apply byUsd_gt in C. unfold tiesAt in *. cbn in *. rewrite IH.
  destruct (Qeq_bool (usd x) v) eqn:Ex, (Qeq_bool (usd y) v) eqn:Ey;
    try reflexivity.
  apply Qeq_bool_iff in Ex, Ey. exfalso.
  rewrite Ex, Ey in C. now apply (Qlt_irrefl v).
Qed.

Lemma sort_ties (v : Q) (l : list TokenBalance.t) :
  tiesAt v (sort byUsdValueDescending l) = tiesAt v l.
Proof.
  induction l as [|x l IH]; [reflexivity|].
  change (sort byUsdValueDescending (x :: l))
    with (insert byUsdValueDescending x (sort byUsdValueDescending l)).
  rewrite insert_ties. unfold tiesAt in *. cbn [filter]. now rewrite IH.
Qed.

Lemma sumUsd_fold (l : list TokenBalance.t) (a : Q) :
  (fold_left (fun sum token => sum + usd token) l a == a + sumUsd l)%Q.
Proof.
  revert a. induction l as [|x l IH]; intro a; cbn.
  - ring.
  - rewrite IH. ring.
Qed.

Lemma sumUsd_perm (l l' : list TokenBalance.t) :
  Permutation l l' -> (sumUsd l == sumUsd l')%Q.
Proof.
  induction 1; cbn.
  - reflexivity.
  - now rewrite IHPermutation.
  - ring.
  - now rewrite IHPermutation1.
Qed.

Lemma sumUsd_app (l l' : list TokenBalance.t) :
  (sumUsd (l ++ l') == sumUsd l + sumUsd l')%Q.
Proof. induction l as [|x l IH]; cbn; [ring | rewrite IH; ring]. Qed.

Lemma ChainNetwork_eqb_eq (a b : ChainNetwork) :
  ChainNetwork_eqb a b = true <-> a = b.
Proof. destruct a, b; cbn; split; congruence. Qed.

Lemma ChainNetwork_eqb_refl (a : ChainNetwork) : ChainNetwork_eqb a a = true.
Proof. now destruct a. Qed.

Lemma ChainNetwork_eqb_neq (a b : ChainNetwork) :
  ChainNetwork_eqb a b = false <-> a <> b.
Proof. destruct a, b; cbn; split; congruence. Qed.

Lemma ChainNetwork_eqb_sym (a b : ChainNetwork) :
  ChainNetwork_eqb a b = ChainNetwork_eqb b a.
Proof. now destruct a, b. Qed.

Lemma firstSeen_In (c : ChainNetwork) (ks : list ChainNetwork) :
  In c (firstSeen ks) <-> In c ks.
Proof.
  induction ks as [|k ks IH]; cbn; [tauto|].
  rewrite filter_In, IH, negb_true_iff, ChainNetwork_eqb_neq.
  destruct (ChainNetwork_eqb k c) eqn:E.
  - apply ChainNetwork_eqb_eq in E. tauto.
  - apply ChainNetwork_eqb_neq in E. tauto.
Qed.

Lemma firstSeen_NoDup (ks : list ChainNetwork) : NoDup (firstSeen ks).
Proof.
  induction ks as [|k ks IH]; cbn; constructor.
  - rewrite filter_In, ChainNetwork_eqb_refl. cbn. intros [_ H]. discriminate.
  - now apply NoDup_filter.
Qed.

Lemma firstSeen_snoc (ks : list ChainNetwork) (k : ChainNetwork) :
  firstSeen (ks ++ [k]) =
  if existsb (ChainNetwork_eqb k) ks then firstSeen ks
  else firstSeen ks ++ [k].
Proof.
  induction ks as [|c ks IH]; cbn; [reflexivity|].
  rewrite IH. destruct (ChainNetwork_eqb k c) eqn:E; cbn.
  - apply ChainNetwork_eqb_eq in E. subst c.
    destruct (existsb (ChainNetwork_eqb k) ks); [reflexivity|].
    rewrite filter_app. cbn. rewrite ChainNetwork_eqb_refl. cbn.
    now rewrite app_nil_r.
  - destruct (existsb (ChainNetwork_eqb k) ks); [reflexivity|].
    rewrite filter_app. cbn. rewrite ChainNetwork_eqb_sym, E. reflexivity.
Qed.

Lemma existsb_firstSeen (k : ChainNetwork) (ks : list ChainNetwork) :
  existsb (ChainNetwork_eqb k) (firstSeen ks)
  = existsb (ChainNetwork_eqb k) ks.
Proof.
  apply eq_true_iff_eq. rewrite !existsb_exists. split.
  - intros (c & Hc & E). exists c. split; [now apply firstSeen_In | exact E].
  - intros (c & Hc & E). exists c. split; [now apply firstSeen_In | exact E].
Qed.

Lemma hasKey_map (k : ChainNetwork) (f : ChainNetwork -> list TokenBalance.t)
  (cs : list ChainNetwork) :
  hasKey k (List.map (fun c => (c, f c)) cs)
  = existsb (ChainNetwork_eqb k) cs.
Proof. induction cs as [|c cs IH]; cbn; [|rewrite IH]; reflexivity. Qed.

Lemma pushAt_absent (k : ChainNetwork) (x : TokenBalance.t)
  (f : ChainNetwork -> list TokenBalance.t) (cs : list ChainNetwork)
  (m : ByChain) :
  existsb (ChainNetwork_eqb k) cs = false ->
  pushAt k x (List.map (fun c => (c, f c)) cs ++ m)
  = List.map (fun c => (c, f c)) cs ++ pushAt k x m.
Proof.
  induction cs as [|c cs IH]; cbn; [reflexivity|].
  intro H. apply orb_false_iff in H as [H1 H2]. rewrite H1. cbn.
  now rewrite IH.
Qed.

Lemma pushAt_present (k : ChainNetwork) (x : TokenBalance.t)
  (f : ChainNetwork -> list TokenBalance.t) (cs : list ChainNetwork) :
  NoDup cs ->
  pushAt k x (List.map (fun c => (c, f c)) cs)
  = List.map (fun c => (c, f c ++ if ChainNetwork_eqb c k then [x] else []))
             cs.
Proof.
  induction 1 as [|c cs Hc Hnd IH]; cbn; [reflexivity|].
  rewrite (ChainNetwork_eqb_sym c k).
  destruct (ChainNetwork_eqb k c) eqn:E.
  - apply ChainNetwork_eqb_eq in E. subst c. f_equal.
    apply map_ext_in. intros c Hin.
    destruct (ChainNetwork_eqb c k) eqn:E'.
    + apply ChainNetwork_eqb_eq in E'. subst c. contradiction.
    + now rewrite app_nil_r.
  - rewrite app_nil_r. now rewrite IH.
Qed.

Lemma onChain_snoc (c : ChainNetwork) (l : list TokenBalance.t)
  (x : TokenBalance.t) :
  onChain c (l ++ [x])
  = onChain c l ++ if ChainNetwork_eqb c (TokenBalance.chain x) then [x] else [].
Proof.
  unfold onChain. rewrite filter_app. cbn.
  now destruct (ChainNetwork_eqb c (TokenBalance.chain x)).
Qed.

Lemma onChain_absent (c : ChainNetwork) (l : list TokenBalance.t) :
  existsb (ChainNetwork_eqb c) (List.map TokenBalance.chain l) = false ->
  onChain c l = [].
Proof.
  unfold onChain. induction l as [|x l IH]; cbn; [reflexivity|].
  intro H. apply orb_false_iff in H as [H1 H2]. rewrite H1. now apply IH.
Qed.

(** One step of the grouping loop keeps the groups those of the tokens
    seen so far. *)
Lemma groupStep_grouped (l : list TokenBalance.t) (x : TokenBalance.t) :
  groupStep (grouped l) x = grouped (l ++ [x]).
Proof.
  unfold groupStep, grouped.
  rewrite map_app. cbn [List.map]. rewrite firstSeen_snoc.
  rewrite hasKey_map, existsb_firstSeen.
  destruct (existsb (ChainNetwork_eqb (TokenBalance.chain x))
                    (List.map TokenBalance.chain l)) eqn:E; cbn [negb].
  - rewrite pushAt_present by apply firstSeen_NoDup.
    apply map_ext. intro c. now rewrite onChain_snoc.
  - rewrite pushAt_absent by now rewrite existsb_firstSeen.
    rewrite map_app. cbn. rewrite ChainNetwork_eqb_refl. f_equal.
    + apply map_ext_in. intros c Hc. rewrite onChain_snoc.
      destruct (ChainNetwork_eqb c (TokenBalance.chain x)) eqn:E'.
      * apply ChainNetwork_eqb_eq in E'. subst c.
        apply (proj1 (firstSeen_In _ _)) in Hc.
        assert (existsb (ChainNetwork_eqb (TokenBalance.chain x))
                        (List.map TokenBalance.chain l) = true).
        { apply existsb_exists. exists (TokenBalance.chain x).
          split; [exact Hc | apply ChainNetwork_eqb_refl]. }
        congruence.
      * now rewrite app_nil_r.
    + rewrite onChain_snoc, ChainNetwork_eqb_refl.
      now rewrite (onChain_absent _ _ E).
Qed.

(** The grouping loop computes the groups of the specification. *)
Lemma groupByChain_grouped (l : list TokenBalance.t) :
  groupByChain l = grouped l.
Proof.
  unfold groupByChain.
  enough (G : forall l0, fold_left groupStep l (grouped l0) = grouped (l0 ++ l))
    by apply (G []).
  induction l as [|x l IH]; intro l0; cbn.
  - now rewrite app_nil_r.
  - rewrite groupStep_grouped, IH, <- app_assoc. reflexivity.
Qed.

End SnapshotFacts.

(* ------------------------------------------------------------------ *)
(** ** Claims about the wallet flow                                     *)
(* ------------------------------------------------------------------ *)

Section WalletClaims.

Import Outside Wallet Portfolio Spec.
Local Open Scope string_scope.

(** The handler completes in the [try] block, with the summary of what
    the three chains deliver. *)
Lemma handler_appends (env : Env) (address : string) :
  exists es,
    appends (handler env address)
            (Normal (summarize address
                       (List.map (balancesOf env address) chains))) es.
Proof.
  destruct (fetchChainBalances_appends env address base) as (e1 & H1).
  destruct (fetchChainBalances_appends env address ethereum) as (e2 & H2).
  destruct (fetchChainBalances_appends env address polygon) as (e3 & H3).
  eexists. unfold handler. apply appends_try_normal.
  eapply appends_bind_normal; [|apply appends_ret].
  cbn [chains List.map PromiseAll].
  eapply appends_bind_normal; [exact H1|].
  eapply appends_bind_normal; [|apply appends_ret].
  eapply appends_bind_normal; [exact H2|].
  eapply appends_bind_normal; [|apply appends_ret].
  eapply appends_bind_normal; [exact H3|].
  eapply appends_bind_normal; apply appends_ret.
Qed.

Lemma sumUsd_concat3 (a b c : list TokenBalance.t) :
  (sumUsd (List.concat [a; b; c]) == sumUsd a + sumUsd b + sumUsd c)%Q.
Proof. cbn. rewrite app_nil_r, !sumUsd_app. ring. Qed.

(** C3. A chain whose endpoint is not configured, or whose transport
    fails, delivers the empty list; the handler never takes its [catch]
    branch: it returns normally with [success] true, the token count and
    the total being those of the lists that the chains deliver.  With one
    token worth 100 dollars on the first chain, a transport failure on
    the second and no endpoint for the third, the total is 100 and the
    token count is 1. *)
Theorem failed_chains_do_not_fail_the_portfolio :
  forall (env : Env) (address : string),
    (forall chain,
        endpointOf env chain = None -> balancesOf env address chain = [])
    /\ (forall chain u,
           endpointOf env chain = Some u -> transportFails env u address ->
           balancesOf env address chain = [])
    /\ (forall t, exists t' d,
           handler env address t
           = (Normal (mkActionResult
                        (text (summarize address
                                 (List.map (balancesOf env address) chains)))
                        true (Snapshot d)), t')
           /\ tokenCount d
              = (List.length (balancesOf env address base)
                 + List.length (balancesOf env address ethereum)
                 + List.length (balancesOf env address polygon))%nat
           /\ (totalBalance d
               == sumUsd (balancesOf env address base)
                  + sumUsd (balancesOf env address ethereum)
                  + sumUsd (balancesOf env address polygon))%Q)
    /\ (exists t' body d,
           handler Examples.partialOutside Examples.walletAddress []
           = (Normal (mkActionResult
                        (PortfolioText Examples.walletAddress "$100.00" body)
                        true (Snapshot d)), t')
           /\ List.length (balancesOf Examples.partialOutside
                             Examples.walletAddress base) = 1%nat
           /\ balancesOf Examples.partialOutside
                Examples.walletAddress ethereum = []
           /\ balancesOf Examples.partialOutside
                Examples.walletAddress polygon = []
           /\ tokenCount d = 1%nat
           /\ (totalBalance d == 100 # 1)%Q).
Proof.
  intros env address. split; [|split; [|split]].
  - intros chain H.
    destruct (fetchChainBalances_unconfigured env address chain H) as (es & A).
    unfold balancesOf. now rewrite (appends_fst A).
  - intros chain u H F.
    destruct (fetchChainBalances_configured env address chain H)
      as (l & es & A & Hfail & _).
    unfold balancesOf. rewrite (appends_fst A). now apply Hfail.
  - intro t. destruct (handler_appends env address) as (es & A).
    rewrite A. eexists. eexists. split; [reflexivity|].
    cbn [tokenCount totalBalance]. split.
    + rewrite (Permutation_length (sort_perm _ _)).
      cbn [chains List.map List.concat]. rewrite app_nil_r, !length_app. lia.
    + rewrite sumUsd_fold, <- sumUsd_concat3.
      cbn [chains List.map]. ring.
  - eexists. eexists. eexists.
    split; [vm_compute; reflexivity|].
    repeat split; reflexivity.
Qed.

Lemma failed_chains_do_not_fail_the_portfolio_witness :
  balancesOf Examples.partialOutside Examples.walletAddress ethereum = []
  /\ balancesOf Examples.partialOutside Examples.walletAddress polygon = [].
Proof.
  destruct (failed_chains_do_not_fail_the_portfolio
              Examples.partialOutside Examples.walletAddress)
    as (Hmissing & Hfails & _).
  split.
  - apply (Hfails ethereum "https://eth.example"); [reflexivity|].
    left. exists "connect ECONNREFUSED". reflexivity.
  - apply Hmissing. reflexivity.
Defined.

(** C6. [getTokenInfo] never throws and returns the layered answer: the
    answer of the pricing API when the credential is configured and the
    request succeeds, asked first; otherwise, whether the credential is
    missing, the request is rejected (which includes the timeout), the
    response is not a success or its body cannot be read, the answer of
    the contract, with the price zero; and nothing when that fails too.
    A token with no answer adds nothing to the balances of its chain,
    and the tokens after it are processed as they would be without it. *)
Theorem price_resolution_falls_back_then_skips :
  forall (env : Env) (contractAddress : string) (chain : ChainNetwork),
    (forall t, exists es,
        getTokenInfo env contractAddress chain t
        = (Normal (layeredAnswer env chain contractAddress), (t ++ es)%list)
        /\ requestsIn es =
           ((if credentialsConfigured env
             then [ReqCoinByContract
                     (ChainConfig.coingeckoPlatform (CHAIN_CONFIGS chain))
                     contractAddress]
             else [])
            ++
            (match pricingSucceeds env chain contractAddress with
             | Some _ => []
             | None => [ReqReadContract chain contractAddress]
             end))%list)
    /\ (forall info,
           credentialsConfigured env = true ->
           pricingAnswer env chain contractAddress = Some info ->
           layeredAnswer env chain contractAddress = Some info)
    /\ (credentialsConfigured env = false
        \/ (exists msg,
               coinByContract env
                 (ChainConfig.coingeckoPlatform (CHAIN_CONFIGS chain))
                 contractAddress = Rejected msg)
        \/ (exists response,
               coinByContract env
                 (ChainConfig.coingeckoPlatform (CHAIN_CONFIGS chain))
                 contractAddress = Fulfilled response
               /\ (ok response = false
                   \/ exists msg, body response = Rejected msg)) ->
        layeredAnswer env chain contractAddress
        = onchainAnswer env chain contractAddress
        /\ (forall info,
               onchainAnswer env chain contractAddress = Some info ->
               (TokenInfo.price info == 0)%Q)
        /\ ((exists msg, readSymbol env chain contractAddress = Rejected msg)
            \/ (exists msg, readName env chain contractAddress = Rejected msg)
            \/ (exists msg, readDecimals env chain contractAddress = Rejected msg)
            -> layeredAnswer env chain contractAddress = None))
    /\ (forall balances text value rest t,
           StringToBigInt text = Some value -> value <> 0%Z ->
           layeredAnswer env chain contractAddress = None ->
           exists es es',
             processTokens env chain balances
                           ((contractAddress, Some text) :: rest) t
             = (Normal (balances ++ tokenEntries env chain rest)%list,
                (t ++ es)%list)
             /\ processTokens env chain balances rest t
                = (Normal (balances ++ tokenEntries env chain rest)%list,
                   (t ++ es')%list))
    /\ (forall address u tokensResponse tokensJson nativeResponse nativeJson
               nativeBalance,
           endpointOf env chain = Some u ->
           getTokenBalances env u address = Fulfilled tokensResponse ->
           ok tokensResponse = true ->
           body tokensResponse = Fulfilled tokensJson ->
           hasError tokensJson = false ->
           getBalance env u address = Fulfilled nativeResponse ->
           body nativeResponse = Fulfilled nativeJson ->
           StringToBigInt (orElse (result nativeJson) "0") = Some nativeBalance ->
           exists native,
             balancesOf env address chain
             = (native ++ tokenEntries env chain
                            match tokenBalances tokensJson with
                            | Some entries => entries
                            | None => []
                            end)%list
             /\ List.length native
                = (if (nativeBalance >? 0)%Z then 1 else 0)%nat).
Proof.
  intros env contractAddress chain. split; [|split; [|split; [|split]]].
  5:{ intros address u tokensResponse tokensJson nativeResponse nativeJson
             nativeBalance Hu H1 H2 H3 H4 H5 H6 H7.
      destruct (fetchChainBalances_configured env address chain Hu)
        as (l & es & A & _ & Hok).
      destruct (Hok _ _ _ _ _ H1 H2 H3 H4 H5 H6 H7) as (native & -> & Hlen).
      exists native. split; [|exact Hlen].
      unfold balancesOf. now rewrite (appends_fst A). }
  - intro t. destruct (getTokenInfo_appends env contractAddress chain)
      as (es & A & R).
    exists es. now rewrite A.
  - intros info Hc Hp. unfold layeredAnswer, pricingSucceeds.
    now rewrite Hc, Hp.
  - intro H.
    assert (P : pricingSucceeds env chain contractAddress = None).
    { unfold pricingSucceeds, pricingAnswer.
      destruct H as [Hc|[(msg & Hr)|(response & Hr & Hb)]].
      - now rewrite Hc.
      - rewrite Hr. now destruct (credentialsConfigured env).
      - rewrite Hr. destruct (credentialsConfigured env); [|reflexivity].
        destruct Hb as [Hok|(msg & Hbody)].
        + now rewrite Hok.
        + rewrite Hbody. now destruct (ok response). }
    unfold layeredAnswer. rewrite P. split; [reflexivity|]. split.
    + unfold onchainAnswer. intros info Hi.
      destruct (readSymbol env chain contractAddress); [|discriminate].
      destruct (readName env chain contractAddress); [|discriminate].
      destruct (readDecimals env chain contractAddress); [|discriminate].
      injection Hi as <-. reflexivity.
    + unfold onchainAnswer.
      intros [(msg & F)|[(msg & F)|(msg & F)]]; rewrite F.
      * reflexivity.
      * now destruct (readSymbol env chain contractAddress).
      * destruct (readSymbol env chain contractAddress); [|reflexivity].
        now destruct (readName env chain contractAddress).
  - intros balances text value rest t Hv Hnz Hnone.
    destruct (processTokens_appends env chain
                ((contractAddress, Some text) :: rest) balances) as (es & A).
    destruct (processTokens_appends env chain rest balances) as (es' & A').
    exists es, es'. rewrite A, A'. cbn [tokenEntries tokenEntry].
    rewrite Hv. apply Z.eqb_neq in Hnz. now rewrite Hnz, Hnone.
Qed.

Lemma price_resolution_falls_back_then_skips_witness :
  layeredAnswer Examples.unknownTokenOutside base Examples.unknownAddress
  = None
  /\ List.map (fun b => (TokenBalance.symbol b, TokenBalance.balance b,
                         Qeq_bool (TokenBalance.usdValue b) 0))
              (balancesOf Examples.unknownTokenOutside
                          Examples.walletAddress base)
     = [("USDC", "100.000000", true)].
Proof.
  destruct (price_resolution_falls_back_then_skips
              Examples.unknownTokenOutside Examples.unknownAddress base)
    as (_ & _ & Hfall & _ & Hchain).
  split.
  - apply Hfall.
    + right. left. exists "This operation was aborted". reflexivity.
    + left. exists "execution reverted". reflexivity.
  - destruct (Hchain Examples.walletAddress "https://base.example"
                _ _ _ _ 0%Z eq_refl eq_refl eq_refl eq_refl eq_refl
                eq_refl eq_refl eq_refl)
      as (native & -> & Hlen).
    destruct native; [|discriminate Hlen]. reflexivity.
Defined.

(** C7. The snapshot is built from the concatenation of the per-chain
    lists: its total is the sum of the values of all the tokens, added
    from the left starting at zero; its tokens are those of the
    concatenation in descending order of value, the tokens of equal value
    in the order they had; and the sections of the text are the groups
    of these sorted tokens by chain, the chains in the order in which
    they first occur among the sorted tokens and the tokens of a chain
    in sorted order. *)
Theorem snapshot_is_flattened_summed_sorted_grouped :
  forall (address : string) (allBalancesArrays : list (list TokenBalance.t)),
    let flat := List.concat allBalancesArrays in
    let sorted := sort byUsdValueDescending flat in
    exists d heading body,
      summarize address allBalancesArrays
      = mkActionResult (PortfolioText address heading body) true (Snapshot d)
      /\ totalBalance d
         = fold_left (fun sum token => (sum + TokenBalance.usdValue token)%Q)
                     flat 0%Q
      /\ (totalBalance d == sumUsd flat)%Q
      /\ tokens d = List.map viewOf sorted
      /\ tokenCount d = List.length flat
      /\ Permutation flat sorted
      /\ StronglySorted descending sorted
      /\ (forall v, tiesAt v sorted = tiesAt v flat)
      /\ groupByChain sorted = grouped sorted
      /\ List.map fst (grouped sorted)
         = firstSeen (List.map TokenBalance.chain sorted)
      /\ (forall c l, In (c, l) (grouped sorted) -> l = onChain c sorted)
      /\ body = (if (List.length sorted =? 0)%nat then NoTokensFound
                 else Assets (List.length sorted)
                        (List.map (fun e => (toUpperCase (chainTag (fst e)),
                                             snd e))
                                  (grouped sorted))).
Proof.
  intros address arrays flat sorted.
  eexists. eexists. eexists. split; [reflexivity|].
  cbn [totalBalance tokens tokenCount].
  split; [reflexivity|].
  split; [rewrite sumUsd_fold; apply Qplus_0_l|].
  split; [reflexivity|].
  split; [apply Permutation_length, sort_perm|].
  split; [apply Permutation_sym, sort_perm|].
  split; [apply sort_sorted|].
  split; [intro v; apply sort_ties|].
  split; [apply groupByChain_grouped|].
  split.
  { unfold grouped. rewrite map_map. cbn [fst]. apply map_id. }
  split.
  { unfold grouped. intros c l H. apply in_map_iff in H as (c' & E & _).
    now injection E as <- <-. }
  fold flat. fold sorted. now rewrite groupByChain_grouped.
Qed.

Lemma snapshot_is_flattened_summed_sorted_grouped_witness :
  exists d,
    data (summarize Examples.walletAddress Examples.threeTokens) = Snapshot d
    /\ List.map TokenView.symbol (tokens d) = ["DAI"; "USDC"; "ETH"]
    /\ (totalBalance d == 125 # 1)%Q
    /\ List.map (fun e => (fst e, List.map TokenBalance.symbol (snd e)))
                (groupByChain
                   (sort byUsdValueDescending
                         (List.concat Examples.threeTokens)))
       = [(base, ["DAI"; "ETH"]); (polygon, ["USDC"])].
Proof.
  destruct (snapshot_is_flattened_summed_sorted_grouped
              Examples.walletAddress Examples.threeTokens)
    as (d & heading & body & E & _ & Hsum & Htok & _ & _ & _ & _ & Hgrp & _).
  exists d. rewrite E. split; [reflexivity|].
  split; [rewrite Htok; reflexivity|].
  split; [rewrite Hsum; reflexivity|].
  rewrite Hgrp. reflexivity.
Defined.

End WalletClaims.

(* ------------------------------------------------------------------ *)
(** ** More about the cached index: retries, backoff, freshness          *)
(* ------------------------------------------------------------------ *)

Section IndexMore.

Import DefiLlama Spec Steps Lifecycle.
Local Open Scope Z_scope.

Variable env : Env.

Lemma retriesLogged_app (l l' : list LogEntry) :
  retriesLogged (l ++ l') = (retriesLogged l + retriesLogged l')%nat.
Proof. unfold retriesLogged. now rewrite filter_app, length_app. Qed.

(** The loop up to its first good attempt: [k] retries, then the load. *)
Lemma retryLoop_first_good (k : nat) :
  forall (todo : list Z) (w : World),
    (k < List.length todo)%nat ->
    (forall i, (i < k)%nat -> nth i todo 0 <> maxAttempts) ->
    (forall i, (i < k)%nat ->
               attemptFails (net env (fetched w + i)) = true) ->
    attemptFails (net env (fetched w + k)) = false ->
    exists w0,
      retryLoop env todo w
      = (Normal tt,
         afterLoad env (nth k todo 0)
                   (delivered (net env (fetched w + k))) w0)
      /\ fetched w0 = (fetched w + k)%nat
      /\ drawn w0 = (drawn w + k)%nat
      /\ ttlMs w0 = ttlMs w
      /\ exists added,
           logs w0 = (logs w ++ added)%list
           /\ retriesLogged added = k.
Proof.
  induction k as [|k IH]; intros todo w Hlen Hnot Hfail Hgood.
  - destruct todo as [|a rest]; [cbn in Hlen; lia|].
    rewrite retryLoop_cons. cbv zeta. rewrite Nat.add_0_r in Hgood.
    rewrite Hgood. exists w. rewrite !Nat.add_0_r.
    repeat split. exists []. now rewrite app_nil_r.
  - destruct todo as [|a rest]; [cbn in Hlen; lia|].
    rewrite retryLoop_cons. cbv zeta.
    pose proof (Hfail 0%nat ltac:(lia)) as F0. rewrite Nat.add_0_r in F0.
    rewrite F0.
    pose proof (Hnot 0%nat ltac:(lia)) as N0. cbn [nth] in N0.
    apply Z.eqb_neq in N0. rewrite N0.
    destruct (IH rest (afterRetry env a
                         (failureMessage (net env (fetched w))) w))
      as (w0 & E & Hf & Hd & Ht & added & Hl & Hr).
    + cbn [List.length] in Hlen. lia.
    + intros i Hi. apply (Hnot (S i)). lia.
    + intros i Hi. unfold_step.
      replace (S (fetched w) + i)%nat with (fetched w + S i)%nat by lia.
      apply Hfail. lia.
    + unfold_step.
      replace (S (fetched w) + k)%nat with (fetched w + S k)%nat by lia.
      exact Hgood.
    + revert E Hf Hd Ht Hl. unfold_step. intros E Hf Hd Ht Hl.
      replace (S (fetched w) + k)%nat with (fetched w + S k)%nat in E by lia.
      exists w0. cbn [nth]. split; [exact E|].
      split; [lia|]. split; [lia|]. split; [exact Ht|].
      eexists. split; [rewrite Hl, <- app_assoc; reflexivity|].
      rewrite retriesLogged_app, Hr. reflexivity.
Qed.

Lemma nth_attempts (i : nat) :
  (i < 5)%nat -> nth i attempts 0 = Z.of_nat (S i).
Proof.
  intro H. rewrite attempts_eq.
  do 5 (destruct i as [|i]; [reflexivity|]). lia.
Qed.

(** [loadIndex] up to its first good attempt. *)
Lemma loadIndex_first_good (w : World) (k : nat) :
  (k < 5)%nat ->
  (forall i, (i < k)%nat ->
             attemptFails (net env (fetched w + i)) = true) ->
  attemptFails (net env (fetched w + k)) = false ->
  exists w0 added,
    loadIndex env w
    = (Normal tt,
       afterLoad env (Z.of_nat (S k))
                 (delivered (net env (fetched w + k))) w0)
    /\ fetched w0 = (fetched w + k)%nat
    /\ drawn w0 = (drawn w + k)%nat
    /\ ttlMs w0 = ttlMs w
    /\ logs w0 = (logs w ++ added)%list
    /\ retriesLogged added = k.
Proof.
  intros Hk Hfail Hgood.
  destruct (retryLoop_first_good (k := k) attempts w)
    as (w0 & E & Hf & Hd & Ht & added & Hl & Hr).
  - rewrite attempts_eq. cbn [List.length]. lia.
  - intros i Hi. rewrite nth_attempts by lia. unfold maxAttempts. lia.
  - exact Hfail.
  - exact Hgood.
  - rewrite nth_attempts in E by lia. exists w0, added. now repeat split.
Qed.

(** X1. When the first [k] attempts of a refresh fail and the next one,
    still within the five, does not, [loadIndex] makes exactly [k + 1]
    calls of [fetch] and draws [k] random numbers, announces [k]
    retries, stores the list that the good attempt delivers, and stamps
    it with the clock as it is when the refresh ends. *)
Theorem refresh_succeeds_at_first_good_attempt :
  forall (w : World) (k : nat),
    (k < 5)%nat ->
    (forall i, (i < k)%nat ->
               attemptFails (net env (fetched w + i)) = true) ->
    attemptFails (net env (fetched w + k)) = false ->
    exists w' added,
      loadIndex env w = (Normal tt, w')
      /\ fetched w' = (fetched w + k + 1)%nat
      /\ drawn w' = (drawn w + k)%nat
      /\ cache w' = delivered (net env (fetched w + k))
      /\ cacheTimestampMs w' = clock w'
      /\ ttlMs w' = ttlMs w
      /\ logs w' = (logs w ++ added)%list
      /\ retriesLogged added = k.
Proof.
  intros w k Hk Hfail Hgood.
  destruct (loadIndex_first_good w Hk Hfail Hgood)
    as (w0 & added & E & Hf & Hd & Ht & Hl & Hr).
  eexists. eexists. split; [exact E|]. unfold_step.
  split; [lia|]. split; [lia|]. split; [reflexivity|].
  split; [reflexivity|]. split; [exact Ht|].
  split; [rewrite Hl, <- app_assoc; reflexivity|].
  rewrite retriesLogged_app, Hr. cbn. lia.
Qed.

Lemma backoff_bounds (attempt : Z) (r : Q) :
  (0 <= r)%Q -> (r < 1)%Q ->
  leastBackoff attempt
  <= baseDelayMs * 2 ^ (attempt - 1) + Qfloor (r * inject_Z 200)%Q
  <= greatestBackoff attempt.
Proof.
  intros H0 H1. unfold leastBackoff, greatestBackoff, baseDelayMs.
  assert (L : 0 <= Qfloor (r * inject_Z 200)%Q).
  { change 0 with (Qfloor (inject_Z 0)). apply Qfloor_resp_le.
    change (inject_Z 0) with (0 * inject_Z 200)%Q.
    apply Qmult_le_compat_r; [exact H0 | discriminate]. }
  assert (U : Qfloor (r * inject_Z 200)%Q < 200).
  { rewrite Zlt_Qlt.
    apply Qle_lt_trans with (r * inject_Z 200)%Q; [apply Qfloor_le|].
    apply Qlt_le_trans with (1 * inject_Z 200)%Q.
    - apply Qmult_lt_compat_r; [reflexivity | exact H1].
    - discriminate. }
  lia.
Qed.

(** What the loop adds to the log: the retries it announces follow
    attempts of its list other than the last of the budget, each with a
    delay inside the bounds, and there is at most one per such attempt. *)
Lemma retryLoop_retries (todo : list Z) :
  (forall n, (0 <= random env n)%Q /\ (random env n < 1)%Q) ->
  forall w w',
    retryLoop env todo w = (Normal tt, w') ->
    exists added,
      logs w' = (logs w ++ added)%list
      /\ (retriesLogged added
          <= List.length (List.filter (fun a => negb (a =? maxAttempts)%Z) todo))%nat
      /\ forall a msg b,
           In (WarnRetry a msg b) added ->
           In a todo /\ a <> maxAttempts
           /\ leastBackoff a <= b <= greatestBackoff a.
Proof.
  intro Hr. induction todo as [|attempt rest IH]; intros w w' E.
  - cbn in E. injection E as <-. exists []. rewrite app_nil_r.
    split; [reflexivity|]. split; [cbn; lia|]. intros a msg b [].
  - rewrite retryLoop_cons in E. cbv zeta in E. cbn [List.filter].
    destruct (attemptFails (net env (fetched w))).
    + destruct (Z.eqb_spec attempt maxAttempts) as [->|Hne].
      * injection E as <-. eexists. split; [reflexivity|].
        split; [cbn; lia|].
        intros a msg b [H|[H|[]]]; discriminate H.
      * destruct (IH _ _ E) as (added & Hl & Hc & Hin).
        revert Hl. unfold_step. intro Hl. rewrite <- app_assoc in Hl.
        eexists. split; [exact Hl|]. split.
        -- rewrite retriesLogged_app. cbn [negb List.length]. cbn. lia.
        -- intros a msg b Ha. apply in_app_or in Ha as [Ha|Ha].
           ++ destruct Ha as [H|[H|[]]]; [discriminate H|].
              injection H as <- <- <-. split; [now left|]. split; [exact Hne|].
              apply backoff_bounds; apply Hr.
           ++ destruct (Hin _ _ _ Ha) as (H1 & H2 & H3).
              split; [now right|]. now split.
    + injection E as <-. eexists. split; [reflexivity|].
      split; [cbn; lia|].
      intros a msg b [H|[H|[]]]; discriminate H.
Qed.

(** X2. With [Math.random] in its range, every retry that [loadIndex]
    announces follows one of the attempts 1 to 4 and waits between
    500 * 2^(attempt - 1) and 500 * 2^(attempt - 1) + 199 milliseconds;
    a refresh announces at most four retries. *)
Theorem retry_backoff_is_bounded :
  (forall n, (0 <= random env n)%Q /\ (random env n < 1)%Q) ->
  forall w w',
    loadIndex env w = (Normal tt, w') ->
    exists added,
      logs w' = (logs w ++ added)%list
      /\ (retriesLogged added <= 4)%nat
      /\ forall attempt msg backoff,
           In (WarnRetry attempt msg backoff) added ->
           1 <= attempt <= 4
           /\ leastBackoff attempt <= backoff <= greatestBackoff attempt.
Proof.
  intros Hr w w' E.
  destruct (@retryLoop_retries attempts Hr w w' E) as (added & Hl & Hc & Hin).
  exists added. split; [exact Hl|]. split; [exact Hc|].
  intros a msg b Ha. destruct (Hin _ _ _ Ha) as (H1 & H2 & H3).
  split; [|exact H3]. rewrite attempts_eq in H1. unfold maxAttempts in H2.
  destruct H1 as [<-|[<-|[<-|[<-|[<-|[]]]]]]; lia.
Qed.

(** X3. A response that is a success but delivers no record, because its
    body is not a list or is the empty list, replaces the generation by
    the empty one: the records held before are gone, the timestamp is
    the clock, and whatever the TTL the generation is stale again at
    every later reading of the clock. *)
Theorem empty_delivery_empties_the_generation :
  forall w,
    attemptFails (net env (fetched w)) = false ->
    delivered (net env (fetched w)) = [] ->
    exists w',
      loadIndex env w = (Normal tt, w')
      /\ cache w' = []
      /\ cacheTimestampMs w' = clock w'
      /\ fetched w' = S (fetched w)
      /\ (forall now, stale now w' = true)
      /\ forall names, exists w'',
           getProtocolsByNames env names w'
           = (Normal (List.map (Resolver.resolveOne (cache w'')) names), w'')
           /\ (fetched w' < fetched w'')%nat.
Proof.
  intros w Hgood Hempty.
  assert (E : loadIndex env w
              = (Normal tt, afterLoad env 1 [] w)).
  { unfold loadIndex. rewrite attempts_eq, retryLoop_cons. cbv zeta.
    now rewrite Hgood, Hempty. }
  eexists. split; [exact E|]. unfold_step.
  split; [reflexivity|]. split; [reflexivity|]. split; [reflexivity|].
  assert (S : forall now, stale now (afterLoad env 1 [] w) = true)
    by (intro now; reflexivity).
  split; [exact S|]. intro names.
  pose proof (ensureFresh_eq env (afterLoad env 1 [] w)) as F.
  rewrite S in F.
  destruct (loadIndex_completes env (afterLoad env 1 [] w))
    as (w'' & E2 & _ & Hf & _).
  rewrite E2 in F. exists w''. split.
  - now apply getProtocolsByNames_eq.
  - revert Hf. unfold_step. lia.
Qed.

(** X4. After a refresh that succeeds with at least one record, under a
    TTL that is not negative, the generation is fresh at the clock the
    refresh ends on: a call of [getProtocolsByNames] made then answers
    from it without any call of [fetch] and leaves the service as it is. *)
Theorem fresh_after_successful_refresh :
  forall (w : World) (k : nat),
    (k < 5)%nat ->
    (forall i, (i < k)%nat ->
               attemptFails (net env (fetched w + i)) = true) ->
    attemptFails (net env (fetched w + k)) = false ->
    delivered (net env (fetched w + k)) <> [] ->
    ttlNonNegative (ttlMs w) ->
    exists w',
      loadIndex env w = (Normal tt, w')
      /\ stale (clock w') w' = false
      /\ forall names,
           getProtocolsByNames env names w'
           = (Normal (List.map (Resolver.resolveOne (cache w')) names), w').
Proof.
  intros w k Hk Hfail Hgood Hne Httl.
  destruct (loadIndex_first_good w Hk Hfail Hgood)
    as (w0 & added & E & Hf & Hd & Ht & Hl & Hr).
  eexists. split; [exact E|].
  match goal with |- stale ?c ?x = false /\ _ =>
    assert (S : stale c x = false) end.
  { unfold stale. unfold_step. rewrite Z.sub_diag, Ht.
    destruct (delivered (net env (fetched w + k))) as [|p l];
      [congruence|]. cbn [List.length Nat.eqb orb].
    unfold ttlNonNegative in Httl. destruct (ttlMs w) as [| | |q];
      try contradiction; [reflexivity|].
    cbn. apply negb_false_iff. now apply Qle_bool_iff. }
  split; [exact S|]. intro names.
  apply getProtocolsByNames_eq. rewrite ensureFresh_eq. now rewrite S.
Qed.

(** X5. The service starts whatever the network does: when the five
    attempts of the first refresh fail, [start] still returns normally,
    after five calls of [fetch], with an empty generation, which is
    stale at every reading of the clock, so that each later call of
    [getProtocolsByNames] tries to refresh again. *)
Theorem start_survives_a_dead_network :
  forall (ttlSetting : option string) (t0 : Z),
    (forall i, (i < 5)%nat -> attemptFails (net env i) = true) ->
    exists w',
      start env ttlSetting t0 = (Normal tt, w')
      /\ cache w' = []
      /\ fetched w' = 5%nat
      /\ (forall now, stale now w' = true)
      /\ forall names, exists w'',
           getProtocolsByNames env names w'
           = (Normal (List.map (Resolver.resolveOne (cache w'')) names), w'')
           /\ (fetched w' < fetched w'')%nat.
Proof.
  intros ttlSetting t0 H. unfold start, initialize, bind.
  rewrite applyTtlSetting_eq.
  match goal with
  | |- context [loadIndex env ?x] =>
      assert (C : cache x = [] /\ fetched x = 0%nat)
        by (destruct ttlSetting as [s|]; [|now split];
            match goal with
            | |- context [if ?b then _ else _] => destruct b
            end; now split);
      destruct C as [C0 F0];
      pose proof (loadIndex_exhausted env x) as E
  end.
  rewrite F0 in E. specialize (E H). cbv zeta in E. rewrite E.
  eexists. split; [reflexivity|]. unfold_step.
  split; [exact C0|]. split; [now rewrite F0|].
  match goal with |- (forall now, stale now ?x = true) /\ _ =>
    assert (S : forall now, stale now x = true)
      by (intro now; unfold stale; unfold_step; now rewrite C0);
    split; [exact S|]; intro names;
    pose proof (ensureFresh_eq env x) as F; rewrite S in F;
    destruct (loadIndex_completes env x) as (w'' & E2 & _ & Hf & _)
  end.
  rewrite E2 in F. exists w''. split.
  - now apply getProtocolsByNames_eq.
  - revert Hf. unfold_step. lia.
Qed.

End IndexMore.

Lemma refresh_succeeds_at_first_good_attempt_witness :
  exists w',
    DefiLlama.loadIndex Scenarios.flaky (DefiLlama.constructed 0)
    = (Normal tt, w')
    /\ DefiLlama.fetched w' = 3%nat
    /\ DefiLlama.cache w' = Examples.aaveRecords
    /\ DefiLlama.cacheTimestampMs w' = DefiLlama.clock w'.
Proof.
  destruct (@refresh_succeeds_at_first_good_attempt
              Scenarios.flaky (DefiLlama.constructed 0) 2%nat)
    as (w' & added & E & Hf & _ & Hc & Hts & _).
  - lia.
  - intros i Hi. destruct i as [|[|i]]; [reflexivity | reflexivity | lia].
  - reflexivity.
  - exists w'. repeat split; assumption.
Defined.

Lemma retry_backoff_is_bounded_witness :
  exists w',
    DefiLlama.loadIndex Scenarios.flaky (DefiLlama.constructed 0)
    = (Normal tt, w')
    /\ forall attempt msg backoff,
         In (DefiLlama.WarnRetry attempt msg backoff) (DefiLlama.logs w') ->
         (Lifecycle.leastBackoff attempt <= backoff
          <= Lifecycle.greatestBackoff attempt)%Z.
Proof.
  assert (Hr : forall n, (0 <= DefiLlama.random Scenarios.flaky n)%Q
                         /\ (DefiLlama.random Scenarios.flaky n < 1)%Q)
    by (intro n; split; [discriminate | reflexivity]).
  assert (E : DefiLlama.loadIndex Scenarios.flaky (DefiLlama.constructed 0)
              = (Normal tt,
                 snd (DefiLlama.loadIndex Scenarios.flaky
                                          (DefiLlama.constructed 0))))
    by (vm_compute; reflexivity).
  destruct (@retry_backoff_is_bounded Scenarios.flaky Hr _ _ E)
    as (added & Hl & _ & Hin).
  eexists. split; [exact E|].
  intros a msg b Ha. rewrite Hl in Ha. apply (Hin _ _ _ Ha).
Defined.

Lemma empty_delivery_empties_the_generation_witness :
  exists w',
    DefiLlama.loadIndex Scenarios.notAList Examples.aaveWorldLater
    = (Normal tt, w')
    /\ DefiLlama.cache w' = []
    /\ DefiLlama.stale 400040 w' = true.
Proof.
  destruct (@empty_delivery_empties_the_generation
              Scenarios.notAList Examples.aaveWorldLater eq_refl eq_refl)
    as (w' & E & Hc & _ & _ & Hs & _).
  exists w'. repeat split; [exact E | exact Hc | apply Hs].
Defined.

Lemma fresh_after_successful_refresh_witness :
  exists w',
    DefiLlama.loadIndex Scenarios.flaky (DefiLlama.constructed 0)
    = (Normal tt, w')
    /\ DefiLlama.getProtocolsByNames Scenarios.flaky ["aave v2"%string] w'
       = (Normal [mkResult "aave v2" true
                    (Some (shapeProtocol (Spec.named "Aave V2"))) None], w').
Proof.
  destruct (@fresh_after_successful_refresh
              Scenarios.flaky (DefiLlama.constructed 0) 2%nat)
    as (w' & E & _ & Hq).
  - lia.
  - intros i Hi. destruct i as [|[|i]]; [reflexivity | reflexivity | lia].
  - reflexivity.
  - discriminate.
  - discriminate.
  - exists w'. split; [exact E|]. rewrite Hq.
    vm_compute in E. injection E as <-. reflexivity.
Defined.

Lemma start_survives_a_dead_network_witness :
  exists w',
    Lifecycle.start Examples.offline (Some "60000"%string) 0 = (Normal tt, w')
    /\ DefiLlama.cache w' = []
    /\ DefiLlama.fetched w' = 5%nat.
Proof.
  destruct (@start_survives_a_dead_network
              Examples.offline (Some "60000"%string) 0%Z)
    as (w' & E & Hc & Hf & _); [intros i _; reflexivity|].
  exists w'. now repeat split.
Defined.

(* ------------------------------------------------------------------ *)
(** ** More about the resolver and the shaped view                      *)
(* ------------------------------------------------------------------ *)

Section ResolverMore.

Import DefiLlama Resolver Spec Lifecycle.
Local Open Scope string_scope.

Lemma existsb_eqb_In (x : string) (l : list string) :
  existsb (String.eqb x) l = true <-> In x l.
Proof.
  rewrite existsb_exists. split.
  - intros (y & Hy & E). apply String.eqb_eq in E. now subst.
  - intro H. exists x. split; [exact H | apply String.eqb_refl].
Qed.

Lemma fromSet_In (xs : list string) :
  forall seen c, In c (fromSet seen xs) <-> In c xs /\ ~ In c seen.
Proof.
  induction xs as [|x xs IH]; intros seen c; cbn; [tauto|].
  destruct (existsb (String.eqb x) seen) eqn:E.
  - apply existsb_eqb_In in E. rewrite IH. split.
    + intros [H1 H2]. tauto.
    + intros [[->|H1] H2]; [contradiction | tauto].
  - assert (N : ~ In x seen).
    { intro H. apply existsb_eqb_In in H. congruence. }
    cbn. rewrite IH. cbn. split.
    + intros [->|[H1 H2]]; [tauto|]. split; [tauto|]. tauto.
    + intros [[->|H1] H2]; [now left|].
      destruct (string_dec x c) as [->|D]; [now left|]. right.
      split; [exact H1|]. intros [H|H]; [congruence | contradiction].
Qed.

Lemma fromSet_NoDup (xs : list string) :
  forall seen, NoDup (fromSet seen xs).
Proof.
  induction xs as [|x xs IH]; intro seen; cbn; [constructor|].
  destruct (existsb (String.eqb x) seen); [apply IH|].
  constructor; [|apply IH].
  rewrite fromSet_In. cbn. tauto.
Qed.

Lemma fromSet_id (xs : list string) :
  forall seen,
    NoDup xs -> (forall c, In c xs -> ~ In c seen) -> fromSet seen xs = xs.
Proof.
  induction xs as [|x xs IH]; intros seen Hnd Hdis; cbn; [reflexivity|].
  inversion Hnd as [|? ? Hx Hnd']; subst.
  assert (E : existsb (String.eqb x) seen = false).
  { destruct (existsb (String.eqb x) seen) eqn:E; [|reflexivity].
    apply existsb_eqb_In in E. exfalso. apply (Hdis x); [now left | exact E]. }
  rewrite E. f_equal. apply IH; [exact Hnd'|].
  intros c Hc [<-|H]; [contradiction|].
  apply (Hdis c); [now right | exact H].
Qed.

(** X6. The [chains] of the view that [shapeProtocol] builds hold each
    chain tag of the record once and nothing else; a list of tags
    without repetition is kept as it is, and a record whose [chains] is
    not a list gets the empty list. *)
Theorem shaped_chains_are_the_distinct_chain_tags :
  forall p : Protocol.t,
    NoDup (Shaped.chains (shapeProtocol p))
    /\ (forall c, In c (Shaped.chains (shapeProtocol p))
                  <-> exists l, Protocol.chains p = Some l /\ In c l)
    /\ (forall l, Protocol.chains p = Some l -> NoDup l ->
                  Shaped.chains (shapeProtocol p) = l)
    /\ (Protocol.chains p = None -> Shaped.chains (shapeProtocol p) = []).
Proof.
  intro p. unfold shapeProtocol; cbn [Shaped.chains].
  destruct (Protocol.chains p) as [l|].
  - split; [apply fromSet_NoDup|]. split; [|split; [|discriminate]].
    + intro c. rewrite fromSet_In. split.
      * intros [H _]. now exists l.
      * intros (l' & E & H). injection E as <-. split; [exact H | intros []].
    + intros l' E Hnd. injection E as <-. apply fromSet_id; [exact Hnd|].
      intros c _ [].
  - split; [constructor|]. split; [|split; [discriminate | reflexivity]].
    intro c. split; [intros [] | intros (l & E & _); discriminate].
Qed.

Lemma shaped_chains_are_the_distinct_chain_tags_witness :
  Shaped.chains
    (shapeProtocol
       (Protocol.mk "1" (Some "Aave") None None None None None
                    (Some ["Ethereum"; "Base"]) None None None None None
                    None None None None))
  = ["Ethereum"; "Base"].
Proof.
  apply (@shaped_chains_are_the_distinct_chain_tags
           (Protocol.mk "1" (Some "Aave") None None None None None
                        (Some ["Ethereum"; "Base"]) None None None None None
                        None None None None)).
  - reflexivity.
  - repeat constructor; cbn; intuition discriminate.
Defined.

Lemma scan_In (test : Protocol.t -> bool) (cache : list Protocol.t) p :
  scan test cache = Some p -> In p cache.
Proof.
  rewrite scan_find. intro H. now apply find_some in H.
Qed.

Lemma pick_In (cache : list Protocol.t) (qLower : string) p :
  pick cache qLower = Some p -> In p cache.
Proof.
  unfold pick, unlessPicked.
  repeat match goal with
         | |- context [scan ?f cache] =>
             let E := fresh "E" in
             destruct (scan f cache) eqn:E;
             [intro H; injection H as <-; now apply scan_In in E|]
         end.
  discriminate.
Qed.

Lemma resolveOne_match_or_reason (cache : list Protocol.t) (raw : string) :
  (exists p, In p cache /\ isMatch (resolveOne cache raw) p)
  \/ isReason (resolveOne cache raw).
Proof.
  destruct (string_dec (trim raw) "") as [E|E].
  - right. rewrite (resolveOne_blank _ _ E). repeat split. now eexists.
  - rewrite (resolveOne_nonblank _ _ E).
    destruct (pick cache (toLowerCase (trim raw))) as [p|] eqn:P.
    + left. exists p. split; [now apply pick_In in P | now repeat split].
    + right. repeat split. now eexists.
Qed.

(** X7. Every result of [getProtocolsByNames] is of one of two kinds: a
    match, with [success] true, no [error], and as [data] the view of a
    record of the generation the call answered from; or a reason, with
    [success] false, an [error] text and no [data]. *)
Theorem every_result_is_a_match_or_a_reason :
  forall (env : Env) (names : list string) (w w' : World)
         (results : list ResolutionResult),
    getProtocolsByNames env names w = (Normal results, w') ->
    Forall (fun r => (exists p, In p (cache w') /\ isMatch r p)
                     \/ isReason r)
           results.
Proof.
  intros env names w w' results E.
  destruct (ensureFresh_completes env w) as (w1 & F).
  rewrite (getProtocolsByNames_eq env names w F) in E.
  injection E as <- <-. apply Forall_forall. intros r Hr.
  apply in_map_iff in Hr as (raw & <- & _).
  apply resolveOne_match_or_reason.
Qed.

Lemma every_result_is_a_match_or_a_reason_witness :
  Forall (fun r => (exists p, In p Examples.aaveRecords
                              /\ isMatch r p)
                   \/ isReason r)
         [mkResult "Aave" true (Some (shapeProtocol (named "Aave"))) None;
          mkResult "" false None (Some "Empty protocol name")].
Proof.
  apply (@every_result_is_a_match_or_a_reason
           Examples.offline ["Aave"; " "] Examples.aaveWorld
           Examples.aaveWorld).
  reflexivity.
Defined.

(** X8. A record of the generation that has a name is found by that
    name: a query that, once trimmed and put in lower case, is the name
    in lower case succeeds, and it is answered by the first record of
    the generation that bears this name up to case. *)
Theorem lookup_by_own_name_succeeds :
  forall (cache : list Protocol.t) (p : Protocol.t) (n raw : string),
    In p cache ->
    Protocol.name p = Some n ->
    n <> "" ->
    toLowerCase (trim raw) = toLowerCase n ->
    exists p',
      resolveOne cache raw
      = mkResult (trim raw) true (Some (shapeProtocol p')) None
      /\ firstIn (tierMatch ExactName n) cache p'.
Proof.
  intros cache p n raw Hin Hname Hn Hq.
  assert (Ht : trim raw <> "").
  { intro E. rewrite E in Hq. symmetry in Hq.
    apply (proj1 (toLowerCase_empty_iff n)) in Hq. contradiction. }
  rewrite (resolveOne_nonblank _ _ Ht). unfold pick. rewrite Hq.
  rewrite (scan_ext _ _ cache (nameIs_tier Hn)), scan_find.
  destruct (List.find (tierMatch ExactName n) cache) as [p'|] eqn:F.
  - exists p'. cbn [unlessPicked]. split; [reflexivity|].
    now apply find_Some_firstIn.
  - exfalso. pose proof (find_none _ _ F p Hin) as N.
    cbn in N. rewrite Hname in N. cbn in N.
    unfold sameIgnoringCase in N. now rewrite String.eqb_refl in N.
Qed.

Lemma lookup_by_own_name_succeeds_witness :
  exists p',
    resolveOne Examples.aaveRecords " AAVE V2 "
    = mkResult "AAVE V2" true (Some (shapeProtocol p')) None
    /\ firstIn (tierMatch ExactName "Aave V2") Examples.aaveRecords p'.
Proof.
  apply (@lookup_by_own_name_succeeds
           Examples.aaveRecords (named "Aave V2") "Aave V2" " AAVE V2 ").
  - right. now left.
  - reflexivity.
  - discriminate.
  - reflexivity.
Defined.

End ResolverMore.

(* ------------------------------------------------------------------ *)
(** ** The action GET_PROTOCOL_TVL                                      *)
(* ------------------------------------------------------------------ *)

Section TvlActionFacts.

Import Outside Resolver Lifecycle.
Local Open Scope string_scope.

Lemma trimEnd_idempotent (s : string) : trimEnd (trimEnd s) = trimEnd s.
Proof.
  induction s as [|c s IH]; cbn; [reflexivity|].
  destruct (trimEnd s) as [|c' r] eqn:E.
  - destruct (isWhiteSpace c) eqn:W; cbn; [reflexivity | now rewrite W].
  - cbn [trimEnd]. cbn [trimEnd] in IH. rewrite IH. reflexivity.
Qed.

Lemma trimStart_head (s : string) :
  trimStart s = "" \/ exists c r, trimStart s = String c r
                                  /\ isWhiteSpace c = false.
Proof.
  induction s as [|c s IH]; cbn; [now left|].
  destruct (isWhiteSpace c) eqn:W; [exact IH|]. right. now exists c, s.
Qed.

Lemma trimEnd_head (c : ascii) (r : string) :
  isWhiteSpace c = false -> exists r', trimEnd (String c r) = String c r'.
Proof.
  intro W. cbn. destruct (trimEnd r); [rewrite W|]; now eexists.
Qed.

(** [trim] returns a text that [trim] leaves alone. *)
Lemma trim_idempotent (s : string) : trim (trim s) = trim s.
Proof.
  unfold trim at 2 3. destruct (trimStart_head s) as [E|(c & r & E & W)].
  - rewrite E. reflexivity.
  - rewrite E. destruct (@trimEnd_head c r W) as (r' & E').
    unfold trim. rewrite E'. cbn [trimStart]. rewrite W.
    rewrite <- E'. apply trimEnd_idempotent.
Qed.

Lemma split_nonempty (sep : ascii) (s : string) : TvlAction.split sep s <> [].
Proof.
  destruct s as [|c s]; cbn; [discriminate|].
  destruct (c =? sep)%char; [discriminate|].
  destruct (TvlAction.split sep s); discriminate.
Qed.

Lemma split_free (sep : ascii) (s : string) :
  TvlAction.free sep s = true -> TvlAction.split sep s = [s].
Proof.
  induction s as [|c s IH]; cbn; [reflexivity|].
  intro H. apply andb_true_iff in H as [H1 H2].
  apply negb_true_iff in H1. rewrite H1, (IH H2). reflexivity.
Qed.

Lemma split_app (sep : ascii) (piece rest : string) :
  TvlAction.free sep piece = true ->
  TvlAction.split sep (piece ++ String sep rest)
  = piece :: TvlAction.split sep rest.
Proof.
  induction piece as [|c piece IH]; cbn.
  - intros _. now rewrite Ascii.eqb_refl.
  - intro H. apply andb_true_iff in H as [H1 H2].
    apply negb_true_iff in H1. rewrite H1, (IH H2). reflexivity.
Qed.

(** Splitting what was joined gives the pieces back. *)
Lemma split_join (sep : ascii) (pieces : list string) :
  pieces <> [] ->
  Forall (fun piece => TvlAction.free sep piece = true) pieces ->
  TvlAction.split sep (TvlAction.join sep pieces) = pieces.
Proof.
  induction pieces as [|piece rest IH]; [congruence|].
  intros _ H. inversion H as [|? ? Hp Hrest]; subst.
  destruct rest as [|piece' rest'].
  - cbn. now apply split_free.
  - change (TvlAction.join sep (piece :: piece' :: rest'))
      with (piece ++ String sep (TvlAction.join sep (piece' :: rest'))).
    rewrite (@split_app sep piece _ Hp). f_equal. apply IH; [discriminate | exact Hrest].
Qed.

Lemma parseNames_trimmed (namesRaw : string) :
  Forall (fun n => n <> "" /\ trim n = n) (TvlAction.parseNames namesRaw).
Proof.
  unfold TvlAction.parseNames. apply Forall_forall. intros n H.
  apply filter_In in H as [H T]. apply truthy_true_iff in T.
  apply in_map_iff in H as (piece & <- & _).
  split; [exact T | apply trim_idempotent].
Qed.

(** X9. The names that the action gives to the service are the pieces of
    the extracted text between its commas, trimmed, without the blank
    ones, in order.  Each of them is a text that is not empty and that
    [trim] leaves alone, so that the service answers it under the same
    [id] and never with the reason "Empty protocol name". *)
Theorem names_are_the_trimmed_nonblank_pieces :
  (forall pieces,
      pieces <> [] ->
      Forall (fun piece => TvlAction.free "," piece = true) pieces ->
      TvlAction.parseNames (TvlAction.join "," pieces)
      = List.filter truthy (List.map trim pieces))
  /\ (forall namesRaw cache n,
         In n (TvlAction.parseNames namesRaw) ->
         n <> "" /\ trim n = n
         /\ id (resolveOne cache n) = n
         /\ error (resolveOne cache n) <> Some "Empty protocol name").
Proof.
  split.
  - intros pieces Hne Hfree. unfold TvlAction.parseNames.
    now rewrite split_join.
  - intros namesRaw cache n H.
    pose proof (parseNames_trimmed namesRaw) as F.
    rewrite Forall_forall in F. destruct (F n H) as [Hn Ht].
    split; [exact Hn|]. split; [exact Ht|].
    split; [now rewrite resolveOne_id|].
    rewrite resolveOne_nonblank by congruence.
    destruct (pick cache (toLowerCase (trim n))); cbn; discriminate.
Qed.

Lemma names_are_the_trimmed_nonblank_pieces_witness :
  TvlAction.parseNames " Aave , ,Curve,"%string = ["Aave"; "Curve"].
Proof.
  destruct names_are_the_trimmed_nonblank_pieces as [H _].
  apply (H [" Aave "; " "; "Curve"; ""]); [discriminate|].
  repeat constructor.
Defined.

End TvlActionFacts.

Section ServiceLog.

Import DefiLlama Spec Steps.

Variable env : Env.

(** The service only ever adds to its log. *)
Lemma retryLoop_logs (todo : list Z) :
  forall w w',
    retryLoop env todo w = (Normal tt, w') ->
    exists added, logs w' = (logs w ++ added)%list.
Proof.
  induction todo as [|attempt rest IH]; intros w w' E.
  - cbn in E. injection E as <-. exists []. now rewrite app_nil_r.
  - rewrite retryLoop_cons in E. cbv zeta in E.
    destruct (attemptFails (net env (fetched w))).
    + destruct (attempt =? maxAttempts)%Z.
      * injection E as <-. eexists. reflexivity.
      * destruct (IH _ _ E) as (added & Hl). revert Hl. unfold_step.
        intro Hl. rewrite <- app_assoc in Hl. eexists. exact Hl.
    + injection E as <-. eexists. reflexivity.
Qed.

Lemma ensureFresh_logs (w w' : World) :
  ensureFresh env w = (Normal tt, w') ->
  exists added,
    logs w' = (logs w ++ added)%list
    /\ (stale (clock w) w = false -> added = []).
Proof.
  rewrite ensureFresh_eq. destruct (stale (clock w) w).
  - intro E. destruct (retryLoop_logs _ _ E) as (added & Hl).
    exists added. split; [exact Hl | discriminate].
  - intro E. injection E as <-. exists []. now rewrite app_nil_r.
Qed.

Lemma gained_app (w w' : World) (added : list LogEntry) :
  logs w' = (logs w ++ added)%list -> TvlAction.gained w w' = added.
Proof.
  intro E. unfold TvlAction.gained. rewrite E.
  rewrite skipn_app, skipn_all, Nat.sub_diag. reflexivity.
Qed.

End ServiceLog.

Section TvlHandlerFacts.

Import Outside Resolver Lifecycle.
Local Open Scope string_scope.

Lemma isSuccess_resolveOne (cache : list Protocol.t) (raw : string) :
  TvlAction.isSuccess (resolveOne cache raw) = success (resolveOne cache raw).
Proof.
  unfold TvlAction.isSuccess.
  destruct (resolveOne_match_or_reason cache raw)
    as [(p & _ & Hs & Hd & _)|(Hs & Hd & _)]; now rewrite Hs, Hd.
Qed.

Lemma successes_and_failures (cache : list Protocol.t) (names : list string) :
  (List.length (List.filter TvlAction.isSuccess
                            (List.map (resolveOne cache) names))
   + List.length (List.filter TvlAction.isFailure
                              (List.map (resolveOne cache) names))
   = List.length names)%nat.
Proof.
  induction names as [|n names IH]; cbn [List.map List.filter]; [reflexivity|].
  rewrite isSuccess_resolveOne. unfold TvlAction.isFailure at 1.
  destruct (success (resolveOne cache n)); cbn [negb List.length]; lia.
Qed.

(** The handler, branch by branch. *)
Lemma handler_cases (rt : TvlAction.Runtime) (env : DefiLlama.Env)
  (s : TvlAction.State) :
  exists w',
    DefiLlama.ensureFresh env (TvlAction.svc s) = (Normal tt, w')
    /\ TvlAction.handler rt env s =
       let fail msg s0 :=
         (Normal (TvlAction.failure (mkError msg)),
          TvlAction.afterFailure (mkError msg) s0) in
       if negb (TvlAction.serviceAvailable rt)
       then fail "DefiLlamaService not available" s
       else
         match TvlAction.extractedNames rt with
         | Rejected msg => fail msg s
         | Fulfilled namesOpt =>
             let namesRaw := orElse namesOpt "" in
             if negb (truthy namesRaw)
             then fail "No protocol names found in user message" s
             else
               let names := TvlAction.parseNames namesRaw in
               if (List.length names =? 0)%nat
               then fail "No valid protocol names parsed from message" s
               else
                 let results := List.map (resolveOne (DefiLlama.cache w')) names in
                 let logged :=
                   (TvlAction.logger s
                    ++ List.map TvlAction.ByService
                         (TvlAction.gained (TvlAction.svc s) w'))%list in
                 let s1 := TvlAction.mkState w' logged (TvlAction.delivered s) in
                 let s2 := TvlAction.mkState w' logged
                             (TvlAction.delivered s
                              ++ [TvlAction.text (TvlAction.report results)])%list in
                 if (List.length (List.filter TvlAction.isSuccess results) =? 0)%nat
                 then fail "No protocols matched the provided names" s1
                 else
                   match TvlAction.callback rt with
                   | Some (Rejected msg) => fail msg s2
                   | Some (Fulfilled _) => (Normal (TvlAction.report results), s2)
                   | None => (Normal (TvlAction.report results), s1)
                   end
         end.
Proof.
  destruct (ensureFresh_completes env (TvlAction.svc s)) as (w' & F).
  exists w'. split; [exact F|]. cbv zeta.
  unfold TvlAction.handler, try_catch, bind, TvlAction.throwIf.
  destruct (TvlAction.serviceAvailable rt);
    cbv beta iota delta [ret throw negb]; [|reflexivity].
  destruct (TvlAction.extractedNames rt) as [namesOpt|msg];
    cbv beta iota delta [ret throw negb TvlAction.await]; [|reflexivity].
  destruct (truthy (orElse namesOpt ""));
    cbv beta iota delta [ret throw negb]; [|reflexivity].
  destruct (List.length (TvlAction.parseNames (orElse namesOpt "")) =? 0)%nat
    eqn:L; cbv beta iota delta [ret throw negb]; [reflexivity|].
  unfold TvlAction.onService.
  rewrite (getProtocolsByNames_eq env _ (TvlAction.svc s) F).
  rewrite length_map, L. cbv beta iota delta [ret throw negb].
  destruct (List.length
              (List.filter TvlAction.isSuccess
                 (List.map (resolveOne (DefiLlama.cache w'))
                    (TvlAction.parseNames (orElse namesOpt ""))))
            =? 0)%nat; cbv beta iota delta [ret throw negb]; [reflexivity|].
  destruct (TvlAction.callback rt) as [[[]|msg]|]; reflexivity.
Qed.

Lemma orElse_truthy (x : option string) :
  truthy (orElse x "") = true -> exists v, x = Some v /\ orElse x "" = v.
Proof.
  destruct x as [v|]; cbn; [|discriminate].
  destruct (truthy v) eqn:T; [|discriminate]. intros _. now exists v.
Qed.

Lemma filter_length_zero (A : Type) (f : A -> bool) (l : list A) :
  (List.length (List.filter f l) =? 0)%nat = false <->
  Exists (fun x => f x = true) l.
Proof.
  induction l as [|x l IH]; cbn.
  - split; [discriminate | intro H; inversion H].
  - destruct (f x) eqn:E; cbn.
    + split; [intros _; now left | reflexivity].
    + rewrite IH. split; [intro H; now right|].
      intro H. inversion H; subst; [congruence | assumption].
Qed.

(** X10. The handler of the action never throws.  What it returns is
    either the report of the [try] block, with [success] true, the
    results of the service for the parsed names in their order, at least
    one of them a match, and a text that counts the matches and the
    failures, which together are as many as the names; or the result of
    the [catch] block, with [success] false, the text "Failed: " followed
    by the message of the error, and no data.  The logger, which the
    handler shares with the service, gains the lines that the service
    logs during the call, which are none when the generation is fresh
    and may include the error of a refresh that failed; after them comes
    nothing more when the handler reports, and exactly one line of the
    handler when it fails. *)
Theorem tvl_action_returns_a_report_or_a_failure :
  forall (rt : TvlAction.Runtime) (env : DefiLlama.Env) (s : TvlAction.State),
  exists r s' added,
    TvlAction.handler rt env s = (Normal r, s')
    /\ DefiLlama.logs (TvlAction.svc s')
       = (DefiLlama.logs (TvlAction.svc s) ++ added)%list
    /\ (DefiLlama.stale (DefiLlama.clock (TvlAction.svc s)) (TvlAction.svc s)
        = false -> added = [])
    /\ ((exists namesRaw results,
            TvlAction.extractedNames rt = Fulfilled (Some namesRaw)
            /\ r = TvlAction.report results
            /\ List.map id results = TvlAction.parseNames namesRaw
            /\ (0 < List.length (List.filter TvlAction.isSuccess results))%nat
            /\ (List.length (List.filter TvlAction.isSuccess results)
                + List.length (List.filter TvlAction.isFailure results)
                = List.length (TvlAction.parseNames namesRaw))%nat
            /\ TvlAction.logger s'
               = (TvlAction.logger s
                  ++ List.map TvlAction.ByService added)%list)
        \/ (exists msg,
               r = TvlAction.failure (mkError msg)
               /\ TvlAction.text r = "Failed: " ++ msg
               /\ TvlAction.success r = false
               /\ TvlAction.data r = None
               /\ TvlAction.logger s'
                  = (TvlAction.logger s
                     ++ List.map TvlAction.ByService added
                     ++ [TvlAction.ByHandler
                           ("[GET_PROTOCOL_TVL] " ++ msg)%string])%list)).
Proof.
  intros rt env s.
  destruct (handler_cases rt env s) as (w' & F & E). cbv zeta in E.
  destruct (ensureFresh_logs env _ F) as (added & Hlogs & Hfresh).
  rewrite (gained_app _ _ _ Hlogs) in E.
  match goal with
  | |- ?G =>
      assert (Early : forall msg,
                 TvlAction.handler rt env s
                 = (Normal (TvlAction.failure (mkError msg)),
                    TvlAction.afterFailure (mkError msg) s) -> G);
      [|assert (Late : forall msg d,
                   TvlAction.handler rt env s
                   = (Normal (TvlAction.failure (mkError msg)),
                      TvlAction.afterFailure (mkError msg)
                        (TvlAction.mkState w'
                           (TvlAction.logger s
                            ++ List.map TvlAction.ByService added)%list d))
                   -> G);
        [|assert (Ok : forall namesRaw d,
                     TvlAction.extractedNames rt = Fulfilled (Some namesRaw) ->
                     (List.length
                        (List.filter TvlAction.isSuccess
                           (List.map (resolveOne (DefiLlama.cache w'))
                              (TvlAction.parseNames namesRaw))) =? 0)%nat
                     = false ->
                     TvlAction.handler rt env s
                     = (Normal
                          (TvlAction.report
                             (List.map (resolveOne (DefiLlama.cache w'))
                                (TvlAction.parseNames namesRaw))),
                        TvlAction.mkState w'
                          (TvlAction.logger s
                           ++ List.map TvlAction.ByService added)%list d)
                     -> G)]]
  end.
  { intros msg H. exists (TvlAction.failure (mkError msg)).
    exists (TvlAction.afterFailure (mkError msg) s), [].
    split; [exact H|]. cbn. rewrite app_nil_r.
    split; [reflexivity|]. split; [reflexivity|].
    right. exists msg. now repeat split. }
  { intros msg d H. exists (TvlAction.failure (mkError msg)).
    eexists. exists added. split; [exact H|]. cbn.
    split; [exact Hlogs|]. split; [exact Hfresh|].
    right. exists msg. rewrite <- app_assoc. now repeat split. }
  { intros namesRaw d X S H. eexists. eexists. exists added.
    split; [exact H|]. cbn. split; [exact Hlogs|]. split; [exact Hfresh|].
    left. exists namesRaw. eexists.
    split; [exact X|]. split; [reflexivity|]. split.
    - rewrite map_map. rewrite <- (map_id (TvlAction.parseNames namesRaw)) at 2.
      apply map_ext_in. intros n Hn. rewrite resolveOne_id.
      pose proof (parseNames_trimmed namesRaw) as P.
      rewrite Forall_forall in P. now apply P.
    - split; [apply Nat.eqb_neq in S; lia|].
      split; [apply successes_and_failures | reflexivity]. }
  destruct (TvlAction.serviceAvailable rt); cbn [negb] in E;
    [|exact (Early _ E)].
  destruct (TvlAction.extractedNames rt) as [namesOpt|msg] eqn:X;
    [|exact (Early _ E)].
  destruct (truthy (orElse namesOpt "")) eqn:T; cbn [negb] in E;
    [|exact (Early _ E)].
  destruct (orElse_truthy _ T) as (namesRaw & -> & Hraw). rewrite Hraw in *.
  destruct (List.length (TvlAction.parseNames namesRaw) =? 0)%nat eqn:L;
    [exact (Early _ E)|].
  destruct (List.length
              (List.filter TvlAction.isSuccess
                 (List.map (resolveOne (DefiLlama.cache w'))
                    (TvlAction.parseNames namesRaw))) =? 0)%nat eqn:S;
    [exact (Late _ _ E)|].
  destruct (TvlAction.callback rt) as [[[]|msg]|].
  - exact (Ok _ _ eq_refl S E).
  - exact (Late _ _ E).
  - exact (Ok _ _ eq_refl S E).
Qed.

Lemma tvl_action_returns_a_report_or_a_failure_witness :
  exists r s',
    TvlAction.handler
      (TvlAction.mkRuntime true (Fulfilled (Some "Aave, Curve")) None)
      Examples.offline
      (TvlAction.mkState Examples.aaveWorldLater [] [])
    = (Normal r, s')
    /\ TvlAction.success r = true
    /\ TvlAction.text r = "Fetched TVL for 1 protocol(s); 1 not matched"
    /\ List.last (TvlAction.logger s') (TvlAction.ByHandler "")
       = TvlAction.ByService (DefiLlama.ErrorFailed 5 "fetch failed").
Proof.
  destruct (tvl_action_returns_a_report_or_a_failure
              (TvlAction.mkRuntime true (Fulfilled (Some "Aave, Curve")) None)
              Examples.offline
              (TvlAction.mkState Examples.aaveWorldLater [] []))
    as (r & s' & added & E & _).
  exists r, s'. split; [exact E|].
  vm_compute in E. injection E as <- <-. repeat split.
Defined.

(** X11. The action gives up before it calls the service, which is then
    left as it was (no refresh, no call of [fetch]), in four cases, each
    with its own message: the service is not registered; one of the
    awaited steps that extract the names rejects; the extracted text is
    absent or empty; the extracted text holds only commas and white
    space. *)
Theorem tvl_action_fails_before_the_service_is_called :
  forall (rt : TvlAction.Runtime) (env : DefiLlama.Env) (s : TvlAction.State)
         (msg : string),
    (TvlAction.serviceAvailable rt = false
     /\ msg = "DefiLlamaService not available")
    \/ (TvlAction.serviceAvailable rt = true
        /\ TvlAction.extractedNames rt = Rejected msg)
    \/ (TvlAction.serviceAvailable rt = true
        /\ (TvlAction.extractedNames rt = Fulfilled None
            \/ TvlAction.extractedNames rt = Fulfilled (Some ""))
        /\ msg = "No protocol names found in user message")
    \/ (TvlAction.serviceAvailable rt = true
        /\ (exists namesRaw,
               TvlAction.extractedNames rt = Fulfilled (Some namesRaw)
               /\ namesRaw <> ""
               /\ Forall (fun piece => Spec.blank piece = true)
                         (TvlAction.split "," namesRaw))
        /\ msg = "No valid protocol names parsed from message") ->
    TvlAction.handler rt env s
    = (Normal (TvlAction.failure (mkError msg)),
       TvlAction.afterFailure (mkError msg) s)
    /\ TvlAction.svc (TvlAction.afterFailure (mkError msg) s)
       = TvlAction.svc s.
Proof.
  intros rt env s msg H. split; [|reflexivity].
  destruct (handler_cases rt env s) as (w' & F & E). cbv zeta in E.
  rewrite E. clear E.
  destruct H as [(Ha & ->)|[(Ha & Hx)|[(Ha & Hx & ->)|(Ha & Hx & ->)]]];
    rewrite Ha; cbn [negb].
  - reflexivity.
  - now rewrite Hx.
  - destruct Hx as [-> | ->]; reflexivity.
  - destruct Hx as (namesRaw & -> & Hne & Hblank).
    rewrite orElse_Some_empty. apply truthy_true_iff in Hne.
    rewrite Hne. cbn [negb].
    assert (P : TvlAction.parseNames namesRaw = []).
    { unfold TvlAction.parseNames.
      induction Hblank as [|piece pieces Hp _ IH]; [reflexivity|].
      cbn [List.map List.filter]. apply trim_empty_iff in Hp.
      rewrite Hp. exact IH. }
    rewrite P. reflexivity.
Qed.

Lemma tvl_action_fails_before_the_service_is_called_witness :
  TvlAction.handler
    (TvlAction.mkRuntime true (Fulfilled (Some " , ,")) None)
    Examples.offline
    (TvlAction.mkState Examples.aaveWorldLater [] [])
  = (Normal (TvlAction.failure
               (mkError "No valid protocol names parsed from message")),
     TvlAction.mkState Examples.aaveWorldLater
       [TvlAction.ByHandler
          "[GET_PROTOCOL_TVL] No valid protocol names parsed from message"]
       []).
Proof.
  apply (tvl_action_fails_before_the_service_is_called
           (TvlAction.mkRuntime true (Fulfilled (Some " , ,")) None)
           Examples.offline
           (TvlAction.mkState Examples.aaveWorldLater [] [])).
  right. right. right. split; [reflexivity|]. split; [|reflexivity].
  exists " , ,". split; [reflexivity|]. split; [discriminate|].
  repeat constructor.
Defined.

(** X12. The action reports success exactly when the service is there,
    the names were extracted, at least one of them is matched in the
    generation that the service answers from, and the callback, if there
    is one, does not reject. *)
Theorem tvl_action_succeeds_iff_a_name_matches :
  forall (rt : TvlAction.Runtime) (env : DefiLlama.Env) (s : TvlAction.State),
  exists r s' w',
    TvlAction.handler rt env s = (Normal r, s')
    /\ DefiLlama.ensureFresh env (TvlAction.svc s) = (Normal tt, w')
    /\ (TvlAction.success r = true <->
        TvlAction.serviceAvailable rt = true
        /\ (exists namesRaw,
               TvlAction.extractedNames rt = Fulfilled (Some namesRaw)
               /\ Exists (fun n => success (resolveOne (DefiLlama.cache w') n)
                                   = true)
                         (TvlAction.parseNames namesRaw))
        /\ (forall msg, TvlAction.callback rt <> Some (Rejected msg))).
Proof.
  intros rt env s.
  destruct (handler_cases rt env s) as (w' & F & E). cbv zeta in E.
  assert (Fail : forall msg s0,
             TvlAction.handler rt env s
             = (Normal (TvlAction.failure (mkError msg)), s0) ->
             ~ (TvlAction.serviceAvailable rt = true
                /\ (exists namesRaw,
                       TvlAction.extractedNames rt = Fulfilled (Some namesRaw)
                       /\ Exists (fun n => success
                                             (resolveOne (DefiLlama.cache w') n)
                                           = true)
                                 (TvlAction.parseNames namesRaw))
                /\ (forall msg, TvlAction.callback rt <> Some (Rejected msg))) ->
             exists r s' w'0,
               TvlAction.handler rt env s = (Normal r, s')
               /\ DefiLlama.ensureFresh env (TvlAction.svc s) = (Normal tt, w'0)
               /\ (TvlAction.success r = true <->
                   TvlAction.serviceAvailable rt = true
                   /\ (exists namesRaw,
                          TvlAction.extractedNames rt = Fulfilled (Some namesRaw)
                          /\ Exists (fun n => success
                                                (resolveOne (DefiLlama.cache w'0) n)
                                              = true)
                                    (TvlAction.parseNames namesRaw))
                   /\ (forall msg, TvlAction.callback rt <> Some (Rejected msg)))).
  { intros msg s0 H N. eexists. eexists. exists w'.
    split; [exact H|]. split; [exact F|]. cbn. split; [discriminate|].
    intro C. contradiction. }
  destruct (TvlAction.serviceAvailable rt) eqn:A; cbn [negb] in E.
  2:{ apply (Fail _ _ E). intros (C & _). discriminate. }
  destruct (TvlAction.extractedNames rt) as [namesOpt|msg] eqn:X.
  2:{ apply (Fail _ _ E). intros (_ & (n & C & _) & _). discriminate. }
  destruct (truthy (orElse namesOpt "")) eqn:T; cbn [negb] in E.
  2:{ apply (Fail _ _ E). intros (_ & (n & C & Hex) & _).
      injection C as ->. rewrite orElse_Some_empty in T.
      apply truthy_false_iff in T. subst n.
      change (TvlAction.parseNames "") with (@nil string) in Hex.
      inversion Hex. }
  destruct (orElse_truthy _ T) as (namesRaw & -> & Hraw). rewrite Hraw in *.
  destruct (List.length (TvlAction.parseNames namesRaw) =? 0)%nat eqn:L.
  { apply (Fail _ _ E). intros (_ & (n & C & Hex) & _). injection C as <-.
    apply Nat.eqb_eq in L. apply length_zero_iff_nil in L. rewrite L in Hex.
    inversion Hex. }
  assert (Sx : forall b,
             (List.length
                (List.filter TvlAction.isSuccess
                   (List.map (resolveOne (DefiLlama.cache w'))
                      (TvlAction.parseNames namesRaw))) =? 0)%nat = b ->
             (b = false <->
              Exists (fun n => success (resolveOne (DefiLlama.cache w') n) = true)
                     (TvlAction.parseNames namesRaw))).
  { intros b <-. rewrite filter_length_zero, Exists_map.
    split; intro H; (eapply Exists_impl; [|exact H]); intros n Hn;
      cbv beta in *; now rewrite isSuccess_resolveOne in *. }
  destruct (List.length
              (List.filter TvlAction.isSuccess
                 (List.map (resolveOne (DefiLlama.cache w'))
                    (TvlAction.parseNames namesRaw))) =? 0)%nat eqn:S.
  { apply (Fail _ _ E). intros (_ & (n & C & Hex) & _). injection C as <-.
    apply (Sx _ eq_refl) in Hex. discriminate. }
  pose proof (proj1 (Sx _ eq_refl) eq_refl) as Hex.
  destruct (TvlAction.callback rt) as [[[]|msg]|] eqn:Cb.
  - eexists. eexists. exists w'. split; [exact E|]. split; [exact F|].
    cbn. split; [|reflexivity]. intros _. split; [reflexivity|].
    split; [now exists namesRaw | discriminate].
  - apply (Fail _ _ E). intros (_ & _ & C). now apply (C msg).
  - eexists. eexists. exists w'. split; [exact E|]. split; [exact F|].
    cbn. split; [|reflexivity]. intros _. split; [reflexivity|].
    split; [now exists namesRaw | discriminate].
Qed.

Lemma tvl_action_succeeds_iff_a_name_matches_witness :
  exists r s',
    TvlAction.handler
      (TvlAction.mkRuntime true (Fulfilled (Some "zzz")) None)
      Examples.offline
      (TvlAction.mkState Examples.aaveWorld [] [])
    = (Normal r, s')
    /\ TvlAction.success r = false.
Proof.
  destruct (tvl_action_succeeds_iff_a_name_matches
              (TvlAction.mkRuntime true (Fulfilled (Some "zzz")) None)
              Examples.offline
              (TvlAction.mkState Examples.aaveWorld [] []))
    as (r & s' & w' & E & F & Hiff).
  exists r, s'. split; [exact E|].
  destruct (TvlAction.success r) eqn:S; [|reflexivity].
  exfalso. destruct (proj1 Hiff eq_refl) as (_ & (n & X & Hex) & _).
  injection X as <-. vm_compute in F. injection F as <-.
  inversion Hex as [? ? H|? ? H]; [discriminate H | inversion H].
Defined.

End TvlHandlerFacts.

(* ------------------------------------------------------------------ *)
(** ** More about the wallet flow: requests, holdings, sections          *)
(* ------------------------------------------------------------------ *)

Section WalletMore.

Import Outside Wallet Portfolio Spec Holdings.
Local Open Scope string_scope.

Variable env : Env.

Lemma requestsIn_app (t t' : Trace) :
  requestsIn (t ++ t')%list = (requestsIn t ++ requestsIn t')%list.
Proof. apply filter_app. Qed.

(** One token, with the requests it takes. *)
Lemma processToken_requests (chain : ChainNetwork)
  (balances : list TokenBalance.t) (entry : string * option string) :
  exists es,
    appends (processToken env chain balances entry)
            (Normal (balances ++ match tokenEntry env chain entry with
                                 | Some b => [b]
                                 | None => []
                                 end)%list) es
    /\ requestsIn es
       = if held entry then resolutionRequests env chain (fst entry) else [].
Proof.
  destruct entry as [contractAddress tokenBalance].
  unfold processToken, tokenEntry, held. cbn [fst snd].
  destruct tokenBalance as [text|].
  - cbn [BigInt]. destruct (StringToBigInt text) as [value|].
    + destruct (value =? 0)%Z eqn:Z0; cbn [negb].
      * exists []. split; [|reflexivity]. rewrite app_nil_r.
        apply appends_try_normal.
        eapply appends_bind_normal with (es := []) (es' := []);
          [apply appends_ret|].
        rewrite Z0. apply appends_ret.
      * destruct (getTokenInfo_appends env contractAddress chain)
          as (es & Hinfo & Hreq).
        exists es. split; [|exact Hreq].
        apply appends_try_normal.
        eapply appends_bind_normal with (es := []) (es' := es);
          [apply appends_ret|].
        rewrite Z0. rewrite <- (app_nil_r es).
        eapply appends_bind_normal; [exact Hinfo|].
        destruct (layeredAnswer env chain contractAddress) as [info|].
        -- eapply appends_bind_normal with (es := []) (es' := []);
             apply appends_ret.
        -- rewrite app_nil_r. apply appends_ret.
    + eexists. rewrite app_nil_r. split.
      * eapply appends_try_throw.
        -- eapply appends_bind_throw. apply appends_throw.
        -- eapply appends_bind_normal; [apply appends_emit | apply appends_ret].
      * reflexivity.
  - eexists. rewrite app_nil_r. cbn [BigInt]. split.
    + eapply appends_try_throw.
      * eapply appends_bind_throw. apply appends_throw.
      * eapply appends_bind_normal; [apply appends_emit | apply appends_ret].
    + reflexivity.
Qed.

Lemma processTokens_requests (chain : ChainNetwork)
  (entries : list (string * option string)) :
  forall balances, exists es,
    appends (processTokens env chain balances entries)
            (Normal (balances ++ tokenEntries env chain entries)%list) es
    /\ requestsIn es
       = flat_map (fun entry => if held entry
                                then resolutionRequests env chain (fst entry)
                                else [])
                  entries.
Proof.
  induction entries as [|entry rest IH]; intro balances;
    cbn [processTokens tokenEntries flat_map].
  - exists []. rewrite app_nil_r. split; [apply appends_ret | reflexivity].
  - destruct (processToken_requests chain balances entry) as (es1 & H1 & R1).
    destruct (tokenEntry env chain entry) as [b|].
    + destruct (IH (balances ++ [b])%list) as (es2 & H2 & R2).
      exists (es1 ++ es2)%list. split.
      * eapply appends_bind_normal; [exact H1|].
        rewrite <- app_assoc in H2. exact H2.
      * now rewrite requestsIn_app, R1, R2.
    + rewrite app_nil_r in H1. destruct (IH balances) as (es2 & H2 & R2).
      exists (es1 ++ es2)%list. split.
      * eapply appends_bind_normal; [exact H1 | exact H2].
      * now rewrite requestsIn_app, R1, R2.
Qed.


(** The native entry, with the request it takes. *)
Lemma nativeEntry_exact (chain : ChainNetwork) (nativeBalance : Z) :
  exists es,
    appends (nativeEntry env chain nativeBalance)
            (Normal (nativeHoldings env chain nativeBalance)) es
    /\ if (nativeBalance >? 0)%Z
       then exists logged,
              es = ReqSimplePrice
                     (NativeToken.coingeckoId
                        (ChainConfig.nativeToken (CHAIN_CONFIGS chain)))
                   :: logged
              /\ requestsIn logged = []
              /\ (nativePriceFails env chain ->
                  exists line, logged = [LogError line])
       else es = [].
Proof.
  unfold nativeEntry, nativeHoldings, nativeHolding, nativePrice,
    nativePriceFails.
  destruct (nativeBalance >? 0)%Z.
  - destruct (simplePrice env
                (NativeToken.coingeckoId
                   (ChainConfig.nativeToken (CHAIN_CONFIGS chain))))
      as [[o st b]|msg].
    + destruct b as [priceData|msg]; cbn [body].
      * eexists. split; [run_trace|]. eexists. split; [reflexivity|].
        split; [reflexivity|].
        intros [(m & F)|(r & m & F & B)]; [discriminate|].
        injection F as <-. discriminate B.
      * eexists. split; [run_trace|]. eexists. split; [reflexivity|].
        split; [reflexivity|]. intros _. eexists. reflexivity.
    + eexists. split; [run_trace|]. eexists. split; [reflexivity|].
      split; [reflexivity|]. intros _. eexists. reflexivity.
  - exists []. split; [apply appends_ret | reflexivity].
Qed.

(** What a chain delivers: nothing, or the native holding, if any,
    followed by the entries of the tokens of some list. *)
Lemma fetchChainBalances_cases (address : string) (chain : ChainNetwork) :
  balancesOf env address chain = []
  \/ exists nativeBalance entries,
       balancesOf env address chain
       = (nativeHoldings env chain nativeBalance
          ++ tokenEntries env chain entries)%list.
Proof.
  destruct (endpointOf env chain) as [u|] eqn:Eu.
  2:{ left. destruct (fetchChainBalances_unconfigured env address chain Eu)
        as (es & A).
      unfold balancesOf. now rewrite (appends_fst A). }
  unfold balancesOf.
  apply endpointOf_Some in Eu as [Ht Hu].
  unfold fetchChainBalances. rewrite Ht, Hu. cbn [negb]. clear Ht Hu.
  assert (Nil : forall m : M Trace (list TokenBalance.t),
             (exists es, appends m (Normal []) es) ->
             match fst (m []) with Normal l => l | Throw _ => [] end = []
             \/ exists nativeBalance entries,
                  match fst (m []) with Normal l => l | Throw _ => [] end
                  = (nativeHoldings env chain nativeBalance
                     ++ tokenEntries env chain entries)%list).
  { intros m (es & A). left. now rewrite (appends_fst A). }
  destruct (getTokenBalances env u address) as [[o st b]|msg] eqn:TB.
  2:{ apply Nil. eexists. run_trace_eq. }
  destruct o.
  2:{ apply Nil. eexists. run_trace_eq. }
  destruct b as [tokensJson|msg].
  2:{ apply Nil. eexists. run_trace_eq. }
  destruct (hasError tokensJson) eqn:HE.
  { apply Nil. eexists. run_trace_eq. }
  destruct (getBalance env u address) as [[o2 st2 b2]|msg] eqn:GB.
  2:{ apply Nil. eexists. run_trace_eq. }
  destruct b2 as [nativeJson|msg].
  2:{ apply Nil. eexists. run_trace_eq. }
  destruct (StringToBigInt (orElse (result nativeJson) "0"))
    as [nativeBalance|] eqn:NB.
  2:{ apply Nil. eexists. run_trace_eq. }
  destruct (nativeEntry_exact chain nativeBalance) as (es1 & HN & _).
  destruct (processTokens_appends env chain
              match tokenBalances tokensJson with
              | Some entries => entries
              | None => []
              end (nativeHoldings env chain nativeBalance)) as (es2 & HT).
  right. exists nativeBalance.
  exists match tokenBalances tokensJson with
         | Some entries => entries
         | None => []
         end.
  match goal with
  | |- match fst (?m []) with _ => _ end = ?l =>
      assert (A : exists es, appends m (Normal l) es)
  end.
  { eexists. apply appends_try_normal.
    eapply appends_bind_normal; [apply appends_emit|].
    eapply appends_bind_normal; [apply appends_ret|]. cbn [ok negb].
    eapply appends_bind_normal; [apply appends_ret|]. rewrite HE.
    eapply appends_bind_normal; [apply appends_emit|].
    eapply appends_bind_normal; [apply appends_ret|].
    eapply appends_bind_normal; [apply appends_ret|].
    eapply appends_bind_normal.
    { cbn [BigInt body]. rewrite NB. apply appends_ret. }
    eapply appends_bind_normal; [exact HN|].
    eapply appends_bind_normal; [exact HT|].
    apply appends_ret. }
  destruct A as (es & A). now rewrite (appends_fst A).
Qed.

Lemma integerOr_nonzero (x : option Z) (d : Z) :
  d <> 0%Z -> integerOr x d <> 0%Z.
Proof.
  intro Hd. unfold integerOr. destruct x as [z|]; [|exact Hd].
  destruct (Z.eqb_spec z 0); [exact Hd | assumption].
Qed.

Lemma layeredAnswer_decimals (chain : ChainNetwork) (contractAddress : string)
  (info : TokenInfo.t) :
  layeredAnswer env chain contractAddress = Some info ->
  TokenInfo.decimals info <> 0%Z.
Proof.
  unfold layeredAnswer, pricingSucceeds, pricingAnswer, onchainAnswer.
  assert (On : match readSymbol env chain contractAddress,
                     readName env chain contractAddress,
                     readDecimals env chain contractAddress with
               | Fulfilled symbol, Fulfilled name, Fulfilled decimals =>
                   Some (TokenInfo.mk
                           (toUpperCase (orElse (Some symbol) "UNKNOWN"))
                           (orElse (Some name) "Unknown Token")
                           (integerOr (Some decimals) 18) 0)
               | _, _, _ => None
               end = Some info -> TokenInfo.decimals info <> 0%Z).
  { destruct (readSymbol env chain contractAddress) as [symbol|];
      [|discriminate].
    destruct (readName env chain contractAddress) as [name|]; [|discriminate].
    destruct (readDecimals env chain contractAddress) as [decimals|];
      [|discriminate].
    intro H. injection H as <-.
    apply (@integerOr_nonzero (Some decimals) 18%Z). discriminate. }
  destruct (credentialsConfigured env); [|exact On].
  destruct (coinByContract env _ contractAddress) as [[o st b]|msg];
    [|exact On].
  destruct o; cbn [ok body]; [|exact On].
  destruct b as [data|msg]; [|exact On].
  intro H. injection H as <-.
  apply (@integerOr_nonzero (decimal_place data) 18%Z). discriminate.
Qed.

Lemma tokenEntries_tokens (chain : ChainNetwork)
  (entries : list (string * option string)) :
  Forall (fun b => isTokenOf chain b
                   /\ exists entry, In entry entries /\ held entry = true
                        /\ TokenBalance.contractAddress b = Some (fst entry))
         (tokenEntries env chain entries).
Proof.
  induction entries as [|entry rest IH]; cbn [tokenEntries]; [constructor|].
  assert (IH' : Forall (fun b => isTokenOf chain b
                   /\ exists entry0, In entry0 (entry :: rest)
                        /\ held entry0 = true
                        /\ TokenBalance.contractAddress b = Some (fst entry0))
                  (tokenEntries env chain rest)).
  { eapply Forall_impl; [|exact IH]. intros b (H1 & e & H2 & H3).
    split; [exact H1|]. exists e. split; [now right | exact H3]. }
  destruct (tokenEntry env chain entry) as [b|] eqn:E; [|exact IH'].
  constructor; [|exact IH'].
  destruct entry as [contractAddress [text|]]; cbn in E; [|discriminate].
  destruct (StringToBigInt text) as [value|] eqn:V; [|discriminate].
  destruct (value =? 0)%Z eqn:Z0; [discriminate|].
  destruct (layeredAnswer env chain contractAddress) as [info|] eqn:L;
    [|discriminate].
  injection E as <-. split.
  - split; [reflexivity|]. split.
    + cbn. now apply (layeredAnswer_decimals chain contractAddress).
    + now exists contractAddress.
  - exists (contractAddress, Some text). split; [now left|].
    split; [|reflexivity]. unfold held. cbn. now rewrite V, Z0.
Qed.

Lemma balancesOf_chain (address : string) (chain : ChainNetwork) :
  Forall (fun b => TokenBalance.chain b = chain) (balancesOf env address chain).
Proof.
  destruct (fetchChainBalances_cases address chain)
    as [->|(nb & entries & ->)]; [constructor|].
  apply Forall_app. split.
  - unfold nativeHoldings. destruct (nb >? 0)%Z; repeat constructor.
  - eapply Forall_impl; [|apply tokenEntries_tokens].
    intros b ((H & _) & _). exact H.
Qed.


(** X13. The loop over the tokens of a chain never throws; it asks the
    price resolver for the tokens whose balance can be read and is not
    zero, in their order, and makes no request for any other token. *)
Theorem only_held_tokens_are_resolved :
  forall (chain : ChainNetwork) (entries : list (string * option string))
         (balances : list TokenBalance.t) (t : Trace),
  exists es,
    processTokens env chain balances entries t
    = (Normal (balances ++ tokenEntries env chain entries)%list,
       (t ++ es)%list)
    /\ requestsIn es
       = flat_map (fun entry => if held entry
                                then resolutionRequests env chain (fst entry)
                                else [])
                  entries
    /\ (List.length (tokenEntries env chain entries)
        <= List.length (List.filter held entries))%nat.
Proof.
  intros chain entries balances t.
  destruct (processTokens_requests chain entries balances) as (es & A & R).
  exists es. split; [apply A|]. split; [exact R|].
  clear. induction entries as [|entry rest IH]; cbn [tokenEntries List.filter];
    [apply Nat.le_refl|].
  destruct (tokenEntry env chain entry) as [b|] eqn:E.
  - assert (H : held entry = true).
    { destruct entry as [a [text|]]; cbn in E; [|discriminate].
      unfold held. cbn.
      destruct (StringToBigInt text) as [value|]; [|discriminate].
      now destruct (value =? 0)%Z. }
    rewrite H. cbn [List.length]. lia.
  - destruct (held entry); cbn [List.length]; lia.
Qed.

(** X14. A native balance that is positive is always reported, and
    takes one request, for the price: the entry has the symbol and the
    name of the native token of the chain, 18 decimals and no contract
    address, and its value is the amount times the price.  When the price
    cannot be had, the price is zero, the failure is logged, and the
    entry is reported with the value zero. *)
Theorem native_balance_is_reported_whatever_the_price :
  forall (chain : ChainNetwork) (nativeBalance : Z) (t : Trace),
    (0 < nativeBalance)%Z ->
    exists logged,
      nativeEntry env chain nativeBalance t
      = (Normal [nativeHolding env chain nativeBalance],
         (t ++ ReqSimplePrice
                 (NativeToken.coingeckoId
                    (ChainConfig.nativeToken (CHAIN_CONFIGS chain)))
              :: logged)%list)
      /\ requestsIn logged = []
      /\ (nativePriceFails env chain ->
          (exists line, logged = [LogError line])
          /\ (TokenBalance.usdValue (nativeHolding env chain nativeBalance)
              == 0)%Q).
Proof.
  intros chain nativeBalance t Hpos.
  destruct (nativeEntry_exact chain nativeBalance) as (es & A & R).
  assert (P : (nativeBalance >? 0)%Z = true) by (apply Z.gtb_lt; lia).
  unfold nativeHoldings in A. rewrite P in A, R.
  destruct R as (logged & -> & Hl & F).
  exists logged. split; [apply A|]. split; [exact Hl|]. intro Hf.
  split; [exact (F Hf)|].
  unfold nativeHolding, nativePrice. cbn [TokenBalance.usdValue].
  destruct Hf as [(m & ->)|(r & m & -> & ->)]; ring.
Qed.

(** X15. Whatever the outside world answers, what [fetchChainBalances]
    delivers for a chain is either nothing, or the native holding, if
    the native balance is positive, followed by entries of contracts;
    every entry bears the tag of the chain it was asked for, and every
    entry of a contract has decimals other than zero. *)
Theorem balances_of_a_chain_are_well_formed :
  forall (address : string) (chain : ChainNetwork) (t : Trace),
  exists t' native tokens,
    fetchChainBalances env address chain t
    = (Normal (native ++ tokens)%list, t')
    /\ balancesOf env address chain = (native ++ tokens)%list
    /\ (native = []
        \/ exists nativeBalance,
             (0 < nativeBalance)%Z
             /\ native = [nativeHolding env chain nativeBalance])
    /\ Forall (isTokenOf chain) tokens
    /\ Forall (fun b => TokenBalance.chain b = chain) (native ++ tokens)%list.
Proof.
  intros address chain t.
  destruct (fetchChainBalances_appends env address chain) as (es & A).
  pose proof (balancesOf_chain address chain) as Hc.
  destruct (fetchChainBalances_cases address chain)
    as [E|(nb & entries & E)]; rewrite E in A, Hc |- *.
  - exists (t ++ es)%list, [], []. split; [apply A|].
    split; [reflexivity|]. split; [now left|]. split; constructor.
  - exists (t ++ es)%list, (nativeHoldings env chain nb),
      (tokenEntries env chain entries).
    split; [apply A|]. split; [reflexivity|]. split.
    + unfold nativeHoldings. destruct (nb >? 0)%Z eqn:P; [|now left].
      right. exists nb. split; [now apply Z.gtb_lt | reflexivity].
    + split; [|exact Hc].
      eapply Forall_impl; [|apply tokenEntries_tokens].
      intros b (H & _). exact H.
Qed.


Lemma insert_first (x : TokenBalance.t) (s : list TokenBalance.t) :
  Forall (descending x) s -> insert byUsdValueDescending x s = x :: s.
Proof.
  intro H. destruct s as [|y rest]; [reflexivity|]. cbn [insert].
  inversion H as [|? ? Hy _]; subst.
  apply byUsd_le in Hy. now rewrite Hy.
Qed.

Lemma filter_insert (p : TokenBalance.t -> bool) (x : TokenBalance.t)
  (s : list TokenBalance.t) :
  StronglySorted descending s ->
  List.filter p (insert byUsdValueDescending x s)
  = if p x then insert byUsdValueDescending x (List.filter p s)
    else List.filter p s.
Proof.
  induction 1 as [|y rest Hs IH Hy]; cbn [insert List.filter].
  - now destruct (p x).
  - destruct (Qle_bool (byUsdValueDescending x y) 0) eqn:C.
    + cbn [List.filter]. destruct (p x) eqn:Px; [|reflexivity].
      destruct (p y) eqn:Py.
      * cbn [insert]. now rewrite C.
      * symmetry. apply insert_first.
        apply byUsd_le in C. apply Forall_forall. intros z Hz.
        apply filter_In in Hz as [Hz _].
        rewrite Forall_forall in Hy.
        exact (descending_trans C (Hy z Hz)).
    + cbn [List.filter]. rewrite IH.
      destruct (p y) eqn:Py; destruct (p x) eqn:Px; try reflexivity.
      cbn [insert]. now rewrite C.
Qed.

Lemma filter_sort (p : TokenBalance.t -> bool) (l : list TokenBalance.t) :
  List.filter p (sort byUsdValueDescending l)
  = sort byUsdValueDescending (List.filter p l).
Proof.
  induction l as [|x l IH]; [reflexivity|].
  change (sort byUsdValueDescending (x :: l))
    with (insert byUsdValueDescending x (sort byUsdValueDescending l)).
  rewrite filter_insert by apply sort_sorted. rewrite IH.
  cbn [List.filter]. now destruct (p x).
Qed.

Lemma onChain_tagged (c k : ChainNetwork) (l : list TokenBalance.t) :
  Forall (fun b => TokenBalance.chain b = k) l ->
  onChain c l = if ChainNetwork_eqb c k then l else [].
Proof.
  unfold onChain. induction 1 as [|b l Hb _ IH]; cbn [List.filter].
  - now destruct (ChainNetwork_eqb c k).
  - rewrite Hb, IH. now destruct (ChainNetwork_eqb c k).
Qed.

(** The tokens of a chain among all that the three chains deliver are
    those that the chain delivered. *)
Lemma onChain_all (address : string) (c : ChainNetwork) :
  onChain c (List.concat (List.map (balancesOf env address) chains))
  = balancesOf env address c.
Proof.
  cbn [chains List.map List.concat]. unfold onChain.
  rewrite !filter_app. fold (onChain c (balancesOf env address base)).
  fold (onChain c (balancesOf env address ethereum)).
  fold (onChain c (balancesOf env address polygon)).
  rewrite !(onChain_tagged c (balancesOf_chain address _)).
  destruct c; cbn; now rewrite ?app_nil_r.
Qed.

Lemma onChain_nonempty (c : ChainNetwork) (l : list TokenBalance.t) :
  In c (List.map TokenBalance.chain l) <-> onChain c l <> [].
Proof.
  unfold onChain. induction l as [|b l IH]; cbn [List.map List.filter In].
  - split; [intros [] | congruence].
  - destruct (ChainNetwork_eqb c (TokenBalance.chain b)) eqn:E.
    + apply ChainNetwork_eqb_eq in E. split; [discriminate | now left].
    + apply ChainNetwork_eqb_neq in E. rewrite <- IH. split.
      * intros [H|H]; [congruence | exact H].
      * intro H. now right.
Qed.

Lemma sort_nil_iff (l : list TokenBalance.t) :
  sort byUsdValueDescending l = [] <-> l = [].
Proof.
  split; [|now intros ->]. intro H.
  pose proof (Permutation_length (sort_perm byUsdValueDescending l)) as L.
  rewrite H in L. now destruct l.
Qed.

Lemma sectionName_inj (c c' : ChainNetwork) :
  sectionName c = sectionName c' -> c = c'.
Proof. destruct c, c'; (reflexivity || (vm_compute; discriminate)). Qed.

Lemma NoDup_map_sectionName (cs : list ChainNetwork) :
  NoDup cs -> NoDup (List.map sectionName cs).
Proof.
  induction 1 as [|c cs Hc _ IH]; cbn [List.map]; constructor; [|exact IH].
  intro H. apply in_map_iff in H as (c' & E & Hin).
  apply sectionName_inj in E. now subst.
Qed.

(** X16. The text of the portfolio has one section for each chain that
    delivered a token, and none for the others: the section of a chain
    holds the tokens that [fetchChainBalances] delivered for this chain,
    in descending order of value (equal values in the order delivered),
    and no token of another chain.  When no chain delivers a token the
    text says so. *)
Theorem sections_are_the_sorted_balances_of_each_chain :
  forall (address : string) (t : Trace),
  exists t' heading body d,
    handler env address t
    = (Normal (mkActionResult (PortfolioText address heading body) true
                              (Snapshot d)), t')
    /\ ((forall c, balancesOf env address c = []) -> body = NoTokensFound)
    /\ ((exists c, balancesOf env address c <> []) ->
        exists sections,
          body = Assets (tokenCount d) sections
          /\ NoDup (List.map fst sections)
          /\ forall name tokens,
               In (name, tokens) sections <->
               exists c,
                 name = sectionName c
                 /\ tokens = sort byUsdValueDescending (balancesOf env address c)
                 /\ balancesOf env address c <> []).
Proof.
  intros address t.
  destruct (handler_appends env address) as (es & A).
  exists (t ++ es)%list. eexists. eexists. eexists.
  split; [rewrite A; reflexivity|].
  set (flat := List.concat (List.map (balancesOf env address) chains)).
  set (sorted := sort byUsdValueDescending flat).
  assert (G : forall c, onChain c sorted
                        = sort byUsdValueDescending (balancesOf env address c)).
  { intro c. unfold sorted, onChain. rewrite filter_sort.
    fold (onChain c flat). unfold flat. now rewrite onChain_all. }
  assert (L : List.length sorted = List.length flat)
    by apply Permutation_length, sort_perm.
  split.
  - intro Hnone.
    assert (F : flat = []).
    { unfold flat. cbn [chains List.map List.concat]. now rewrite !Hnone. }
    fold flat. fold sorted. rewrite L, F. reflexivity.
  - intros (c0 & Hc0). fold flat. fold sorted.
    assert (N : (List.length sorted =? 0)%nat = false).
    { apply Nat.eqb_neq. intro Z.
      apply length_zero_iff_nil in Z.
      apply Hc0. apply sort_nil_iff. rewrite <- G, Z. reflexivity. }
    rewrite N. eexists. split; [reflexivity|].
    rewrite groupByChain_grouped. unfold grouped. rewrite !map_map.
    cbn [fst snd]. split.
    + apply NoDup_map_sectionName, firstSeen_NoDup.
    + intros name tokens. rewrite in_map_iff. split.
      * intros (c & E & Hin). injection E as <- <-. exists c.
        split; [reflexivity|]. split; [apply G|].
        apply firstSeen_In, onChain_nonempty in Hin.
        rewrite G in Hin. intro Z. apply Hin. now rewrite Z.
      * intros (c & -> & -> & Hne). exists c.
        split; [now rewrite G|].
        apply firstSeen_In, onChain_nonempty. rewrite G.
        intro Z. apply Hne. now apply sort_nil_iff.
Qed.

(** X17. A chain whose endpoint is not configured costs no request,
    whatever is configured for the other chains: it gives no balance and
    the only trace it leaves is one warning.  When no endpoint is
    configured at all the handler makes no request and still succeeds,
    with an empty portfolio: no token, the total zero, written "$0.00". *)
Theorem no_endpoint_no_request :
  forall (address : string) (t : Trace),
    (forall chain,
        endpointOf env chain = None ->
        fetchChainBalances env address chain t
        = (Normal [], (t ++ [skipped chain])%list))
    /\ ((forall chain, endpointOf env chain = None) ->
        handler env address t
        = (Normal
             (mkActionResult
                (PortfolioText address "$0.00" NoTokensFound) true
                (Snapshot (mkData "WALLET_INFO" address 0 "$0.00" 0 []))),
           (t ++ [skipped base; skipped ethereum; skipped polygon])%list)).
Proof.
  intros address t.
  assert (F : forall chain t0,
             endpointOf env chain = None ->
             fetchChainBalances env address chain t0
             = (Normal [], (t0 ++ [skipped chain])%list)).
  { intros chain t0 H.
    apply endpointOf_None in H. unfold fetchChainBalances.
    rewrite H. reflexivity. }
  split; [intros chain H; now apply F|].
  intro Hnone.
  unfold handler, try_catch, bind. cbn [chains List.map PromiseAll].
  unfold bind. rewrite !F by apply Hnone.
  unfold ret. rewrite <- !app_assoc. reflexivity.
Qed.

End WalletMore.

Lemma only_held_tokens_are_resolved_witness :
  Wallet.processTokens Holdings.etherOnly base []
    [("0xaaa"%string, Some "0x0"%string); ("0xbbb"%string, Some "n/a"%string)]
    []
  = (Normal [], [Outside.LogWarn "Skipping token 0xbbb on base:"]).
Proof.
  destruct (@only_held_tokens_are_resolved Holdings.etherOnly base
              [("0xaaa"%string, Some "0x0"%string);
               ("0xbbb"%string, Some "n/a"%string)] [] [])
    as (es & E & _).
  rewrite E. vm_compute in E. injection E as <-. reflexivity.
Defined.

Lemma native_balance_is_reported_whatever_the_price_witness :
  exists logged,
    Wallet.nativeEntry Holdings.etherOnly base 500000000000000000 []
    = (Normal [Holdings.nativeHolding Holdings.etherOnly base
                 500000000000000000],
       Outside.ReqSimplePrice "ethereum" :: logged)
    /\ TokenBalance.balance
         (Holdings.nativeHolding Holdings.etherOnly base 500000000000000000)
       = "0.500000"%string
    /\ (TokenBalance.usdValue
          (Holdings.nativeHolding Holdings.etherOnly base 500000000000000000)
        == 0)%Q.
Proof.
  destruct (@native_balance_is_reported_whatever_the_price
              Holdings.etherOnly base 500000000000000000%Z [] eq_refl)
    as (logged & E & _ & F).
  exists logged. split; [exact E|]. split; [reflexivity|].
  apply F. left. exists "fetch failed"%string. reflexivity.
Defined.

Lemma no_endpoint_no_request_witness :
  Spec.endpointOf Holdings.etherOnly base <> None
  /\ Wallet.fetchChainBalances Holdings.etherOnly Examples.walletAddress
       ethereum []
     = (Normal [],
        [Outside.LogWarn
           "ETHEREUM_RPC_URL not configured, skipping ethereum"])
  /\ Portfolio.handler Holdings.unconfigured Examples.walletAddress []
     = (Normal
          (Portfolio.mkActionResult
             (Portfolio.PortfolioText Examples.walletAddress "$0.00"
                                      Portfolio.NoTokensFound) true
             (Portfolio.Snapshot
                (Portfolio.mkData "WALLET_INFO" Examples.walletAddress 0
                                  "$0.00" 0 []))),
        [Outside.LogWarn "BASE_RPC_URL not configured, skipping base";
         Outside.LogWarn "ETHEREUM_RPC_URL not configured, skipping ethereum";
         Outside.LogWarn "POLYGON_RPC_URL not configured, skipping polygon"]).
Proof.
  split; [discriminate|]. split.
  - apply (proj1 (@no_endpoint_no_request Holdings.etherOnly
                    Examples.walletAddress []) ethereum).
    reflexivity.
  - apply (proj2 (@no_endpoint_no_request Holdings.unconfigured
                    Examples.walletAddress [])).
    intro chain. now destruct chain.
Defined.

(* ------------------------------------------------------------------ *)
(** ** The chat component: order of the messages, what is sent          *)
(* ------------------------------------------------------------------ *)

Section ChatFacts.

Import Outside Portfolio Chat.
Local Open Scope string_scope.

Lemma byCreatedAt_le (x y : Message) :
  Qle_bool (byCreatedAt x y) 0 = true <-> notLater x y.
Proof.
  unfold byCreatedAt, notLater. rewrite Qle_bool_iff. split; intro H.
  - apply Qplus_le_l with (z := (- createdAt y)%Q).
    now setoid_replace (createdAt y + - createdAt y)%Q with 0%Q by ring.
  - apply Qplus_le_l with (z := createdAt y).
    setoid_replace (createdAt x - createdAt y + createdAt y)%Q
      with (createdAt x) by ring.
    now setoid_replace (0 + createdAt y)%Q with (createdAt y) by ring.
Qed.

Lemma byCreatedAt_gt (x y : Message) :
  Qle_bool (byCreatedAt x y) 0 = false -> (createdAt y < createdAt x)%Q.
Proof.
  intro H. apply Qnot_le_lt. intro Hle.
  apply byCreatedAt_le in Hle. congruence.
Qed.

Lemma notLater_trans (x y z : Message) :
  notLater x y -> notLater y z -> notLater x z.
Proof. unfold notLater. intros H1 H2. now apply Qle_trans with (createdAt y). Qed.

Lemma insert_in_time_order (x : Message) (s : list Message) :
  StronglySorted notLater s ->
  StronglySorted notLater (insert byCreatedAt x s).
Proof.
  induction 1 as [|y s Hs IH Hy]; cbn.
  - constructor; constructor.
  - destruct (Qle_bool (byCreatedAt x y) 0) eqn:C.
    + apply byCreatedAt_le in C. constructor.
      * now constructor.
      * constructor; [exact C|].
        eapply Forall_impl; [|exact Hy].
        intros z Hz. now apply notLater_trans with y.
    + constructor; [exact IH|].
      apply (Permutation_Forall (Permutation_sym (insert_perm _ x s))).
      constructor; [|exact Hy].
      apply byCreatedAt_gt in C. now apply Qlt_le_weak.
Qed.

Lemma sort_in_time_order (l : list Message) :
  StronglySorted notLater (sort byCreatedAt l).
Proof.
  induction l as [|x l IH]; [constructor|].
  change (sort byCreatedAt (x :: l))
    with (insert byCreatedAt x (sort byCreatedAt l)).
  now apply insert_in_time_order.
Qed.

Lemma insert_earliest (x : Message) (s : list Message) :
  Forall (notLater x) s -> insert byCreatedAt x s = x :: s.
Proof.
  intro H. destruct s as [|y rest]; [reflexivity|]. cbn [insert].
  inversion H as [|? ? Hy _]; subst.
  apply byCreatedAt_le in Hy. now rewrite Hy.
Qed.

(** Sorting a list in time order with one message appended puts the
    message behind those that are not later and leaves the rest alone. *)
Lemma sort_appended (new : Message) (prev : list Message) :
  StronglySorted notLater prev ->
  exists before after,
    prev = (before ++ after)%list
    /\ sort byCreatedAt (prev ++ [new]) = (before ++ new :: after)%list
    /\ Forall (fun m => notLater m new) before
    /\ Forall (fun m => (createdAt new < createdAt m)%Q) after.
Proof.
  induction 1 as [|x rest Hs IH Hx].
  - exists [], []. repeat split; constructor.
  - destruct IH as (before & after & E & S & Hb & Ha).
    change (sort byCreatedAt ((x :: rest) ++ [new]))
      with (insert byCreatedAt x (sort byCreatedAt (rest ++ [new]))).
    rewrite S. destruct before as [|y before].
    + cbn [app] in *. subst rest. cbn [insert].
      destruct (Qle_bool (byCreatedAt x new) 0) eqn:C.
      * exists [x], after. apply byCreatedAt_le in C.
        repeat split; [repeat constructor; exact C | exact Ha].
      * exists [], (x :: after). rewrite (insert_earliest Hx).
        apply byCreatedAt_gt in C.
        repeat split; [constructor | now constructor].
    + exists (x :: y :: before), after. subst rest.
      inversion Hx as [|? ? Hxy _]; subst.
      cbn [app insert]. apply byCreatedAt_le in Hxy as C. rewrite C.
      repeat split; [|exact Ha].
      constructor; [|exact Hb].
      inversion Hb; subst. now apply notLater_trans with y.
Qed.

Lemma existsb_id (i : string) (l : list Message) :
  existsb (fun m => id m =? i) l = true <-> In i (List.map id l).
Proof.
  rewrite existsb_exists, in_map_iff. split.
  - intros (m & Hm & E). apply String.eqb_eq in E. now exists m.
  - intros (m & E & Hm). exists m. split; [exact Hm|].
    now apply String.eqb_eq.
Qed.

(** X18. The updater that adds a received message to a list in time
    order: a message whose id is in the list already leaves the list as
    it is; any other message is put behind the messages that are not
    later than it and before those that are later, which all keep their
    places. *)
Theorem received_message_is_put_in_time_order :
  forall (newMessage : Message) (prev : list Message),
    StronglySorted notLater prev ->
    (In (id newMessage) (List.map id prev) -> addMessage newMessage prev = prev)
    /\ (~ In (id newMessage) (List.map id prev) ->
        exists before after,
          prev = (before ++ after)%list
          /\ addMessage newMessage prev = (before ++ newMessage :: after)%list
          /\ Forall (fun m => notLater m newMessage) before
          /\ Forall (fun m => (createdAt newMessage < createdAt m)%Q) after).
Proof.
  intros newMessage prev Hs. unfold addMessage. split; intro H.
  - apply existsb_id in H. now rewrite H.
  - destruct (existsb (fun m => id m =? id newMessage) prev) eqn:E.
    + apply existsb_id in E. contradiction.
    + now apply sort_appended.
Qed.

Lemma step_in_time_order (agent : Agent) (st : State) (e : Event) :
  StronglySorted notLater (messages st) ->
  StronglySorted notLater (messages (step agent st e)).
Proof.
  intro H. destruct e as [[msgs|msg]|data uuid|text| |message]; cbn.
  - apply sort_in_time_order.
  - exact H.
  - unfold addMessage.
    match goal with |- context [existsb ?f ?l] => destruct (existsb f l) end;
      [exact H | apply sort_in_time_order].
  - exact H.
  - unfold handleSubmit.
    destruct (negb (truthy (trim (inputValue st)))); exact H.
  - unfold handleQuickPrompt.
    destruct (isTyping st || negb (truthy (trim message)))%bool; exact H.
Qed.

Lemma step_sent (agent : Agent) (st : State) (e : Event) :
  Forall (fun text => trim text <> "") (sent st) ->
  Forall (fun text => trim text <> "") (sent (step agent st e)).
Proof.
  intro H. destruct e as [[msgs|msg]|data uuid|text| |message]; cbn;
    try exact H.
  - unfold handleSubmit.
    destruct (truthy (trim (inputValue st))) eqn:T; cbn; [|exact H].
    apply Forall_app. split; [exact H|]. constructor; [|constructor].
    now apply truthy_true_iff.
  - unfold handleQuickPrompt.
    destruct (isTyping st); cbn; [exact H|].
    destruct (truthy (trim message)) eqn:T; cbn; [|exact H].
    apply Forall_app. split; [exact H|]. constructor; [|constructor].
    now apply truthy_true_iff.
Qed.

Lemma step_ids (agent : Agent) (st : State) (e : Event) :
  distinctIds e ->
  NoDup (List.map id (messages st)) ->
  NoDup (List.map id (messages (step agent st e))).
Proof.
  intros D H. destruct e as [[msgs|msg]|data uuid|text| |message]; cbn;
    try exact H.
  - cbn in D.
    apply (Permutation_NoDup
             (l := List.map id (List.map (format agent) msgs))).
    + apply Permutation_map, Permutation_sym, sort_perm.
    + rewrite map_map. exact D.
  - unfold addMessage.
    match goal with
    | |- context [existsb ?f ?l] => destruct (existsb f l) eqn:E
    end; [exact H|].
    match goal with
    | |- NoDup (List.map id (sort _ (?p ++ [?m]))) =>
        apply (Permutation_NoDup (l := List.map id (m :: p)))
    end.
    + apply Permutation_map. rewrite sort_perm.
      apply Permutation_cons_append.
    + cbn [List.map]. constructor; [|exact H].
      intro Hin. apply existsb_id in Hin. simpl in Hin, E. congruence.
  - unfold handleSubmit.
    destruct (negb (truthy (trim (inputValue st)))); exact H.
  - unfold handleQuickPrompt.
    destruct (isTyping st || negb (truthy (trim message)))%bool; exact H.
Qed.

(** X19. Whatever happens to the component, in whatever order: the
    messages it shows are in time order; no text handed to the socket is
    blank; and, as long as the server never answers a load with two
    messages of one id, no two messages shown have the same id. *)
Theorem chat_state_invariants :
  forall (agent : Agent) (events : list Event),
    StronglySorted notLater (messages (run agent events))
    /\ Forall (fun text => trim text <> "") (sent (run agent events))
    /\ (Forall distinctIds events ->
        NoDup (List.map id (messages (run agent events)))).
Proof.
  intros agent events. unfold run.
  assert (G : forall st,
             StronglySorted notLater (messages st) ->
             Forall (fun text => trim text <> "") (sent st) ->
             StronglySorted notLater (messages (fold_left (step agent) events st))
             /\ Forall (fun text => trim text <> "")
                       (sent (fold_left (step agent) events st))
             /\ (Forall distinctIds events ->
                 NoDup (List.map id (messages st)) ->
                 NoDup (List.map id
                          (messages (fold_left (step agent) events st))))).
  { induction events as [|e events IH]; intros st Hs Hn; cbn [fold_left].
    - repeat split; [exact Hs | exact Hn | intros _ H; exact H].
    - destruct (IH (step agent st e)) as (H1 & H2 & H3);
        [now apply step_in_time_order | now apply step_sent |].
      repeat split; [exact H1 | exact H2|].
      intros D H. inversion D; subst. apply H3; [assumption|].
      now apply step_ids. }
  destruct (G initial) as (H1 & H2 & H3); [constructor | constructor |].
  repeat split; [exact H1 | exact H2|].
  intro D. apply H3; [exact D | constructor].
Qed.

End ChatFacts.

Lemma received_message_is_put_in_time_order_witness :
  exists before after,
    [Chat.heard "m2" "user-1" 2000; Chat.heard "m3" "agent-1" 3000]
    = (before ++ after)%list
    /\ Chat.addMessage (Chat.heard "m1" "user-1" 1000)
         [Chat.heard "m2" "user-1" 2000; Chat.heard "m3" "agent-1" 3000]
       = (before ++ Chat.heard "m1" "user-1" 1000 :: after)%list
    /\ Forall (fun m => Chat.notLater m (Chat.heard "m1" "user-1" 1000)) before
    /\ Forall (fun m => (Chat.createdAt (Chat.heard "m1" "user-1" 1000)
                         < Chat.createdAt m)%Q) after.
Proof.
  apply (@received_message_is_put_in_time_order
           (Chat.heard "m1" "user-1" 1000)
           [Chat.heard "m2" "user-1" 2000; Chat.heard "m3" "agent-1" 3000]).
  - repeat constructor. unfold Chat.notLater. cbn. discriminate.
  - cbn. intros [H|[H|[]]]; discriminate H.
Defined.

Lemma chat_state_invariants_witness :
  Forall (fun text => trim text <> ""%string)
    (Chat.sent
       (Chat.run Chat.otaku
          [Chat.Typed "   "; Chat.Submitted;
           Chat.Typed " gm "; Chat.Submitted;
           Chat.QuickPrompt "Explain stablecoin peg dynamics";
           Chat.Received (Chat.said "m1" "agent-1" 1000) "u1";
           Chat.QuickPrompt "Explain stablecoin peg dynamics"]))
  /\ Chat.sent
       (Chat.run Chat.otaku
          [Chat.Typed "   "; Chat.Submitted;
           Chat.Typed " gm "; Chat.Submitted;
           Chat.QuickPrompt "Explain stablecoin peg dynamics";
           Chat.Received (Chat.said "m1" "agent-1" 1000) "u1";
           Chat.QuickPrompt "Explain stablecoin peg dynamics"])
     = [" gm "; "Explain stablecoin peg dynamics"]%string.
Proof.
  split; [apply chat_state_invariants | reflexivity].
Defined.

(* ------------------------------------------------------------------ *)
(** ** The action WEB_SEARCH                                            *)
(* ------------------------------------------------------------------ *)

Section WebSearchFacts.

Import Outside WebSearch.
Local Open Scope string_scope.

Lemma substring_prefix (n : nat) (s : string) :
  exists rest, s = substring 0 n s ++ rest.
Proof.
  revert n. induction s as [|c s IH]; intro n.
  - exists "". now destruct n.
  - destruct n as [|n]; cbn.
    + now exists (String c s).
    + destruct (IH n) as (rest & E). exists rest. now rewrite <- E.
Qed.

Lemma substring_length (n : nat) (s : string) :
  String.length (substring 0 n s) = Nat.min n (String.length s).
Proof.
  revert n. induction s as [|c s IH]; intro n.
  - now destruct n.
  - destruct n as [|n]; cbn; [reflexivity|]. now rewrite IH.
Qed.

Lemma substring_all (n : nat) (s : string) :
  (String.length s <= n)%nat -> substring 0 n s = s.
Proof.
  revert n. induction s as [|c s IH]; intros n H.
  - now destruct n.
  - destruct n as [|n]; cbn in *; [lia|]. rewrite IH; [reflexivity | lia].
Qed.

Lemma MaxTokens_length (data : string) (maxTokens : Z) :
  (0 <= maxTokens)%Z ->
  Z.of_nat (String.length (MaxTokens data maxTokens))
  = Z.min (Z.of_nat (String.length data)) maxTokens.
Proof.
  intro H. unfold MaxTokens, sliceTo.
  destruct (Z.gtb_spec (Z.of_nat (String.length data)) maxTokens) as [G|G];
    [|lia].
  destruct (Z.ltb_spec maxTokens 0) as [L|_]; [lia|].
  rewrite substring_length. lia.
Qed.

(** X20. [MaxTokens] returns a prefix of the text, whatever the bound;
    for a bound that is not negative the prefix has the length of the
    text or the bound, whichever is less, and a second pass changes
    nothing; a text within the bound is returned as it is. *)
Theorem max_tokens_is_a_bounded_prefix :
  forall (data : string) (maxTokens : Z),
    (exists rest, data = MaxTokens data maxTokens ++ rest)
    /\ ((Z.of_nat (String.length data) <= maxTokens)%Z ->
        MaxTokens data maxTokens = data)
    /\ ((0 <= maxTokens)%Z ->
        Z.of_nat (String.length (MaxTokens data maxTokens))
        = Z.min (Z.of_nat (String.length data)) maxTokens
        /\ MaxTokens (MaxTokens data maxTokens) maxTokens
           = MaxTokens data maxTokens).
Proof.
  intros data maxTokens.
  assert (K : (Z.of_nat (String.length data) <= maxTokens)%Z ->
              MaxTokens data maxTokens = data).
  { intro H. unfold MaxTokens.
    destruct (Z.gtb_spec (Z.of_nat (String.length data)) maxTokens); [lia|].
    reflexivity. }
  split; [|split; [exact K|]].
  - unfold MaxTokens.
    destruct (Z.of_nat (String.length data) >? maxTokens)%Z.
    + apply substring_prefix.
    + exists "". clear. induction data as [|c s IH]; cbn; congruence.
  - intro H. split; [now apply MaxTokens_length|].
    pose proof (MaxTokens_length data H) as L.
    unfold MaxTokens at 1.
    destruct (Z.gtb_spec (Z.of_nat (String.length (MaxTokens data maxTokens)))
                         maxTokens); [lia | reflexivity].
Qed.


Lemma found_text (searchResponse : SearchResponse) :
  (Z.of_nat (String.length (text (found searchResponse)))
   <= DEFAULT_MAX_WEB_SEARCH_CHARS)%Z
  /\ (given (answer searchResponse) = false ->
      text (found searchResponse) = "").
Proof.
  split.
  - cbn [text found]. rewrite MaxTokens_length; [lia|].
    unfold DEFAULT_MAX_WEB_SEARCH_CHARS. lia.
  - intro H. cbn [text found]. unfold responseList. rewrite H. reflexivity.
Qed.

(** What the handler does once the query is known. *)
Lemma searching (rt : Runtime) (client : option Client) (query : string)
  (parsed : option Parsed.t) :
  exists r es,
    appends
      (try_catch
         (bind (emit (LogInfo ("WEB_SEARCH query: " ++ query))) (fun _ =>
          bind (search client query (optionsOf parsed)) (fun searchResponse =>
          match searchResponse with
          | Some searchResponse =>
              if negb (List.length (results searchResponse) =? 0)%nat then
                bind (report rt (text (found searchResponse)))
                     (fun _ => ret (found searchResponse))
              else bind (report rt (text noResult)) (fun _ => ret noResult)
          | None => bind (report rt (text noResult)) (fun _ => ret noResult)
          end)))
         (fun error =>
            bind (emit (LogError ("WEB_SEARCH failed: " ++ message error)))
                 (fun _ =>
            bind (report rt (text (errorResult (message error))))
                 (fun _ => ret (errorResult (message error))))))
      (Normal r) es
    /\ (List.length (List.filter isSearch es) <= 1)%nat
    /\ List.filter isAsk es = []
    /\ List.filter isCallback es
       = (if callback rt then [CalledBack (text r)] else [])
    /\ (success r = true ->
        exists tavily searchResponse,
          client = Some tavily
          /\ List.filter isSearch es
             = [Searched query (clientOptions (optionsOf parsed))]
          /\ tavily query (clientOptions (optionsOf parsed))
             = Fulfilled (Some searchResponse)
          /\ results searchResponse <> []
          /\ r = found searchResponse)
    /\ (success r = false ->
        r = noResult \/ exists errMsg, r = errorResult errMsg).
Proof.
  unfold search, report.
  destruct (callback rt); (destruct client as [tavily|];
    [set (options := clientOptions (optionsOf parsed));
     destruct (tavily query options) as [[searchResponse|]|msg] eqn:T;
     [destruct (List.length (results searchResponse) =? 0)%nat eqn:L;
      [exists noResult | exists (found searchResponse)]
     |exists noResult
     |exists (errorResult msg)]
    |exists (errorResult "WebSearchService not initialized")]);
    (eexists; split;
     [intro t; unfold bind, try_catch, emit, modify, await, ret, throw;
      cbn; rewrite ?L; cbn; rewrite <- ?app_assoc; reflexivity|]);
    cbn; repeat split; try lia; try discriminate; intros _;
    try (left; reflexivity); try (right; eexists; reflexivity);
    (exists tavily, searchResponse; repeat split; try assumption;
     intro Z; rewrite Z in L; discriminate L).
Qed.


Lemma try_catch_bind (E A B : Type) (m : M (list E) A)
  (k : A -> M (list E) B) (h : JsError -> M (list E) B) a es c es' :
  appends m (Normal a) es ->
  appends (try_catch (k a) h) c es' ->
  appends (try_catch (bind m k) h) c (es ++ es')%list.
Proof.
  intros H1 H2 t. unfold try_catch, bind. rewrite H1.
  specialize (H2 (t ++ es)%list). unfold try_catch in H2.
  now rewrite H2, app_assoc.
Qed.

Lemma given_trimmed (x : option string) :
  given (option_map trim x) = true ->
  orElse (option_map trim x) "" <> ""
  /\ trim (orElse (option_map trim x) "") = orElse (option_map trim x) "".
Proof.
  destruct x as [q|]; cbn; [|discriminate]. intro T. rewrite T.
  split; [now apply truthy_true_iff | apply trim_idempotent].
Qed.

(** X21. The handler of the action never throws, and makes at most one
    search.  A callback, if given, is called once, with the text of the
    result.  The result is a success only if the client answered a
    search for a query that is not blank and has no white space around
    it with at least one page; its text then has at most 16000 code
    units, and it is empty when the client gave no answer text, whatever
    the pages.  Every other result is one of the three failures. *)
Theorem web_search_never_throws :
  forall (rt : Runtime) (t : Trace),
  exists r es,
    handler rt t = (Normal r, (t ++ es)%list)
    /\ (List.length (List.filter isSearch es) <= 1)%nat
    /\ List.filter isCallback es
       = (if callback rt then [CalledBack (text r)] else [])
    /\ (success r = true ->
        exists tavily query options searchResponse,
          webSearchService rt = Some (Some tavily)
          /\ List.filter isSearch es = [Searched query options]
          /\ query <> "" /\ trim query = query
          /\ tavily query options = Fulfilled (Some searchResponse)
          /\ results searchResponse <> []
          /\ r = found searchResponse
          /\ (Z.of_nat (String.length (text r))
              <= DEFAULT_MAX_WEB_SEARCH_CHARS)%Z
          /\ (given (answer searchResponse) = false -> text r = ""))
    /\ (success r = false ->
        r = emptyResult \/ r = noResult
        \/ exists errMsg, r = errorResult errMsg).
Proof.
  intros rt t.
  assert (Search : forall query parsed client before,
             webSearchService rt = Some client ->
             query <> "" -> trim query = query ->
             List.filter isSearch before = [] ->
             List.filter isCallback before = [] ->
             forall m : M Trace ActionResult,
               (forall r es,
                   appends
                     (try_catch
                        (bind (emit (LogInfo ("WEB_SEARCH query: " ++ query)))
                           (fun _ =>
                            bind (search client query (optionsOf parsed))
                              (fun searchResponse =>
                               match searchResponse with
                               | Some searchResponse =>
                                   if negb (List.length (results searchResponse)
                                            =? 0)%nat
                                   then bind (report rt (text (found searchResponse)))
                                             (fun _ => ret (found searchResponse))
                                   else bind (report rt (text noResult))
                                             (fun _ => ret noResult)
                               | None => bind (report rt (text noResult))
                                              (fun _ => ret noResult)
                               end)))
                        (fun error =>
                           bind (emit (LogError ("WEB_SEARCH failed: "
                                                 ++ message error)))
                                (fun _ =>
                           bind (report rt (text (errorResult (message error))))
                                (fun _ => ret (errorResult (message error))))))
                     (Normal r) es ->
                   appends m (Normal r) (before ++ es)%list) ->
               exists r es,
                 m t = (Normal r, (t ++ es)%list)
                 /\ (List.length (List.filter isSearch es) <= 1)%nat
                 /\ List.filter isCallback es
                    = (if callback rt then [CalledBack (text r)] else [])
                 /\ (success r = true ->
                     exists tavily query options searchResponse,
                       webSearchService rt = Some (Some tavily)
                       /\ List.filter isSearch es = [Searched query options]
                       /\ query <> "" /\ trim query = query
                       /\ tavily query options = Fulfilled (Some searchResponse)
                       /\ results searchResponse <> []
                       /\ r = found searchResponse
                       /\ (Z.of_nat (String.length (text r))
                           <= DEFAULT_MAX_WEB_SEARCH_CHARS)%Z
                       /\ (given (answer searchResponse) = false -> text r = ""))
                 /\ (success r = false ->
                     r = emptyResult \/ r = noResult
                     \/ exists errMsg, r = errorResult errMsg)).
  { intros query parsed client before Hsvc Hq Ht Hb1 Hb2 m Hm.
    destruct (searching rt client query parsed)
      as (r & es & A & S1 & _ & S3 & S4 & S5).
    exists r, (before ++ es)%list. split; [apply (Hm r es A)|].
    rewrite !filter_app, Hb1, Hb2. cbn [app].
    split; [exact S1|]. split; [exact S3|]. split.
    - intro Hs. destruct (S4 Hs) as (tavily & resp & -> & F & T & N & ->).
      exists tavily, query, (clientOptions (optionsOf parsed)), resp.
      repeat split; try assumption; apply found_text.
    - intro Hs. destruct (S5 Hs) as [->|(msg & ->)];
        [right; now left | right; right; now exists msg]. }
  assert (Fail : forall msg before,
             List.filter isSearch before = [] ->
             List.filter isCallback before = [] ->
             forall m : M Trace ActionResult,
               appends m (Normal (errorResult msg))
                       (before ++ LogError ("WEB_SEARCH failed: " ++ msg)
                               :: (if callback rt
                                   then [CalledBack (text (errorResult msg))]
                                   else []))%list ->
               exists r es,
                 m t = (Normal r, (t ++ es)%list)
                 /\ (List.length (List.filter isSearch es) <= 1)%nat
                 /\ List.filter isCallback es
                    = (if callback rt then [CalledBack (text r)] else [])
                 /\ (success r = true ->
                     exists tavily query options searchResponse,
                       webSearchService rt = Some (Some tavily)
                       /\ List.filter isSearch es = [Searched query options]
                       /\ query <> "" /\ trim query = query
                       /\ tavily query options = Fulfilled (Some searchResponse)
                       /\ results searchResponse <> []
                       /\ r = found searchResponse
                       /\ (Z.of_nat (String.length (text r))
                           <= DEFAULT_MAX_WEB_SEARCH_CHARS)%Z
                       /\ (given (answer searchResponse) = false -> text r = ""))
                 /\ (success r = false ->
                     r = emptyResult \/ r = noResult
                     \/ exists errMsg, r = errorResult errMsg)).
  { intros msg before Hb1 Hb2 m Hm.
    eexists. eexists. split; [apply Hm|].
    rewrite !filter_app, Hb1, Hb2. cbn [app List.filter isSearch isCallback].
    destruct (callback rt); cbn; repeat split; try lia; try discriminate;
      intros _; right; right; now exists msg. }
  unfold handler.
  destruct (webSearchService rt) as [client|] eqn:Hsvc.
  2:{ apply (Fail "WebSearchService not initialized" []); try reflexivity.
      intro t0. unfold try_catch, throw, bind, emit, modify, report, ret.
      cbn. destruct (callback rt); cbn; now rewrite <- ?app_assoc. }
  destruct (memQuery rt) as [mq|msg].
  2:{ apply (Fail msg []); try reflexivity.
      intro t0. unfold try_catch, throw, bind, emit, modify, report, ret, await.
      cbn. destruct (callback rt); cbn; now rewrite <- ?app_assoc. }
  destruct (given (option_map trim mq)) eqn:G.
  { destruct (given_trimmed mq G) as [Hq Ht].
    apply (Search (orElse (option_map trim mq) "") None client []);
      try assumption; try reflexivity.
    intros r es A.
    eapply try_catch_bind with (es := []); [apply appends_ret|].
    cbv beta zeta. rewrite G. cbn [negb].
    eapply try_catch_bind with (es := []); [apply appends_ret|].
    cbv beta iota zeta. rewrite G. cbn [negb]. exact A. }
  destruct (modelAnswer rt) as [parsed|msg].
  2:{ apply (Fail msg [AskedModel]); try reflexivity.
      intro t0. unfold try_catch, throw, bind, emit, modify, report, ret, await.
      cbn. rewrite G. cbn.
      destruct (callback rt); cbn; now rewrite <- ?app_assoc. }
  set (q := match parsed with
            | Some p => option_map trim (Parsed.query p)
            | None => None
            end).
  destruct (given q) eqn:G'.
  - assert (Hq : orElse q "" <> "" /\ trim (orElse q "") = orElse q "").
    { unfold q in *. destruct parsed as [p|]; [|discriminate G'].
      now apply given_trimmed. }
    destruct Hq as [Hq Ht].
    apply (Search (orElse q "") parsed client [AskedModel]);
      try assumption; try reflexivity.
    intros r es A.
    eapply try_catch_bind with (es := []); [apply appends_ret|].
    cbv beta zeta. rewrite G. cbn [negb].
    eapply try_catch_bind with (es := [AskedModel]) (a := (q, parsed)).
    { eapply appends_bind_normal with (es := [AskedModel]) (es' := []);
        [intro t0; reflexivity|].
      eapply appends_bind_normal with (es := []) (es' := []);
        apply appends_ret. }
    cbv beta iota zeta. rewrite G'. cbn [negb]. exact A.
  - exists emptyResult.
    exists (AskedModel :: if callback rt then [CalledBack (text emptyResult)]
                          else []).
    split.
    { unfold try_catch, throw, bind, emit, modify, report, ret, await.
      cbn. rewrite G. cbn. fold q. rewrite G'. cbn.
      destruct (callback rt); cbn; now rewrite <- ?app_assoc. }
    destruct (callback rt); cbn; repeat split; try lia; try discriminate;
      intros _; now left.
Qed.


(** The same with a client: the search comes first, and the answer of
    the client decides. *)
Lemma searching_with (rt : Runtime) (tavily : Client) (query : string)
  (parsed : option Parsed.t) :
  exists r es,
    appends
      (try_catch
         (bind (emit (LogInfo ("WEB_SEARCH query: " ++ query))) (fun _ =>
          bind (search (Some tavily) query (optionsOf parsed))
            (fun searchResponse =>
          match searchResponse with
          | Some searchResponse =>
              if negb (List.length (results searchResponse) =? 0)%nat then
                bind (report rt (text (found searchResponse)))
                     (fun _ => ret (found searchResponse))
              else bind (report rt (text noResult)) (fun _ => ret noResult)
          | None => bind (report rt (text noResult)) (fun _ => ret noResult)
          end)))
         (fun error =>
            bind (emit (LogError ("WEB_SEARCH failed: " ++ message error)))
                 (fun _ =>
            bind (report rt (text (errorResult (message error))))
                 (fun _ => ret (errorResult (message error))))))
      (Normal r)
      (LogInfo ("WEB_SEARCH query: " ++ query)
       :: Searched query (clientOptions (optionsOf parsed)) :: es)
    /\ List.filter isAsk es = []
    /\ List.filter isSearch es = []
    /\ (forall searchResponse,
           tavily query (clientOptions (optionsOf parsed))
           = Fulfilled (Some searchResponse) ->
           results searchResponse <> [] ->
           r = found searchResponse).
Proof.
  unfold search, report.
  set (options := clientOptions (optionsOf parsed)).
  destruct (callback rt);
    (destruct (tavily query options) as [[searchResponse|]|msg] eqn:T;
     [destruct (results searchResponse) as [|page pages] eqn:R|..]);
    (eexists; eexists; split;
     [intro t; unfold bind, try_catch, emit, modify, await, ret, throw;
      cbn; rewrite ?T; cbn; rewrite ?R; cbn; rewrite <- ?app_assoc;
      reflexivity|]);
    (split; [reflexivity|]); (split; [reflexivity|]);
    intros resp E N; try discriminate E; injection E as <-;
    [now rewrite R in N | reflexivity | now rewrite R in N | reflexivity].
Qed.

(** X22. A query found in the working memory that is not blank is used,
    trimmed: the model is not asked, and the client is given the
    trimmed query with the options of the service, which are an answer,
    three results, the topic general, the depth basic, no images and
    three days.  When the client answers with at least one page, the
    result is the success made of this answer. *)
Theorem memory_query_takes_precedence :
  forall (rt : Runtime) (t : Trace) (tavily : Client) (q : string),
    webSearchService rt = Some (Some tavily) ->
    memQuery rt = Fulfilled (Some q) ->
    trim q <> "" ->
    exists r es,
      handler rt t
      = (Normal r,
         (t ++ LogInfo ("WEB_SEARCH query: " ++ trim q)
            :: Searched (trim q) defaults :: es)%list)
      /\ List.filter isAsk es = []
      /\ List.filter isSearch es = []
      /\ (forall searchResponse,
             tavily (trim q) defaults = Fulfilled (Some searchResponse) ->
             results searchResponse <> [] ->
             r = found searchResponse).
Proof.
  intros rt t tavily q Hsvc Hmem Hq.
  apply truthy_true_iff in Hq.
  destruct (searching_with rt tavily (trim q) None)
    as (r & es & A & H1 & H2 & H3).
  change (clientOptions (optionsOf None)) with defaults in *.
  exists r, es. split; [|now repeat split].
  unfold handler. rewrite Hsvc, Hmem.
  match goal with
  | |- ?m t = _ =>
      assert (G : appends m (Normal r)
                    (LogInfo ("WEB_SEARCH query: " ++ trim q)
                     :: Searched (trim q) defaults :: es));
        [|apply G]
  end.
  rewrite <- (app_nil_l (LogInfo _ :: _)).
  eapply try_catch_bind with (es := []); [apply appends_ret|].
  cbv beta zeta. cbn [option_map given]. rewrite Hq. cbn [negb].
  rewrite <- (app_nil_l (LogInfo _ :: _)).
  eapply try_catch_bind with (es := []); [apply appends_ret|].
  cbv beta iota zeta. cbn [given orElse]. rewrite Hq. cbn [negb].
  exact A.
Qed.

(** X23. When neither the working memory nor the model gives a query
    that is not blank, the handler asks for one: it makes no search,
    logs nothing, and returns the failure "empty_query", which the
    callback, if given, is told. *)
Theorem blank_query_is_not_searched :
  forall (rt : Runtime) (t : Trace) (client : option Client),
    webSearchService rt = Some client ->
    (memQuery rt = Fulfilled None
     \/ exists q, memQuery rt = Fulfilled (Some q) /\ trim q = "") ->
    (modelAnswer rt = Fulfilled None
     \/ exists p,
          modelAnswer rt = Fulfilled (Some p)
          /\ (Parsed.query p = None
              \/ exists q, Parsed.query p = Some q /\ trim q = "")) ->
    handler rt t
    = (Normal emptyResult,
       (t ++ AskedModel
          :: (if callback rt
              then [CalledBack "Please specify what to search for."]
              else []))%list).
Proof.
  intros rt t client Hsvc Hmem Hmodel.
  assert (M : exists mq, memQuery rt = Fulfilled mq
                         /\ given (option_map trim mq) = false).
  { destruct Hmem as [E|(q & E & B)]; eexists; (split; [exact E|]);
      [reflexivity | cbn; now rewrite B]. }
  assert (P : exists parsed,
             modelAnswer rt = Fulfilled parsed
             /\ given match parsed with
                      | Some p => option_map trim (Parsed.query p)
                      | None => None
                      end = false).
  { destruct Hmodel as [E|(p & E & [N|(q & N & B)])];
      eexists; (split; [exact E|]); cbn; rewrite ?N; cbn; rewrite ?B;
      reflexivity. }
  destruct M as (mq & Em & G). destruct P as (parsed & Ep & G').
  unfold handler. rewrite Hsvc, Em, Ep.
  unfold try_catch, bind, await, ret, throw, emit, modify, report.
  cbn. rewrite G. cbn. rewrite G'. cbn.
  destruct (callback rt); cbn; now rewrite <- ?app_assoc.
Qed.

End WebSearchFacts.

Lemma max_tokens_is_a_bounded_prefix_witness :
  WebSearch.MaxTokens "Otaku" 16000 = "Otaku"%string
  /\ WebSearch.MaxTokens "Otaku" 3 = "Ota"%string.
Proof.
  split.
  - apply max_tokens_is_a_bounded_prefix. vm_compute. discriminate.
  - reflexivity.
Defined.

Lemma web_search_never_throws_witness :
  exists es,
    WebSearch.handler
      (WebSearch.mkRuntime (Some (Some WebSearch.terse))
         (Outside.Fulfilled (Some " otaku "%string))
         (Outside.Rejected "model offline") true) []
    = (Normal (WebSearch.mkActionResult "" true None
                 (Some (WebSearch.mkSearchResponse None
                          [WebSearch.mkSearchResult "Home"
                             "https://example.org"]))), es)
    /\ List.filter WebSearch.isCallback es = [WebSearch.CalledBack ""].
Proof.
  destruct (web_search_never_throws
              (WebSearch.mkRuntime (Some (Some WebSearch.terse))
                 (Outside.Fulfilled (Some " otaku "%string))
                 (Outside.Rejected "model offline") true) [])
    as (r & es & E & _ & C & _).
  exists es. cbn [app] in E. rewrite E.
  vm_compute in E. injection E as <- <-. split; reflexivity.
Defined.

Lemma memory_query_takes_precedence_witness :
  exists es,
    WebSearch.handler
      (WebSearch.mkRuntime (Some (Some WebSearch.helpful))
         (Outside.Fulfilled (Some " otaku "%string))
         (Outside.Rejected "model offline") false) []
    = (Normal
         (WebSearch.found
            (WebSearch.mkSearchResponse (Some "42"%string)
               [WebSearch.mkSearchResult "Guide" "https://a.example";
                WebSearch.mkSearchResult "FAQ" "https://b.example"])),
       WebSearch.LogInfo "WEB_SEARCH query: otaku"
       :: WebSearch.Searched "otaku" WebSearch.defaults :: es).
Proof.
  destruct (@memory_query_takes_precedence
              (WebSearch.mkRuntime (Some (Some WebSearch.helpful))
                 (Outside.Fulfilled (Some " otaku "%string))
                 (Outside.Rejected "model offline") false)
              [] WebSearch.helpful " otaku "%string
              eq_refl eq_refl)
    as (r & es & E & _ & _ & F).
  - discriminate.
  - exists es. rewrite E. rewrite (F _ eq_refl); [reflexivity|discriminate].
Defined.

Lemma blank_query_is_not_searched_witness :
  WebSearch.handler
    (WebSearch.mkRuntime (Some (Some WebSearch.helpful))
       (Outside.Fulfilled (Some "   "%string))
       (Outside.Fulfilled None) true) []
  = (Normal WebSearch.emptyResult,
     [WebSearch.AskedModel;
      WebSearch.CalledBack "Please specify what to search for."]).
Proof.
  apply (@blank_query_is_not_searched
           (WebSearch.mkRuntime (Some (Some WebSearch.helpful))
              (Outside.Fulfilled (Some "   "%string))
              (Outside.Fulfilled None) true)
           [] (Some WebSearch.helpful) eq_refl).
  - right. exists "   "%string. split; reflexivity.
  - now left.
Defined.

(* ------------------------------------------------------------------ *)
(** ** The chains of the server                                         *)
(* ------------------------------------------------------------------ *)

Section ChainsFacts.

Local Open Scope string_scope.

Lemma includes_In (l : list string) (x : string) :
  Chains.includes l x = true <-> In x l.
Proof.
  unfold Chains.includes. rewrite existsb_exists. split.
  - intros (y & Hy & E). apply String.eqb_eq in E. now subst.
  - intro H. exists x. split; [exact H | apply String.eqb_refl].
Qed.

Lemma own_Some (network : string) (configs : list (string * Chains.ChainConfig.t))
  (config : Chains.ChainConfig.t) :
  Chains.own network configs = Some config -> In (network, config) configs.
Proof.
  induction configs as [|[key c] rest IH]; cbn; [discriminate|].
  destruct (String.eqb_spec network key) as [->|_].
  - intro H. injection H as <-. now left.
  - intro H. right. now apply IH.
Qed.

Lemma own_None (network : string)
  (configs : list (string * Chains.ChainConfig.t)) :
  Chains.own network configs = None <-> ~ In network (List.map fst configs).
Proof.
  induction configs as [|[key c] rest IH]; cbn; [tauto|].
  destruct (String.eqb_spec network key) as [->|N].
  - split; [discriminate | intro H; exfalso; apply H; now left].
  - rewrite IH. split; [intros H [E|E]; [congruence | tauto] | tauto].
Qed.

(** The three ways in which a name is looked up. *)
Lemma lookup_cases (network : string) :
  (exists config,
      In (network, config) Chains.CHAIN_CONFIGS
      /\ Chains.lookup network = Chains.Own config)
  \/ (In network Chains.inheritedNames
      /\ ~ In network Chains.ALL_NETWORKS
      /\ Chains.lookup network = Chains.Inherited network)
  \/ (~ In network Chains.inheritedNames
      /\ ~ In network Chains.ALL_NETWORKS
      /\ Chains.lookup network = Chains.Absent).
Proof.
  unfold Chains.lookup.
  destruct (Chains.own network Chains.CHAIN_CONFIGS) as [config|] eqn:O.
  - left. exists config. split; [now apply own_Some | reflexivity].
  - apply own_None in O. right.
    destruct (Chains.includes Chains.inheritedNames network) eqn:I.
    + left. apply includes_In in I. now repeat split.
    + right. repeat split; [|exact O].
      intro H. apply includes_In in H. congruence.
Qed.

Lemma own_lookup (network : string) :
  In network Chains.ALL_NETWORKS <->
  exists config, Chains.lookup network = Chains.Own config.
Proof.
  destruct (lookup_cases network)
    as [(config & Hin & E)|[(_ & N & E)|(_ & N & E)]]; rewrite E.
  - split; [intros _; now exists config|]. intros _.
    apply in_map_iff. now exists (network, config).
  - split; [contradiction | intros (c & H); discriminate H].
  - split; [contradiction | intros (c & H); discriminate H].
Qed.

(** X24. The three lists of networks agree: the keys of [CHAIN_CONFIGS]
    are the mainnets followed by the testnets, without repetition; no
    name is both a mainnet and a testnet; and the names that
    [isMainnet] or [isTestnet] accept are those that have a
    configuration of their own. *)
Theorem networks_are_mainnets_or_testnets :
  Chains.ALL_NETWORKS
  = (Chains.MAINNET_NETWORKS ++ Chains.TESTNET_NETWORKS)%list
  /\ NoDup Chains.ALL_NETWORKS
  /\ forall network,
       (Chains.isMainnet network = true -> Chains.isTestnet network = false)
       /\ (Chains.isMainnet network = true \/ Chains.isTestnet network = true
           <-> exists config,
                 Chains.getChainConfig network = Chains.Own config).
Proof.
  split; [reflexivity|]. split.
  - repeat constructor; cbn; intuition discriminate.
  - intro network. split.
    + intro H. apply includes_In in H. cbn in H.
      repeat destruct H as [<-|H]; try reflexivity. contradiction.
    + unfold Chains.getChainConfig. rewrite <- own_lookup.
      change Chains.ALL_NETWORKS
        with (Chains.MAINNET_NETWORKS ++ Chains.TESTNET_NETWORKS)%list.
      rewrite in_app_iff. unfold Chains.isMainnet, Chains.isTestnet.
      now rewrite !includes_In.
Qed.


(** X25. [getRpcUrl] by the kind of the name.  A network with a
    configuration gets the URL of its Alchemy host, which ends with the
    key, and two networks never get the same URL for one key.  A name
    that the object inherits, such as "toString", passes
    [isSupportedNetwork] and makes [getRpcUrl] throw a TypeError.  Any
    other name is not supported and gets [null]. *)
Theorem rpc_url_by_kind_of_name :
  forall (network alchemyKey : string),
    (In network Chains.ALL_NETWORKS ->
     Chains.isSupportedNetwork network = true
     /\ exists host,
          Chains.getRpcUrl network alchemyKey
          = Normal (Some ("https://" ++ host ++ ".g.alchemy.com/v2/"
                          ++ alchemyKey)))
    /\ (In network Chains.inheritedNames ->
        Chains.isSupportedNetwork network = true
        /\ Chains.getRpcUrl network alchemyKey
           = Throw (mkError "config.rpcUrl is not a function"))
    /\ (~ In network Chains.ALL_NETWORKS ->
        ~ In network Chains.inheritedNames ->
        Chains.isSupportedNetwork network = false
        /\ Chains.getRpcUrl network alchemyKey = Normal None)
    /\ (forall network' u,
           Chains.getRpcUrl network alchemyKey = Normal (Some u) ->
           Chains.getRpcUrl network' alchemyKey = Normal (Some u) ->
           network = network').
Proof.
  intros network alchemyKey.
  unfold Chains.getRpcUrl, Chains.isSupportedNetwork, Chains.getChainConfig.
  split; [|split; [|split]].
  - intro H.
    destruct (lookup_cases network)
      as [(config & Hin & ->)|[(_ & N & _)|(_ & N & _)]];
      [|contradiction|contradiction].
    split; [reflexivity|]. cbn in Hin.
    repeat destruct Hin as [E|Hin]; try contradiction;
      injection E as _ <-; cbn [Chains.ChainConfig.rpcUrl];
      [exists "base-mainnet" | exists "eth-mainnet"
      | exists "polygon-mainnet" | exists "arb-mainnet"
      | exists "opt-mainnet" | exists "scroll-mainnet"
      | exists "base-sepolia" | exists "eth-sepolia"]; reflexivity.
  - intro H.
    destruct (lookup_cases network)
      as [(config & Hin & _)|[(_ & _ & ->)|(N & _ & _)]];
      [|now split|contradiction].
    exfalso. apply (in_map fst) in Hin. cbn in H, Hin.
    repeat destruct H as [<-|H]; try contradiction;
      intuition discriminate.
  - intros N1 N2.
    destruct (lookup_cases network)
      as [(config & Hin & _)|[(I & _ & _)|(_ & _ & ->)]];
      [|contradiction|now split].
    exfalso. apply N1. apply in_map_iff. now exists (network, config).
  - intros network' u.
    destruct (lookup_cases network)
      as [(config & Hin & ->)|[(_ & _ & ->)|(_ & _ & ->)]];
      [|discriminate|discriminate].
    destruct (lookup_cases network')
      as [(config' & Hin' & ->)|[(_ & _ & ->)|(_ & _ & ->)]];
      [|discriminate|discriminate].
    intros E E'. injection E as <-. injection E' as E'.
    cbn in Hin, Hin'.
    repeat destruct Hin as [H|Hin]; try contradiction;
      injection H as <- <-;
      repeat destruct Hin' as [H'|Hin']; try contradiction;
      injection H' as <- <-; try reflexivity;
      cbn in E'; discriminate E'.
Qed.


End ChainsFacts.

Lemma rpc_url_by_kind_of_name_witness :
  Chains.getRpcUrl "base-sepolia" "k3y"
  = Normal (Some "https://base-sepolia.g.alchemy.com/v2/k3y"%string)
  /\ Chains.getRpcUrl "toString" "k3y"
     = Throw (mkError "config.rpcUrl is not a function")
  /\ Chains.getRpcUrl "solana" "k3y" = Normal None.
Proof.
  destruct (rpc_url_by_kind_of_name "base-sepolia" "k3y")
    as (H1 & _).
  destruct (rpc_url_by_kind_of_name "toString" "k3y")
    as (_ & H2 & _).
  destruct (rpc_url_by_kind_of_name "solana" "k3y")
    as (_ & _ & H3 & _).
  split; [|split].
  - destruct H1 as (_ & host & E); [cbn; tauto|].
    rewrite E. vm_compute in E. injection E as E.
    now rewrite E.
  - apply H2. cbn. tauto.
  - apply H3; cbn; intuition discriminate.
Defined.

